(** * TrackDispatcher: track changes and quality locking for one Period and
      one Adaptation type (src/core/api/track_management/track_dispatcher.ts)

    The class is embedded as state-passing functions over a [World] record
    holding the dispatcher's private fields, the objects it shares with the
    rest of the player (Manifest, Adaptations, locked-Representations
    references) and the closures it allocates.  Listeners attached to the
    dispatcher's own events may call back into [start]/[updateTrack]
    synchronously: they are described by a script of reactions, consumed one
    per listener invocation.  The callbacks subscribed to the references the
    dispatcher writes ([_adaptationRef] and the sub-references) belong to the
    stream pipeline: a reference records them, and every value it accepts,
    but they are not run here. *)

From Stdlib Require Import ZArith List Bool String Lia Sorted Permutation.
From stdpp Require Import base list relations.
Import ListNotations.

Local Open Scope nat_scope.

(** ** Data model *)

(** A quality variant.  [id] and [bitrate] never change; whether it is
    currently playable does, and lives in the [World]. *)
Record Representation := {
  id : string;
  bitrate : Z;
}.

(** [undefined], [null], or an object. *)
Inductive Nullable (A : Type) :=
| Undefined
| Null
| Value (a : A).
Arguments Undefined {A}.
Arguments Null {A}.
Arguments Value {A} a.

(** [IRepresentationsChoice] *)
Record IRepresentationsChoice := {
  representations : list Representation;
  representationsSwitchingMode : string;
}.

(** [ITrackSetting]: the Adaptation and the reference to the locked
    Representations are shared mutable objects, held by address. *)
Record ITrackSetting := {
  adaptation : nat;
  switchingMode : string;
  relativeResumingPosition : option Z;
  lockedRepresentations : nat;
}.

(** [IAdaptationChoice], the value sent through [_adaptationRef];
    [choiceRepresentations] is the address of the sub-reference. *)
Record IAdaptationChoice := {
  choiceAdaptation : nat;
  choiceSwitchingMode : string;
  choiceRepresentations : nat;
  choiceRelativeResumingPosition : option Z;
}.

(** The object stored in [_lastEmitted]. *)
Record ILastEmitted := {
  lastAdaptation : nat;
  lastSwitchingMode : string;
  lastLockedRepresentations : option (list Representation);
}.

Inductive ITrackDispatcherEvent :=
| noPlayableLockedRepresentation
| noPlayableRepresentation.

Inductive IManifestEvent :=
| decipherabilityUpdate
| manifestUpdate.

(** Modelled from the spec: the [Adaptation] class of the manifest, which is
    not part of the sources at hand.  A group of Representations and the
    mutable [isSupported] flag. *)
Record Adaptation := {
  adaptationRepresentations : list Representation;
  isSupported : bool;
}.

(** Modelled from the spec: [SharedReference] (utils/reference), section 4.2.
    One current value, a finished flag and the subscribed callbacks, each
    named by a number.  [history] is a ghost field recording every value
    accepted by [setValue], oldest first. *)
Record SharedReference (T : Type) := {
  value : T;
  isFinished : bool;
  cbs : list nat;
  history : list T;
}.
Arguments value {T} _.
Arguments isFinished {T} _.
Arguments cbs {T} _.
Arguments history {T} _.

Definition newSharedReference {T} (initial : T) : SharedReference T :=
  {| value := initial; isFinished := false; cbs := []; history := [] |}.

Definition getValue {T} (r : SharedReference T) : T := value r.

(** A finished reference ignores [setValue]. *)
Definition setValue {T} (v : T) (r : SharedReference T) : SharedReference T :=
  if isFinished r then r
  else {| value := v; isFinished := false; cbs := cbs r;
          history := history r ++ [v] |}.

Definition finish {T} (r : SharedReference T) : SharedReference T :=
  {| value := value r; isFinished := true; cbs := []; history := history r |}.

Definition onUpdate {T} (cb : nat) (r : SharedReference T) : SharedReference T :=
  if isFinished r then r
  else {| value := value r; isFinished := false; cbs := cbs r ++ [cb];
          history := history r |}.

Definition unlisten {T} (cb : nat) (r : SharedReference T) : SharedReference T :=
  {| value := value r; isFinished := isFinished r;
     cbs := List.filter (fun c => negb (Nat.eqb c cb)) (cbs r);
     history := history r |}.

(** Modelled from the spec: [TaskCanceller] and its signal (utils/task_canceller),
    section 4.1.  The two kinds of clean-up this class registers are the
    [removeListeners] closure of a sub-reference and the removal of that
    sub-reference's subscription to a locked-Representations reference. *)
Inductive Cleanup :=
| removeListeners (k : nat)
| clearSubscription (l k : nat).

Record TaskCanceller := {
  isCancelled : bool;
  registered : list Cleanup;
}.

Definition newTaskCanceller : TaskCanceller :=
  {| isCancelled := false; registered := [] |}.

(** The closure [updateReferenceIfNeeded] of one call to
    [_constructLockedRepresentationsReference]: the captured [trackInfo] and
    the [reference] it writes. *)
Record Closure := {
  trackInfo : ITrackSetting;
  reference : SharedReference IRepresentationsChoice;
}.

Record World := {
  (* shared with the rest of the player *)
  isPlayable : Representation -> bool;
  adaptations : nat -> Adaptation;
  lockedRefs : nat -> SharedReference (option IRepresentationsChoice);
  manifestListeners : IManifestEvent -> list nat;
  (* the TrackDispatcher's fields *)
  _adaptationRef : SharedReference (Nullable IAdaptationChoice);
  _lastEmitted : Nullable ILastEmitted;
  _canceller : TaskCanceller;
  _updateToken : bool;
  (* whether listeners are attached to the dispatcher's own events *)
  hasListeners : bool;
  (* closures allocated so far; a sub-reference's address is its index *)
  closures : list Closure;
  (* ghost: every event triggered by the dispatcher, oldest first *)
  triggered : list ITrackDispatcherEvent;
}.

(** Field updates. *)
Definition set_adaptations (f : nat -> Adaptation) (w : World) : World :=
  {| isPlayable := isPlayable w; adaptations := f;
     lockedRefs := lockedRefs w; manifestListeners := manifestListeners w;
     _adaptationRef := _adaptationRef w; _lastEmitted := _lastEmitted w;
     _canceller := _canceller w; _updateToken := _updateToken w;
     hasListeners := hasListeners w; closures := closures w;
     triggered := triggered w |}.

Definition set_lockedRefs
  (f : nat -> SharedReference (option IRepresentationsChoice)) (w : World) : World :=
  {| isPlayable := isPlayable w; adaptations := adaptations w;
     lockedRefs := f; manifestListeners := manifestListeners w;
     _adaptationRef := _adaptationRef w; _lastEmitted := _lastEmitted w;
     _canceller := _canceller w; _updateToken := _updateToken w;
     hasListeners := hasListeners w; closures := closures w;
     triggered := triggered w |}.

Definition set_manifestListeners (f : IManifestEvent -> list nat) (w : World) : World :=
  {| isPlayable := isPlayable w; adaptations := adaptations w;
     lockedRefs := lockedRefs w; manifestListeners := f;
     _adaptationRef := _adaptationRef w; _lastEmitted := _lastEmitted w;
     _canceller := _canceller w; _updateToken := _updateToken w;
     hasListeners := hasListeners w; closures := closures w;
     triggered := triggered w |}.

Definition set_adaptationRef
  (r : SharedReference (Nullable IAdaptationChoice)) (w : World) : World :=
  {| isPlayable := isPlayable w; adaptations := adaptations w;
     lockedRefs := lockedRefs w; manifestListeners := manifestListeners w;
     _adaptationRef := r; _lastEmitted := _lastEmitted w;
     _canceller := _canceller w; _updateToken := _updateToken w;
     hasListeners := hasListeners w; closures := closures w;
     triggered := triggered w |}.

Definition set_lastEmitted (e : Nullable ILastEmitted) (w : World) : World :=
  {| isPlayable := isPlayable w; adaptations := adaptations w;
     lockedRefs := lockedRefs w; manifestListeners := manifestListeners w;
     _adaptationRef := _adaptationRef w; _lastEmitted := e;
     _canceller := _canceller w; _updateToken := _updateToken w;
     hasListeners := hasListeners w; closures := closures w;
     triggered := triggered w |}.

Definition set_canceller (c : TaskCanceller) (w : World) : World :=
  {| isPlayable := isPlayable w; adaptations := adaptations w;
     lockedRefs := lockedRefs w; manifestListeners := manifestListeners w;
     _adaptationRef := _adaptationRef w; _lastEmitted := _lastEmitted w;
     _canceller := c; _updateToken := _updateToken w;
     hasListeners := hasListeners w; closures := closures w;
     triggered := triggered w |}.

Definition set_updateToken (b : bool) (w : World) : World :=
  {| isPlayable := isPlayable w; adaptations := adaptations w;
     lockedRefs := lockedRefs w; manifestListeners := manifestListeners w;
     _adaptationRef := _adaptationRef w; _lastEmitted := _lastEmitted w;
     _canceller := _canceller w; _updateToken := b;
     hasListeners := hasListeners w; closures := closures w;
     triggered := triggered w |}.

Definition set_hasListeners (b : bool) (w : World) : World :=
  {| isPlayable := isPlayable w; adaptations := adaptations w;
     lockedRefs := lockedRefs w; manifestListeners := manifestListeners w;
     _adaptationRef := _adaptationRef w; _lastEmitted := _lastEmitted w;
     _canceller := _canceller w; _updateToken := _updateToken w;
     hasListeners := b; closures := closures w;
     triggered := triggered w |}.

Definition set_closures (l : list Closure) (w : World) : World :=
  {| isPlayable := isPlayable w; adaptations := adaptations w;
     lockedRefs := lockedRefs w; manifestListeners := manifestListeners w;
     _adaptationRef := _adaptationRef w; _lastEmitted := _lastEmitted w;
     _canceller := _canceller w; _updateToken := _updateToken w;
     hasListeners := hasListeners w; closures := l;
     triggered := triggered w |}.

Definition set_triggered (l : list ITrackDispatcherEvent) (w : World) : World :=
  {| isPlayable := isPlayable w; adaptations := adaptations w;
     lockedRefs := lockedRefs w; manifestListeners := manifestListeners w;
     _adaptationRef := _adaptationRef w; _lastEmitted := _lastEmitted w;
     _canceller := _canceller w; _updateToken := _updateToken w;
     hasListeners := hasListeners w; closures := closures w;
     triggered := l |}.

(** What the environment does between two calls: playability changes and
    manifest refreshes. *)
Definition set_isPlayable (f : Representation -> bool) (w : World) : World :=
  {| isPlayable := f; adaptations := adaptations w;
     lockedRefs := lockedRefs w; manifestListeners := manifestListeners w;
     _adaptationRef := _adaptationRef w; _lastEmitted := _lastEmitted w;
     _canceller := _canceller w; _updateToken := _updateToken w;
     hasListeners := hasListeners w; closures := closures w;
     triggered := triggered w |}.

(** Point update of a store of objects held by address. *)
Definition update {A} (f : nat -> A) (a : nat) (x : A) : nat -> A :=
  fun a' => if Nat.eqb a' a then x else f a'.

(** [adaptation.isSupported = b] on the Adaptation at address [a]. *)
Definition set_isSupported (a : nat) (b : bool) (w : World) : World :=
  set_adaptations
    (update (adaptations w) a
       {| adaptationRepresentations := adaptationRepresentations (adaptations w a);
          isSupported := b |}) w.

(** ** Built-ins and collaborators *)

(** [Array.prototype.sort(compareFn)]: stable, an element goes before
    another when [compareFn] is negative, after it when positive, and keeps
    its place relative to the elements it ties with. *)
Fixpoint sortInsert {A} (compareFn : A -> A -> Z) (a : A) (l : list A) : list A :=
  match l with
  | [] => [a]
  | b :: l' =>
      if (compareFn a b <=? 0)%Z then a :: b :: l'
      else b :: sortInsert compareFn a l'
  end.

Fixpoint sort {A} (compareFn : A -> A -> Z) (l : list A) : list A :=
  match l with
  | [] => []
  | a :: l' => sortInsert compareFn a (sort compareFn l')
  end.

(** The comparison function of line 218. *)
Definition compareBitrate (ra rb : Representation) : Z :=
  (bitrate ra - bitrate rb)%Z.

(** Modelled from the spec: [Adaptation.getPlayableRepresentations], the
    Representations of the Adaptation that are currently playable. *)
Definition getPlayableRepresentations (w : World) (a : nat) : list Representation :=
  List.filter (isPlayable w) (adaptationRepresentations (adaptations w a)).

(** Modelled from the spec: [EventEmitter.addEventListener] and
    [removeEventListener] on the Manifest; the listeners here are the
    [updateReferenceIfNeeded] closures, named by their index. *)
Definition manifestEventEqb (e1 e2 : IManifestEvent) : bool :=
  match e1, e2 with
  | decipherabilityUpdate, decipherabilityUpdate => true
  | manifestUpdate, manifestUpdate => true
  | _, _ => false
  end.

Definition addEventListener (evt : IManifestEvent) (k : nat) (w : World) : World :=
  set_manifestListeners
    (fun e => if manifestEventEqb e evt then manifestListeners w e ++ [k]
              else manifestListeners w e) w.

Definition removeEventListener (evt : IManifestEvent) (k : nat) (w : World) : World :=
  set_manifestListeners
    (fun e => if manifestEventEqb e evt
              then List.filter (fun c => negb (Nat.eqb c k)) (manifestListeners w e)
              else manifestListeners w e) w.

(** The body of the [removeListeners] closure (lines 231-234) and the removal
    of a subscription whose [clearSignal] fires. *)
Definition runCleanup (c : Cleanup) (w : World) : World :=
  match c with
  | removeListeners k =>
      removeEventListener manifestUpdate k
        (removeEventListener decipherabilityUpdate k w)
  | clearSubscription l k =>
      set_lockedRefs (update (lockedRefs w) l (unlisten k (lockedRefs w l))) w
  end.

(** [this._canceller.cancel()]: every registered clean-up runs once, in
    registration order, and the registry is emptied. *)
Definition cancel (w : World) : World :=
  if isCancelled (_canceller w) then w
  else fold_left (fun w' c => runCleanup c w') (registered (_canceller w))
         (set_canceller {| isCancelled := true; registered := [] |} w).

(** [this._canceller.signal.register(fn)]: runs [fn] at once on a cancelled
    signal. *)
Definition register (c : Cleanup) (w : World) : World :=
  if isCancelled (_canceller w) then runCleanup c w
  else set_canceller {| isCancelled := false;
                        registered := registered (_canceller w) ++ [c] |} w.

(** [trackInfo.lockedRepresentations.onUpdate(updateReferenceIfNeeded,
    { clearSignal: this._canceller.signal, emitCurrentValue: false })] *)
Definition lockedRepresentations_onUpdate (l k : nat) (w : World) : World :=
  if isFinished (lockedRefs w l) then w
  else register (clearSubscription l k)
         (set_lockedRefs (update (lockedRefs w) l (onUpdate k (lockedRefs w l))) w).

(** ** Listeners of the dispatcher's own events

    What a listener does when called: nothing that concerns the dispatcher,
    or a synchronous call to one of its track-updating methods.  One
    reaction answers one event, so a script describes listeners that make at
    most one call per event; several calls in answer to one event are
    [triggerCalls] below. *)
Inductive Reaction :=
| doNothing
| callStart (initialTrackInfo : option ITrackSetting)
| callUpdateTrack (newTrackInfo : option ITrackSetting).

(** Result of a method: the new world and the reactions not yet consumed. *)
Definition Outcome : Type := World * list Reaction.

(** ** The class, with [self.trigger] left open *)
Section Methods.

Variable trigger : ITrackDispatcherEvent -> World -> Outcome.

(** Writes to the [reference] captured by closure [k]. *)
Definition reference_setValue (k : nat) (v : IRepresentationsChoice) (w : World) : World :=
  match closures w !! k with
  | None => w
  | Some c =>
      set_closures
        (<[k := {| trackInfo := trackInfo c;
                   reference := setValue v (reference c) |}]> (closures w)) w
  end.

(** The loop of lines 223-228: does some position hold another id? *)
Fixpoint someIdDiffers (old sorted : list Representation) : bool :=
  match old, sorted with
  | o :: old', s :: sorted' =>
      if String.eqb (id o) (id s) then someIdDiffers old' sorted' else true
  | _, _ => false
  end.

(** Lines 209-228 of [updateReferenceIfNeeded], once [playableRepresentations]
    and [switchingMode] are known. *)
Definition publishIfChanged (script : list Reaction) (k : nat) (c : Closure)
    (playableRepresentations : list Representation) (mode : string)
    (w : World) : Outcome :=
  if length playableRepresentations <=? 0 then
    let w := set_isSupported (adaptation (trackInfo c)) false w in
    trigger noPlayableRepresentation w
  else
    let oldRef := getValue (reference c) in
    let sortedReps := sort compareBitrate playableRepresentations in
    if negb (length sortedReps =? length (representations oldRef)) then
      (reference_setValue k {| representations := sortedReps;
                               representationsSwitchingMode := mode |} w, script)
    else if someIdDiffers (representations oldRef) sortedReps then
      (reference_setValue k {| representations := sortedReps;
                               representationsSwitchingMode := mode |} w, script)
    else (w, script).

(** [updateReferenceIfNeeded] (lines 186-229) of the closure at index [k]. *)
Definition updateReferenceIfNeeded_with (script : list Reaction) (k : nat)
    (w : World) : Outcome :=
  match closures w !! k with
  | None => (w, script)
  | Some c =>
      let repSettings := getValue (lockedRefs w (lockedRepresentations (trackInfo c))) in
      match repSettings with
      | None =>
          publishIfChanged script k c
            (getPlayableRepresentations w (adaptation (trackInfo c))) "lazy" w
      | Some settings =>
          let playableRepresentations :=
            List.filter (isPlayable w) (representations settings) in
          if length playableRepresentations =? 0 then
            trigger noPlayableLockedRepresentation w
          else
            publishIfChanged script k c playableRepresentations
              (representationsSwitchingMode settings) w
      end
  end.

(** [_constructLockedRepresentationsReference] (lines 162-184); returns the
    index of the new closure, which names the reference it returns. *)
Definition constructLockedRepresentationsReference_with (script : list Reaction)
    (info : ITrackSetting) (w : World) : nat * Outcome :=
  let k := length (closures w) in
  let w := set_closures
             (closures w ++
                [{| trackInfo := info;
                    reference := newSharedReference
                      {| representations := [];
                         representationsSwitchingMode := "lazy" |} |}]) w in
  let w := addEventListener decipherabilityUpdate k w in
  let w := addEventListener manifestUpdate k w in
  let w := register (removeListeners k) w in
  let w := lockedRepresentations_onUpdate (lockedRepresentations info) k w in
  (k, updateReferenceIfNeeded_with script k w).

Definition adaptationRef_setValue (v : Nullable IAdaptationChoice) (w : World) : World :=
  set_adaptationRef (setValue v (_adaptationRef w)) w.

(** [start] (lines 98-119) *)
Definition start_with (script : list Reaction)
    (initialTrackInfo : option ITrackSetting) (w : World) : Outcome :=
  let w := set_updateToken true w in
  match initialTrackInfo with
  | None =>
      let w := set_lastEmitted Null w in
      let w := set_updateToken false w in
      (adaptationRef_setValue Null w, script)
  | Some info =>
      let '(reference, (w, script)) :=
        constructLockedRepresentationsReference_with script info w in
      if negb (_updateToken w) then (w, script)
      else
        let w := set_lastEmitted
                   (Value {| lastAdaptation := adaptation info;
                             lastSwitchingMode := switchingMode info;
                             lastLockedRepresentations := None |}) w in
        let w := set_updateToken false w in
        (adaptationRef_setValue
           (Value {| choiceAdaptation := adaptation info;
                     choiceSwitchingMode := switchingMode info;
                     choiceRepresentations := reference;
                     choiceRelativeResumingPosition := None |}) w, script)
  end.

(** [updateTrack] (lines 125-153) *)
Definition updateTrack_with (script : list Reaction)
    (newTrackInfo : option ITrackSetting) (w : World) : Outcome :=
  let w := set_updateToken true w in
  match newTrackInfo with
  | None =>
      match _lastEmitted w with
      | Null => (w, script)
      | _ =>
          let w := set_updateToken false w in
          let w := cancel w in
          let w := set_canceller newTaskCanceller w in
          let w := set_lastEmitted Null w in
          (adaptationRef_setValue Null w, script)
      end
  | Some info =>
      let w := cancel w in
      let w := set_canceller newTaskCanceller w in
      let '(reference, (w, script)) :=
        constructLockedRepresentationsReference_with script info w in
      if negb (_updateToken w) then (w, script)
      else
        let w := set_lastEmitted
                   (Value {| lastAdaptation := adaptation info;
                             lastSwitchingMode := switchingMode info;
                             lastLockedRepresentations := None |}) w in
        let w := set_updateToken false w in
        (adaptationRef_setValue
           (Value {| choiceAdaptation := adaptation info;
                     choiceSwitchingMode := switchingMode info;
                     choiceRepresentations := reference;
                     choiceRelativeResumingPosition :=
                       relativeResumingPosition info |}) w, script)
  end.

End Methods.

(** [self.trigger(evt, null)]: the event is recorded; if listeners are
    attached they run, which consumes the next reaction of the script.  A
    reaction that calls back into the dispatcher runs that method to its end
    before [trigger] returns. *)
Fixpoint trigger (script : list Reaction) (evt : ITrackDispatcherEvent)
    (w : World) : Outcome :=
  let w := set_triggered (triggered w ++ [evt]) w in
  if negb (hasListeners w) then (w, script)
  else
    match script with
    | [] => (w, [])
    | doNothing :: rest => (w, rest)
    | callStart initialTrackInfo :: rest =>
        start_with (trigger rest) rest initialTrackInfo w
    | callUpdateTrack newTrackInfo :: rest =>
        updateTrack_with (trigger rest) rest newTrackInfo w
    end.

Definition updateReferenceIfNeeded (script : list Reaction) (k : nat) (w : World) : Outcome :=
  updateReferenceIfNeeded_with (trigger script) script k w.

Definition constructLockedRepresentationsReference (script : list Reaction)
    (info : ITrackSetting) (w : World) : nat * Outcome :=
  constructLockedRepresentationsReference_with (trigger script) script info w.

Definition start (script : list Reaction) (initialTrackInfo : option ITrackSetting)
    (w : World) : Outcome :=
  start_with (trigger script) script initialTrackInfo w.

Definition updateTrack (script : list Reaction) (newTrackInfo : option ITrackSetting)
    (w : World) : Outcome :=
  updateTrack_with (trigger script) script newTrackInfo w.

(** [dispose] (lines 241-245); [this.removeEventListener()] without argument
    detaches every listener of the dispatcher's own events. *)
Definition dispose (w : World) : World :=
  let w := set_hasListeners false w in
  let w := cancel w in
  set_adaptationRef (finish (_adaptationRef w)) w.

(** The constructor (lines 84-93), for a manifest and the objects around
    it; no listener is attached to the new dispatcher's events yet. *)
Definition newTrackDispatcher (playable : Representation -> bool)
    (adapts : nat -> Adaptation)
    (locks : nat -> SharedReference (option IRepresentationsChoice))
    (adaptationRef : SharedReference (Nullable IAdaptationChoice)) : World :=
  {| isPlayable := playable; adaptations := adapts; lockedRefs := locks;
     manifestListeners := fun _ => [];
     _adaptationRef := adaptationRef; _lastEmitted := Undefined;
     _canceller := newTaskCanceller; _updateToken := false;
     hasListeners := false; closures := []; triggered := [] |}.

(** ** What happens around the dispatcher *)

(** Modelled from the spec: [EventEmitter.trigger] on the Manifest calls the
    listeners registered for the event when it is triggered, in order. *)
Definition callListeners (ks : list nat) (o : Outcome) : Outcome :=
  fold_left (fun o' k => updateReferenceIfNeeded (snd o') k (fst o')) ks o.

Definition manifest_trigger (script : list Reaction) (evt : IManifestEvent)
    (w : World) : Outcome :=
  callListeners (manifestListeners w evt) (w, script).

(** Modelled from the spec: [setValue] on a locked-Representations reference
    stores the value and then calls, in subscription order, every callback
    that is still subscribed when its turn comes. *)
Definition callSubscribers (l : nat) (ks : list nat) (o : Outcome) : Outcome :=
  fold_left
    (fun o' k =>
       if existsb (Nat.eqb k) (cbs (lockedRefs (fst o') l))
       then updateReferenceIfNeeded (snd o') k (fst o')
       else o') ks o.

Definition lockedRepresentations_setValue (script : list Reaction) (l : nat)
    (v : option IRepresentationsChoice) (w : World) : Outcome :=
  if isFinished (lockedRefs w l) then (w, script)
  else
    let w := set_lockedRefs (update (lockedRefs w) l (setValue v (lockedRefs w l))) w in
    callSubscribers l (cbs (lockedRefs w l)) (w, script).

(** One thing done to the dispatcher or to the objects it shares. *)
Inductive Op :=
| opStart (initialTrackInfo : option ITrackSetting)
| opUpdateTrack (newTrackInfo : option ITrackSetting)
| opDispose
| opAddEventListener
| opManifestEvent (evt : IManifestEvent)
| opSetLocked (l : nat) (v : option IRepresentationsChoice)
| opSetPlayable (playable : Representation -> bool)
| opSetRepresentations (a : nat) (reps : list Representation).

Definition step (op : Op) (o : Outcome) : Outcome :=
  let '(w, script) := o in
  match op with
  | opStart initialTrackInfo => start script initialTrackInfo w
  | opUpdateTrack newTrackInfo => updateTrack script newTrackInfo w
  | opDispose => (dispose w, script)
  | opAddEventListener => (set_hasListeners true w, script)
  | opManifestEvent evt => manifest_trigger script evt w
  | opSetLocked l v => lockedRepresentations_setValue script l v w
  | opSetPlayable playable => (set_isPlayable playable w, script)
  | opSetRepresentations a reps =>
      (set_adaptations
         (update (adaptations w) a
            {| adaptationRepresentations := reps;
               isSupported := isSupported (adaptations w a) |}) w, script)
  end.

Definition run (ops : list Op) (o : Outcome) : Outcome :=
  fold_left (fun o' op => step op o') ops o.

(** ** Sample objects *)
Module Sample.

Definition R1 : Representation := {| id := "r1"; bitrate := 1 |}.
Definition R3 : Representation := {| id := "r3"; bitrate := 3 |}.
Definition R5 : Representation := {| id := "r5"; bitrate := 5 |}.

(** Adaptation 0 holds [R5; R1; R3], adaptation 1 holds [R1] only, every
    other one is empty. *)
Definition adapts (a : nat) : Adaptation :=
  match a with
  | 0 => {| adaptationRepresentations := [R5; R1; R3]; isSupported := true |}
  | 1 => {| adaptationRepresentations := [R1]; isSupported := true |}
  | _ => {| adaptationRepresentations := []; isSupported := true |}
  end.

Definition unlocked (_ : nat) : SharedReference (option IRepresentationsChoice) :=
  newSharedReference None.

Definition allPlayable (_ : Representation) : bool := true.
Definition nonePlayable (_ : Representation) : bool := false.
Definition onlyR1 (r : Representation) : bool := String.eqb (id r) "r1".

Definition setting (a l : nat) : ITrackSetting :=
  {| adaptation := a; switchingMode := "seamless";
     relativeResumingPosition := None; lockedRepresentations := l |}.

(** A new dispatcher to whose events listeners have been attached. *)
Definition fresh : World :=
  set_hasListeners true
    (newTrackDispatcher allPlayable adapts unlocked (newSharedReference Undefined)).

(** Reference 0 holds no lock, every other one locks [R1] in "direct" mode. *)
Definition lockR1 : IRepresentationsChoice :=
  {| representations := [R1]; representationsSwitchingMode := "direct" |}.

Definition lockedButFirst (l : nat) : SharedReference (option IRepresentationsChoice) :=
  match l with
  | 0 => newSharedReference None
  | _ => newSharedReference (Some lockR1)
  end.

Definition freshLocked : World :=
  set_hasListeners true
    (newTrackDispatcher allPlayable adapts lockedButFirst (newSharedReference Undefined)).

End Sample.

(** ** Notions used to state the properties *)

(** The candidate Representations and the switching mode that
    [updateReferenceIfNeeded] computes for a track setting (lines 187-208). *)
Definition candidates (w : World) (info : ITrackSetting)
    : list Representation * string :=
  match getValue (lockedRefs w (lockedRepresentations info)) with
  | None => (getPlayableRepresentations w (adaptation info), "lazy"%string)
  | Some settings =>
      (List.filter (isPlayable w) (representations settings),
       representationsSwitchingMode settings)
  end.

Definition isLocked (w : World) (info : ITrackSetting) : bool :=
  match getValue (lockedRefs w (lockedRepresentations info)) with
  | None => false
  | Some _ => true
  end.

Definition ascendingBitrate (l : list Representation) : Prop :=
  StronglySorted (fun ra rb => (bitrate ra <= bitrate rb)%Z) l.

Definition withBitrate (b : Z) (l : list Representation) : list Representation :=
  List.filter (fun r => (bitrate r =? b)%Z) l.

(** The test of lines 219-228: is the sorted list another one, by length or
    by the id at some position, than the one the reference holds? *)
Definition changed (oldRef : IRepresentationsChoice)
    (sortedReps : list Representation) : bool :=
  negb (length sortedReps =? length (representations oldRef))
  || someIdDiffers (representations oldRef) sortedReps.

(** The value a recompute that has candidates offers to the reference. *)
Definition sortedChoice (w : World) (info : ITrackSetting) : IRepresentationsChoice :=
  {| representations := sort compareBitrate (fst (candidates w info));
     representationsSwitchingMode := snd (candidates w info) |}.

(** A call to a track-updating method. *)
Inductive Call :=
| cStart (initialTrackInfo : option ITrackSetting)
| cUpdateTrack (newTrackInfo : option ITrackSetting).

Definition enter (script : list Reaction) (c : Call) (w : World) : Outcome :=
  match c with
  | cStart initialTrackInfo => start script initialTrackInfo w
  | cUpdateTrack newTrackInfo => updateTrack script newTrackInfo w
  end.

Definition callSetting (c : Call) : option ITrackSetting :=
  match c with
  | cStart p => p
  | cUpdateTrack p => p
  end.

(** Listeners that answer an event with several calls in a row: one
    listener that makes several calls, or several listeners of the event
    that make one each.  The events these calls trigger in turn are answered
    by no call. *)
Definition triggerCalls (calls : list Call) (evt : ITrackDispatcherEvent)
    (w : World) : Outcome :=
  let w := set_triggered (triggered w ++ [evt]) w in
  if negb (hasListeners w) then (w, [])
  else (fold_left (fun w' c => fst (enter [] c w')) calls w, []).

(** What call [c] sends through [_adaptationRef] when it commits, [k] being
    the sub-reference it built, and what it stores in [_lastEmitted]. *)
Definition published (c : Call) (k : nat) : Nullable IAdaptationChoice :=
  match c with
  | cStart None | cUpdateTrack None => Null
  | cStart (Some info) =>
      Value {| choiceAdaptation := adaptation info;
               choiceSwitchingMode := switchingMode info;
               choiceRepresentations := k;
               choiceRelativeResumingPosition := None |}
  | cUpdateTrack (Some info) =>
      Value {| choiceAdaptation := adaptation info;
               choiceSwitchingMode := switchingMode info;
               choiceRepresentations := k;
               choiceRelativeResumingPosition := relativeResumingPosition info |}
  end.

Definition snapshot (c : Call) : Nullable ILastEmitted :=
  match callSetting c with
  | None => Null
  | Some info =>
      Value {| lastAdaptation := adaptation info;
               lastSwitchingMode := switchingMode info;
               lastLockedRepresentations := None |}
  end.

(** The call that commits when [c] is entered, given the call (if any) that
    commits inside the listeners run during [c]'s sub-reference construction:
    a call with a track setting gives way to a nested commit; [updateTrack(null)]
    after a [null] commits nothing. *)
Definition committerOf (w : World) (nested : option Call) (c : Call) : option Call :=
  match c with
  | cStart None => Some c
  | cUpdateTrack None =>
      match _lastEmitted w with
      | Null => None
      | _ => Some c
      end
  | cStart (Some info) | cUpdateTrack (Some info) =>
      match fst (candidates w info), nested with
      | [], Some c' => Some c'
      | _, _ => Some c
      end
  end.

(** The call that commits, if any, when the dispatcher's listeners are run
    with [script]. *)
Fixpoint reactionCommitter (w : World) (script : list Reaction) : option Call :=
  if negb (hasListeners w) then None
  else
    match script with
    | [] => None
    | doNothing :: _ => None
    | callStart p :: rest => committerOf w (reactionCommitter w rest) (cStart p)
    | callUpdateTrack p :: rest =>
        committerOf w (reactionCommitter w rest) (cUpdateTrack p)
    end.

Definition committer (w : World) (script : list Reaction) (c : Call) : option Call :=
  committerOf w (reactionCommitter w script) c.

(** The elementary writes of the class. *)
Inductive mutation : World -> World -> Prop :=
| mut_updateToken b w : mutation w (set_updateToken b w)
| mut_lastEmitted e w : mutation w (set_lastEmitted e w)
| mut_canceller c w : mutation w (set_canceller c w)
| mut_manifestListeners f w : mutation w (set_manifestListeners f w)
| mut_subscribe l k w :
    mutation w (set_lockedRefs (update (lockedRefs w) l (onUpdate k (lockedRefs w l))) w)
| mut_unlisten l k w :
    mutation w (set_lockedRefs (update (lockedRefs w) l (unlisten k (lockedRefs w l))) w)
| mut_allocate info w :
    mutation w
      (set_closures
         (closures w ++
            [{| trackInfo := info;
                reference := newSharedReference
                  {| representations := [];
                     representationsSwitchingMode := "lazy" |} |}]) w)
| mut_publish k cands mode w :
    cands <> [] ->
    mutation w
      (reference_setValue k
         {| representations := sort compareBitrate cands;
            representationsSwitchingMode := mode |} w)
| mut_emit v w : mutation w (adaptationRef_setValue v w)
| mut_isSupported a w : mutation w (set_isSupported a false w)
| mut_triggered evt w : mutation w (set_triggered (triggered w ++ [evt]) w).

(** What the rest of the player does to the shared objects, and [dispose]. *)
Inductive disturbance : World -> World -> Prop :=
| dis_isPlayable f w : disturbance w (set_isPlayable f w)
| dis_adaptations f w : disturbance w (set_adaptations f w)
| dis_locked l v w :
    disturbance w (set_lockedRefs (update (lockedRefs w) l (setValue v (lockedRefs w l))) w)
| dis_hasListeners b w : disturbance w (set_hasListeners b w)
| dis_finish w : disturbance w (set_adaptationRef (finish (_adaptationRef w)) w).

Definition internal : World -> World -> Prop := rtc mutation.

Definition evolution : World -> World -> Prop :=
  rtc (fun w w' => mutation w w' \/ disturbance w w').

(** Nothing but the registries (manifest listeners, subscriptions to the
    locked-Representations references, the canceller) differs. *)
Record quiet (w w' : World) : Prop := {
  quiet_isPlayable : isPlayable w' = isPlayable w;
  quiet_adaptations : adaptations w' = adaptations w;
  quiet_locked : forall l, value (lockedRefs w' l) = value (lockedRefs w l);
  quiet_adaptationRef : _adaptationRef w' = _adaptationRef w;
  quiet_lastEmitted : _lastEmitted w' = _lastEmitted w;
  quiet_updateToken : _updateToken w' = _updateToken w;
  quiet_hasListeners : hasListeners w' = hasListeners w;
  quiet_closures : closures w' = closures w;
  quiet_triggered : triggered w' = triggered w;
}.

(** The shared objects read by a recompute are the same in both worlds. *)
Record sameSurroundings (w w' : World) : Prop := {
  same_isPlayable : isPlayable w' = isPlayable w;
  same_representations :
    forall a, adaptationRepresentations (adaptations w' a)
              = adaptationRepresentations (adaptations w a);
  same_locked : forall l, value (lockedRefs w' l) = value (lockedRefs w l);
  same_hasListeners : hasListeners w' = hasListeners w;
}.

(** Call [c] has committed between [w] and [w']: it is the last to have
    written [_lastEmitted] and [_adaptationRef], for a sub-reference [k]
    built since [w], and it has reset the token. *)
Definition commits (w w' : World) (c : Call) : Prop :=
  _updateToken w' = false /\
  _lastEmitted w' = snapshot c /\
  exists k,
    _adaptationRef w' = setValue (published c k) (_adaptationRef w) /\
    match callSetting c with
    | Some info =>
        length (closures w) <= k /\
        exists cl, closures w' !! k = Some cl /\ trackInfo cl = info
    | None => True
    end.

(** Nothing has been committed between [w] and [w'], and a token that was
    set still is. *)
Definition abstains (w w' : World) : Prop :=
  _adaptationRef w' = _adaptationRef w /\
  _lastEmitted w' = _lastEmitted w /\
  (_updateToken w = true -> _updateToken w' = true).

Definition outcomeOf (w w' : World) (c : option Call) : Prop :=
  match c with
  | Some c' => commits w w' c'
  | None => abstains w w'
  end.

(** A value a recompute may write: Representations in ascending order of
    bitrate, at least one. *)
Definition wellFormedChoice (v : IRepresentationsChoice) : Prop :=
  representations v <> [] /\ ascendingBitrate (representations v).

Definition wellFormedHistories (w : World) : Prop :=
  forall k c, closures w !! k = Some c ->
    Forall wellFormedChoice (history (reference c)).

(** The world in which the first [updateReferenceIfNeeded()] of a call with a
    track setting runs (line 182): the token is set, [updateTrack] has
    replaced the canceller, the closure is allocated and registered. *)
Definition entered (c : Call) (w : World) : World :=
  let w := set_updateToken true w in
  match c with
  | cStart _ => w
  | cUpdateTrack _ => set_canceller newTaskCanceller (cancel w)
  end.

Definition prepared (c : Call) (info : ITrackSetting) (w : World) : World :=
  let w := entered c w in
  let k := length (closures w) in
  let w := set_closures
             (closures w ++
                [{| trackInfo := info;
                    reference := newSharedReference
                      {| representations := [];
                         representationsSwitchingMode := "lazy" |} |}]) w in
  let w := addEventListener decipherabilityUpdate k w in
  let w := addEventListener manifestUpdate k w in
  let w := register (removeListeners k) w in
  lockedRepresentations_onUpdate (lockedRepresentations info) k w.

(** The end of [start] and [updateTrack] (lines 107-118 and 144-152). *)
Definition concluded (c : Call) (k : nat) (o : Outcome) : Outcome :=
  if negb (_updateToken (fst o)) then o
  else
    (adaptationRef_setValue (published c k)
       (set_updateToken false (set_lastEmitted (snapshot c) (fst o))), snd o).

(** The closures of [w] are still there, as they were, in [w']. *)
Definition keepsClosures (w w' : World) : Prop :=
  forall j c, closures w !! j = Some c -> closures w' !! j = Some c.

(** What is to be shown of [trigger] for a given script. *)
Definition triggerSpec (script : list Reaction) : Prop :=
  forall evt w,
    internal w (fst (trigger script evt w)) /\
    keepsClosures w (fst (trigger script evt w)) /\
    (exists more, triggered (fst (trigger script evt w)) = triggered w ++ evt :: more) /\
    outcomeOf w (fst (trigger script evt w)) (reactionCommitter w script).

Definition enterSpec (script : list Reaction) : Prop :=
  forall c w,
    internal w (fst (enter script c w)) /\
    keepsClosures w (fst (enter script c w)) /\
    outcomeOf w (fst (enter script c w)) (committer w script c).

(** The sorted candidates are another list than the one held: another
    length, or another id at some position. *)
Definition differs (old sorted : list Representation) : Prop :=
  length sorted <> length old \/
  exists i ro rs, old !! i = Some ro /\ sorted !! i = Some rs /\ id ro <> id rs.

(** The event a recompute without candidates triggers, and the world in
    which it triggers it. *)
Definition emptyEvent (w : World) (info : ITrackSetting) : ITrackDispatcherEvent :=
  if isLocked w info then noPlayableLockedRepresentation
  else noPlayableRepresentation.

Definition emptyWorld (w : World) (info : ITrackSetting) : World :=
  if isLocked w info then w
  else set_isSupported (adaptation info) false w.

(** A finished [_adaptationRef] keeps its value, and nothing is added to
    what it has received. *)
Definition sealed (r r' : SharedReference (Nullable IAdaptationChoice)) : Prop :=
  isFinished r' = true /\ value r' = value r /\ history r' = history r.

(** The reaction of a listener that makes call [c]. *)
Definition reactionOf (c : Call) : Reaction :=
  match c with
  | cStart p => callStart p
  | cUpdateTrack p => callUpdateTrack p
  end.

(** The value held after a recompute for [info] by a reference that held [v]
    and is not finished. *)
Definition recomputed (w : World) (info : ITrackSetting)
    (v : IRepresentationsChoice) : IRepresentationsChoice :=
  match fst (candidates w info) with
  | [] => v
  | _ :: _ =>
      if changed v (sort compareBitrate (fst (candidates w info)))
      then sortedChoice w info
      else v
  end.

(** The choice of an unlocked recompute: every playable Representation of
    the Adaptation, sorted, in "lazy" mode. *)
Definition unlockedChoice (w : World) (a : nat) : IRepresentationsChoice :=
  {| representations := sort compareBitrate (getPlayableRepresentations w a);
     representationsSwitchingMode := "lazy" |}.

(** Lines 168-181 of [_constructLockedRepresentationsReference]: the new
    closure is allocated and registered, before its first recompute. *)
Definition allocated (info : ITrackSetting) (w : World) : World :=
  let k := length (closures w) in
  let w := set_closures
             (closures w ++
                [{| trackInfo := info;
                    reference := newSharedReference
                      {| representations := [];
                         representationsSwitchingMode := "lazy" |} |}]) w in
  let w := addEventListener decipherabilityUpdate k w in
  let w := addEventListener manifestUpdate k w in
  let w := register (removeListeners k) w in
  lockedRepresentations_onUpdate (lockedRepresentations info) k w.

(** Lines 132-135 and 141-142 of [updateTrack]: the canceller is cancelled
    and replaced. *)
Definition replaced (w : World) : World :=
  set_canceller newTaskCanceller (cancel w).

(** The writes with which call [c] commits for sub-reference [k]. *)
Definition committed (c : Call) (k : nat) (w : World) : World :=
  adaptationRef_setValue (published c k)
    (set_updateToken false (set_lastEmitted (snapshot c) w)).

(** Every listener of the Manifest's events and every subscription to a
    locked-Representations reference has its removal registered on the
    current canceller, which is not cancelled. *)
Definition registryConsistent (w : World) : Prop :=
  (forall evt k, In k (manifestListeners w evt) ->
     isCancelled (_canceller w) = false /\
     In (removeListeners k) (registered (_canceller w))) /\
  (forall l k, In k (cbs (lockedRefs w l)) ->
     isCancelled (_canceller w) = false /\
     In (clearSubscription l k) (registered (_canceller w))).

(** No closure allocated before the [n]-th listens to the Manifest or is
    subscribed to a locked-Representations reference. *)
Definition detachedBelow (n : nat) (w : World) : Prop :=
  n <= length (closures w) /\
  (forall evt k, In k (manifestListeners w evt) -> n <= k) /\
  (forall l k, In k (cbs (lockedRefs w l)) -> n <= k).

(** [_lastEmitted] describes the value held by [_adaptationRef], as long as
    the latter is not finished. *)
Definition snapshotAgrees (w : World) : Prop :=
  isFinished (_adaptationRef w) = false ->
  match _lastEmitted w with
  | Undefined => True
  | Null => getValue (_adaptationRef w) = Null
  | Value s =>
      lastLockedRepresentations s = None /\
      exists c,
        getValue (_adaptationRef w) = Value c /\
        choiceAdaptation c = lastAdaptation s /\
        choiceSwitchingMode c = lastSwitchingMode s
  end.

(** Every choice received by [_adaptationRef] names a closure that exists
    and was built for the Adaptation and switching mode of the choice. *)
Definition choiceBacked (w : World) (v : Nullable IAdaptationChoice) : Prop :=
  match v with
  | Value c =>
      exists cl,
        closures w !! choiceRepresentations c = Some cl /\
        adaptation (trackInfo cl) = choiceAdaptation c /\
        switchingMode (trackInfo cl) = choiceSwitchingMode c
  | _ => True
  end.

Definition choicesBacked (w : World) : Prop :=
  Forall (choiceBacked w) (history (_adaptationRef w)).

(** No sub-reference is finished. *)
Definition referencesLive (w : World) : Prop :=
  forall k c, closures w !! k = Some c -> isFinished (reference c) = false.

(** The closures of [w] are still there in [w'], with their track setting,
    and their references have kept what they had received. *)
Definition closuresExtended (w w' : World) : Prop :=
  forall k c, closures w !! k = Some c ->
    exists c', closures w' !! k = Some c' /\
               trackInfo c' = trackInfo c /\
               history (reference c) `prefix_of` history (reference c').

(** What the rest of the player does without calling the dispatcher: Manifest
    events, updates of a lock, changes of playability and of an Adaptation's
    Representations. *)
Definition fromAround (op : Op) : bool :=
  match op with
  | opManifestEvent _ | opSetLocked _ _ | opSetPlayable _
  | opSetRepresentations _ _ => true
  | _ => false
  end.

(** A sub-reference holds the last value it has received, or the value it
    was built with if it has received none, and has received no empty list
    of Representations. *)
Definition faithful (r : SharedReference IRepresentationsChoice) : Prop :=
  getValue r
  = List.last (history r)
      {| representations := []; representationsSwitchingMode := "lazy" |} /\
  Forall (fun v => representations v <> []) (history r).

Definition referencesFaithful (w : World) : Prop :=
  forall k c, closures w !! k = Some c -> faithful (reference c).

(** The dispatcher's own state and everything it has registered. *)
Definition sameDispatcher (w w' : World) : Prop :=
  _adaptationRef w' = _adaptationRef w /\
  _lastEmitted w' = _lastEmitted w /\
  _updateToken w' = _updateToken w /\
  _canceller w' = _canceller w /\
  manifestListeners w' = manifestListeners w /\
  hasListeners w' = hasListeners w /\
  length (closures w') = length (closures w) /\
  forall l, cbs (lockedRefs w' l) = cbs (lockedRefs w l).

(** ** Properties *)

Section SortFacts.

Lemma sortInsert_length (a : Representation) l :
  length (sortInsert compareBitrate a l) = S (length l).
Proof.
  induction l as [|b l IH]; simpl; [reflexivity|].
  destruct (compareBitrate a b <=? 0)%Z; simpl; congruence.
Qed.

Lemma sort_length (l : list Representation) :
  length (sort compareBitrate l) = length l.
Proof.
  induction l as [|a l IH]; simpl; [reflexivity|].
  rewrite sortInsert_length. congruence.
Qed.

Lemma sortInsert_perm (a : Representation) l :
  Permutation (a :: l) (sortInsert compareBitrate a l).
Proof.
  induction l as [|b l IH]; simpl; [reflexivity|].
  destruct (compareBitrate a b <=? 0)%Z; [reflexivity|].
  rewrite perm_swap. now apply perm_skip.
Qed.

Lemma sort_perm (l : list Representation) :
  Permutation l (sort compareBitrate l).
Proof.
  induction l as [|a l IH]; simpl; [reflexivity|].
  rewrite <- sortInsert_perm. now apply perm_skip.
Qed.

Lemma sortInsert_sorted (a : Representation) l :
  ascendingBitrate l -> ascendingBitrate (sortInsert compareBitrate a l).
Proof.
  unfold ascendingBitrate.
  induction 1 as [|b l Hl IH Hb]; simpl.
  - repeat constructor.
  - unfold compareBitrate at 1.
    destruct (Z.leb_spec (bitrate a - bitrate b) 0) as [Hle|Hgt].
    + constructor; [now constructor|].
      constructor; [lia|].
      rewrite List.Forall_forall in Hb |- *. intros x Hx.
      specialize (Hb x Hx). simpl in Hb. lia.
    + constructor; [exact IH|].
      rewrite List.Forall_forall in Hb |- *. intros x Hx.
      apply (Permutation_in _ (Permutation_sym (sortInsert_perm a l))) in Hx.
      destruct Hx as [<-|Hx]; [lia|now apply Hb].
Qed.

Lemma sort_sorted (l : list Representation) :
  ascendingBitrate (sort compareBitrate l).
Proof.
  induction l as [|a l IH]; simpl.
  - constructor.
  - now apply sortInsert_sorted.
Qed.

Lemma sortInsert_withBitrate (b : Z) (a : Representation) l :
  withBitrate b (sortInsert compareBitrate a l) = withBitrate b (a :: l).
Proof.
  unfold withBitrate.
  induction l as [|x l IH]; simpl; [reflexivity|].
  unfold compareBitrate at 1.
  destruct (Z.leb_spec (bitrate a - bitrate x) 0) as [Hle|Hgt]; [reflexivity|].
  simpl. rewrite IH. simpl.
  destruct (Z.eqb_spec (bitrate a) b) as [Ha|Ha];
    destruct (Z.eqb_spec (bitrate x) b) as [Hx|Hx]; try reflexivity.
  lia.
Qed.

(** The sort is stable: Representations of equal bitrate keep their order. *)
Lemma sort_stable (b : Z) (l : list Representation) :
  withBitrate b (sort compareBitrate l) = withBitrate b l.
Proof.
  induction l as [|a l IH]; simpl; [reflexivity|].
  rewrite sortInsert_withBitrate.
  unfold withBitrate in *. simpl. now rewrite IH.
Qed.

Lemma sort_nil_inv (l : list Representation) :
  sort compareBitrate l = [] -> l = [].
Proof.
  intros H. apply (f_equal (@length _)) in H. rewrite sort_length in H.
  now destruct l.
Qed.

End SortFacts.

(** *** The registries do not matter to a recompute *)

Lemma quiet_refl w : quiet w w.
Proof. now constructor. Qed.

Lemma quiet_trans w1 w2 w3 : quiet w1 w2 -> quiet w2 w3 -> quiet w1 w3.
Proof.
  intros [] []. constructor; intros; congruence.
Qed.

Lemma update_value {T} (f : nat -> SharedReference T) l r l' :
  value r = value (f l) -> value (update f l r l') = value (f l').
Proof.
  intros H. unfold update. destruct (Nat.eqb_spec l' l); congruence.
Qed.

Lemma quiet_set_canceller c w : quiet w (set_canceller c w).
Proof. now constructor. Qed.

Lemma quiet_addEventListener evt k w : quiet w (addEventListener evt k w).
Proof. now constructor. Qed.

Lemma quiet_removeEventListener evt k w : quiet w (removeEventListener evt k w).
Proof. now constructor. Qed.

Lemma quiet_runCleanup c w : quiet w (runCleanup c w).
Proof.
  destruct c as [k|l k]; simpl.
  - eapply quiet_trans; apply quiet_removeEventListener.
  - constructor; simpl; try reflexivity.
    intros l'. now apply update_value.
Qed.

Lemma quiet_cleanups cs w :
  quiet w (fold_left (fun w' c => runCleanup c w') cs w).
Proof.
  revert w. induction cs as [|c cs IH]; intros w; simpl.
  - apply quiet_refl.
  - eapply quiet_trans; [apply quiet_runCleanup | apply IH].
Qed.

Lemma quiet_cancel w : quiet w (cancel w).
Proof.
  unfold cancel. destruct (isCancelled (_canceller w)).
  - apply quiet_refl.
  - eapply quiet_trans; [apply quiet_set_canceller | apply quiet_cleanups].
Qed.

Lemma quiet_register c w : quiet w (register c w).
Proof.
  unfold register. destruct (isCancelled (_canceller w)).
  - apply quiet_runCleanup.
  - apply quiet_set_canceller.
Qed.

Lemma quiet_onUpdate l k w : quiet w (lockedRepresentations_onUpdate l k w).
Proof.
  unfold lockedRepresentations_onUpdate.
  destruct (isFinished (lockedRefs w l)) eqn:Hfin; [apply quiet_refl|].
  eapply quiet_trans; [|apply quiet_register].
  constructor; simpl; try reflexivity.
  intros l'. apply update_value. unfold onUpdate. now rewrite Hfin.
Qed.

(** *** Every method is a sequence of elementary writes *)

Lemma internal_refl w : internal w w.
Proof. apply rtc_refl. Qed.

Lemma internal_trans w1 w2 w3 : internal w1 w2 -> internal w2 w3 -> internal w1 w3.
Proof. apply rtc_trans. Qed.

Lemma internal_once w w' : mutation w w' -> internal w w'.
Proof. apply rtc_once. Qed.

Lemma internal_runCleanup c w : internal w (runCleanup c w).
Proof.
  destruct c as [k|l k]; simpl.
  - eapply internal_trans; apply internal_once; apply mut_manifestListeners.
  - apply internal_once, mut_unlisten.
Qed.

Lemma internal_cleanups cs w :
  internal w (fold_left (fun w' c => runCleanup c w') cs w).
Proof.
  revert w. induction cs as [|c cs IH]; intros w; simpl.
  - apply internal_refl.
  - eapply internal_trans; [apply internal_runCleanup | apply IH].
Qed.

Lemma internal_cancel w : internal w (cancel w).
Proof.
  unfold cancel. destruct (isCancelled (_canceller w)).
  - apply internal_refl.
  - eapply internal_trans; [apply internal_once, mut_canceller|].
    apply internal_cleanups.
Qed.

Lemma internal_register c w : internal w (register c w).
Proof.
  unfold register. destruct (isCancelled (_canceller w)).
  - apply internal_runCleanup.
  - apply internal_once, mut_canceller.
Qed.

Lemma internal_onUpdate l k w : internal w (lockedRepresentations_onUpdate l k w).
Proof.
  unfold lockedRepresentations_onUpdate.
  destruct (isFinished (lockedRefs w l)); [apply internal_refl|].
  eapply internal_trans; [apply internal_once, mut_subscribe|].
  apply internal_register.
Qed.

(** *** [updateReferenceIfNeeded], case by case *)

(** The recompute of closure [k] either triggers one event and returns, or
    compares the sorted candidates with the value held and writes them if
    they are others. *)
Lemma recompute_eq trig script k w c :
  closures w !! k = Some c ->
  updateReferenceIfNeeded_with trig script k w =
    match fst (candidates w (trackInfo c)) with
    | [] =>
        if isLocked w (trackInfo c)
        then trig noPlayableLockedRepresentation w
        else trig noPlayableRepresentation
               (set_isSupported (adaptation (trackInfo c)) false w)
    | _ :: _ =>
        if changed (getValue (reference c))
             (sort compareBitrate (fst (candidates w (trackInfo c))))
        then (reference_setValue k (sortedChoice w (trackInfo c)) w, script)
        else (w, script)
    end.
Proof.
  intros Hk. unfold updateReferenceIfNeeded_with. rewrite Hk.
  unfold sortedChoice, candidates, isLocked.
  destruct (getValue (lockedRefs w (lockedRepresentations (trackInfo c))))
    as [settings|]; simpl.
  - destruct (List.filter (isPlayable w) (representations settings))
      as [|r l] eqn:Hf; simpl; [reflexivity|].
    unfold publishIfChanged, changed. simpl.
    destruct (negb _); simpl; [reflexivity|].
    now destruct (someIdDiffers _ _).
  - unfold publishIfChanged, changed.
    destruct (getPlayableRepresentations w (adaptation (trackInfo c)))
      as [|r l] eqn:Hf; simpl; [reflexivity|].
    destruct (negb _); simpl; [reflexivity|].
    now destruct (someIdDiffers _ _).
Qed.

(** *** What elementary writes leave alone *)

Lemma sameSurroundings_refl w : sameSurroundings w w.
Proof. now constructor. Qed.

Lemma sameSurroundings_trans w1 w2 w3 :
  sameSurroundings w1 w2 -> sameSurroundings w2 w3 -> sameSurroundings w1 w3.
Proof. intros [] []. constructor; intros; congruence. Qed.

Lemma mutation_surroundings w w' : mutation w w' -> sameSurroundings w w'.
Proof.
  destruct 1; try (now constructor).
  - constructor; simpl; try reflexivity.
    intros l'. apply update_value. unfold onUpdate.
    now destruct (isFinished (lockedRefs w l)).
  - constructor; simpl; try reflexivity.
    intros l'. now apply update_value.
  - unfold reference_setValue. destruct (closures w !! k); now constructor.
  - constructor; simpl; try reflexivity.
    intros a'. unfold update. destruct (Nat.eqb_spec a' a); subst; reflexivity.
Qed.

Lemma internal_surroundings w w' : internal w w' -> sameSurroundings w w'.
Proof.
  induction 1 as [|w1 w2 w3 Hm _ IH]; [apply sameSurroundings_refl|].
  eapply sameSurroundings_trans; [apply mutation_surroundings, Hm | exact IH].
Qed.

Lemma sameSurroundings_candidates w w' info :
  sameSurroundings w w' -> candidates w' info = candidates w info.
Proof.
  intros [Hp Ha Hl _].
  unfold candidates, getValue, getPlayableRepresentations.
  now rewrite Hp, Ha, Hl.
Qed.

Lemma sameSurroundings_isLocked w w' info :
  sameSurroundings w w' -> isLocked w' info = isLocked w info.
Proof. intros [_ _ Hl _]. unfold isLocked, getValue. now rewrite Hl. Qed.

Lemma mutation_triggered w w' :
  mutation w w' -> triggered w `prefix_of` triggered w'.
Proof.
  destruct 1; simpl; try reflexivity.
  - unfold reference_setValue. now destruct (closures w !! k).
  - now apply prefix_app_r.
Qed.

Lemma internal_triggered w w' :
  internal w w' -> triggered w `prefix_of` triggered w'.
Proof.
  induction 1 as [|w1 w2 w3 Hm _ IH]; [reflexivity|].
  etransitivity; [apply mutation_triggered, Hm | exact IH].
Qed.

Lemma committerOf_ext w w' nested c :
  sameSurroundings w w' -> _lastEmitted w' = _lastEmitted w ->
  committerOf w' nested c = committerOf w nested c.
Proof.
  intros Hs Hl. unfold committerOf.
  destruct c as [[info|]|[info|]]; try reflexivity.
  - now rewrite (sameSurroundings_candidates _ _ _ Hs).
  - now rewrite (sameSurroundings_candidates _ _ _ Hs).
  - now rewrite Hl.
Qed.

Lemma reactionCommitter_ext w w' script :
  sameSurroundings w w' -> _lastEmitted w' = _lastEmitted w ->
  reactionCommitter w' script = reactionCommitter w script.
Proof.
  intros Hs Hl. induction script as [|r rest IH]; cbn -[committerOf].
  - now rewrite (same_hasListeners _ _ Hs).
  - rewrite (same_hasListeners _ _ Hs).
    destruct (negb (hasListeners w)); [reflexivity|].
    destruct r; [reflexivity| |]; rewrite IH; now apply committerOf_ext.
Qed.

(** *** Calls with a track setting, step by step *)

Lemma enter_eq script c info w :
  callSetting c = Some info ->
  enter script c w =
    concluded c (length (closures (entered c w)))
      (updateReferenceIfNeeded_with (trigger script) script
         (length (closures (entered c w))) (prepared c info w)).
Proof.
  intros Hc. destruct c as [p|p]; simpl in Hc; subst p.
  - unfold enter, start, start_with, constructLockedRepresentationsReference_with,
      concluded, prepared, entered.
    cbn [closures set_updateToken].
    destruct (updateReferenceIfNeeded_with _ _ _ _) as [w2 s2]. reflexivity.
  - unfold enter, updateTrack, updateTrack_with,
      constructLockedRepresentationsReference_with, concluded, prepared, entered.
    destruct (updateReferenceIfNeeded_with _ _ _ _) as [w2 s2]. reflexivity.
Qed.

Lemma quiet_entered c w :
  quiet (set_updateToken true w) (entered c w).
Proof.
  unfold entered. destruct c.
  - apply quiet_refl.
  - eapply quiet_trans; [apply quiet_cancel | apply quiet_set_canceller].
Qed.

Lemma internal_entered c w : internal w (entered c w).
Proof.
  unfold entered.
  eapply internal_trans; [apply internal_once, (mut_updateToken true)|].
  destruct c; [apply internal_refl|].
  eapply internal_trans; [apply internal_cancel|].
  apply internal_once, mut_canceller.
Qed.

Lemma quiet_prepared c info w :
  quiet
    (set_closures
       (closures (entered c w) ++
          [{| trackInfo := info;
              reference := newSharedReference
                {| representations := [];
                   representationsSwitchingMode := "lazy" |} |}]) (entered c w))
    (prepared c info w).
Proof.
  unfold prepared.
  eapply quiet_trans; [|apply quiet_onUpdate].
  eapply quiet_trans; [|apply quiet_register].
  eapply quiet_trans; [|apply quiet_addEventListener].
  apply quiet_addEventListener.
Qed.

Lemma internal_prepared c info w : internal w (prepared c info w).
Proof.
  unfold prepared.
  eapply internal_trans; [apply internal_entered|].
  eapply internal_trans; [apply internal_once, (mut_allocate info)|].
  eapply internal_trans; [apply internal_once, mut_manifestListeners|].
  eapply internal_trans; [apply internal_once, mut_manifestListeners|].
  eapply internal_trans; [apply internal_register|].
  apply internal_onUpdate.
Qed.

(** The fields of the prepared world, in terms of the world of the call. *)
Lemma prepared_fields c info w :
  closures (prepared c info w) =
    closures w ++
      [{| trackInfo := info;
          reference := newSharedReference
            {| representations := [];
               representationsSwitchingMode := "lazy" |} |}] /\
  length (closures (entered c w)) = length (closures w) /\
  _updateToken (prepared c info w) = true /\
  _adaptationRef (prepared c info w) = _adaptationRef w /\
  _lastEmitted (prepared c info w) = _lastEmitted w /\
  triggered (prepared c info w) = triggered w.
Proof.
  pose proof (quiet_prepared c info w) as Hp.
  pose proof (quiet_entered c w) as He.
  destruct Hp as [_ _ _ Hp1 Hp2 Hp3 _ Hp4 Hp5].
  destruct He as [_ _ _ He1 He2 He3 _ He4 He5].
  cbn in *.
  rewrite Hp4, Hp3, Hp1, Hp2, Hp5, He4, He3, He1, He2, He5.
  repeat split.
Qed.

Lemma reference_setValue_closures k v w c :
  closures w !! k = Some c ->
  closures (reference_setValue k v w) =
    <[k := {| trackInfo := trackInfo c;
              reference := setValue v (reference c) |}]> (closures w).
Proof. intros Hk. unfold reference_setValue. now rewrite Hk. Qed.

Lemma reference_setValue_fields k v w :
  _adaptationRef (reference_setValue k v w) = _adaptationRef w /\
  _lastEmitted (reference_setValue k v w) = _lastEmitted w /\
  _updateToken (reference_setValue k v w) = _updateToken w /\
  triggered (reference_setValue k v w) = triggered w /\
  adaptations (reference_setValue k v w) = adaptations w.
Proof. unfold reference_setValue. now destruct (closures w !! k). Qed.

Ltac split4 := split; [|split; [|split]].

Section CallsGivenTrigger.

Variable script : list Reaction.
Hypothesis Htrigger : triggerSpec script.

(** The first recompute of a closure that has just been allocated. *)
Lemma recompute_fresh cls c0 w1 :
  closures w1 = cls ++ [c0] ->
  let w2 := fst (updateReferenceIfNeeded_with (trigger script) script (length cls) w1) in
  internal w1 w2 /\
  (forall j c, cls !! j = Some c -> closures w2 !! j = Some c) /\
  (exists cl, closures w2 !! length cls = Some cl /\ trackInfo cl = trackInfo c0) /\
  outcomeOf w1 w2
    (match fst (candidates w1 (trackInfo c0)) with
     | [] => reactionCommitter w1 script
     | _ :: _ => None
     end).
Proof.
  intros Hcls w2.
  assert (Hk : closures w1 !! length cls = Some c0).
  { rewrite Hcls. now apply list_lookup_middle. }
  subst w2. rewrite (recompute_eq _ _ _ _ _ Hk).
  destruct (fst (candidates w1 (trackInfo c0))) as [|r cands] eqn:Hc.
  - destruct (isLocked w1 (trackInfo c0)).
    + destruct (Htrigger noPlayableLockedRepresentation w1) as (Hi & Hkeep & _ & Ho).
      split4; try assumption.
      * intros j c Hj. apply Hkeep. rewrite Hcls. now apply lookup_app_l_Some.
      * exists c0. split; [now apply Hkeep | reflexivity].
    + set (w1' := set_isSupported (adaptation (trackInfo c0)) false w1).
      destruct (Htrigger noPlayableRepresentation w1') as (Hi & Hkeep & _ & Ho).
      split4.
      * eapply internal_trans; [apply internal_once, mut_isSupported | exact Hi].
      * intros j c Hj. apply Hkeep. cbn. rewrite Hcls. now apply lookup_app_l_Some.
      * exists c0. split; [now apply Hkeep | reflexivity].
      * rewrite (reactionCommitter_ext w1 w1') in Ho; [exact Ho | | reflexivity].
        apply mutation_surroundings, mut_isSupported.
  - destruct (changed _ _); cbn [fst].
    + destruct (reference_setValue_fields (length cls)
                  (sortedChoice w1 (trackInfo c0)) w1) as (H1 & H2 & H3 & _).
      split4.
      * apply internal_once. unfold sortedChoice. apply mut_publish.
        rewrite Hc. discriminate.
      * intros j c Hj. rewrite (reference_setValue_closures _ _ _ _ Hk).
        rewrite list_lookup_insert_ne.
        -- rewrite Hcls. now apply lookup_app_l_Some.
        -- apply lookup_lt_Some in Hj. lia.
      * rewrite (reference_setValue_closures _ _ _ _ Hk).
        eexists. split.
        -- apply list_lookup_insert_eq. now apply lookup_lt_Some in Hk.
        -- reflexivity.
      * split; [exact H1|]. split; [exact H2|]. intros Ht. now rewrite H3.
    + split4.
      * apply internal_refl.
      * intros j c Hj. rewrite Hcls. now apply lookup_app_l_Some.
      * now exists c0.
      * split; [reflexivity|]. split; [reflexivity|]. auto.
Qed.

Lemma enter_of_trigger : enterSpec script.
Proof.
  intros c w.
  destruct (callSetting c) as [info|] eqn:Hset.
  - (* a call with a track setting *)
    rewrite (enter_eq _ _ _ _ Hset).
    destruct (prepared_fields c info w) as (Hcls & Hlen & Htok & Href & Hlast & _).
    pose proof (internal_prepared c info w) as Hprep.
    pose proof (internal_surroundings _ _ Hprep) as Hsur.
    rewrite Hlen.
    destruct (recompute_fresh _ _ _ Hcls) as (Hi & Hkeep & (cl & Hcl & Hinfo) & Ho).
    cbn [trackInfo] in Ho, Hinfo.
    rewrite (sameSurroundings_candidates _ _ _ Hsur) in Ho.
    rewrite (reactionCommitter_ext _ _ _ Hsur Hlast) in Ho.
    set (o := updateReferenceIfNeeded_with _ _ _ _) in *.
    assert (Hcom : committer w script c =
                   match fst (candidates w info) with
                   | [] => match reactionCommitter w script with
                           | Some c' => Some c'
                           | None => Some c
                           end
                   | _ :: _ => Some c
                   end).
    { unfold committer, committerOf.
      destruct c as [p|p]; simpl in Hset; subst p;
        destruct (fst (candidates w info)); reflexivity. }
    rewrite Hcom. clear Hcom.
    assert (Hcommit :
      abstains (prepared c info w) (fst o) ->
      internal w (fst (concluded c (length (closures w)) o)) /\
      keepsClosures w (fst (concluded c (length (closures w)) o)) /\
      commits w (fst (concluded c (length (closures w)) o)) c).
    { intros (Ha1 & Ha2 & Ha3). specialize (Ha3 Htok).
      unfold concluded. rewrite Ha3. cbn.
      split; [|split; [|split; [reflexivity|split; [reflexivity|]]]].
      - eapply internal_trans; [exact Hprep|].
        eapply internal_trans; [exact Hi|].
        eapply internal_trans; [apply internal_once, mut_lastEmitted|].
        eapply internal_trans; [apply internal_once, mut_updateToken|].
        apply internal_once, mut_emit.
      - intros j c' Hj. now apply Hkeep.
      - exists (length (closures w)). unfold adaptationRef_setValue. cbn.
        rewrite Ha1, Href. split; [reflexivity|].
        rewrite Hset. split; [lia|]. now exists cl. }
    destruct (fst (candidates w info)) as [|r cands]; [|now apply Hcommit].
    destruct (reactionCommitter w script) as [c'|]; [|now apply Hcommit].
    destruct Ho as (Ht & Hl & k & Hk1 & Hk2).
    unfold concluded. rewrite Ht. cbn [negb].
    split; [|split; [|split; [exact Ht|split; [exact Hl|]]]].
    + eapply internal_trans; [exact Hprep | exact Hi].
    + intros j c'' Hj. now apply Hkeep.
    + exists k. rewrite Hk1, Href. split; [reflexivity|].
      destruct (callSetting c'); [|exact I].
      destruct Hk2 as [Hle Hcl']. split; [|exact Hcl'].
      rewrite Hcls, length_app in Hle. lia.
  - (* a call with null *)
    destruct c as [p|p]; simpl in Hset; subst p;
      unfold committer, committerOf, enter, start, start_with, updateTrack,
        updateTrack_with; cbn [_lastEmitted set_updateToken].
    + split; [|split; [|split; [reflexivity|split; [reflexivity|]]]].
      * eapply internal_trans; [apply internal_once, (mut_updateToken true)|].
        eapply internal_trans; [apply internal_once, (mut_lastEmitted Null)|].
        eapply internal_trans; [apply internal_once, (mut_updateToken false)|].
        apply internal_once, mut_emit.
      * intros j c Hj. exact Hj.
      * now exists 0.
    + destruct (_lastEmitted w) eqn:Hl.
      1,3: pose proof (quiet_cancel (set_updateToken false (set_updateToken true w)))
             as [_ _ _ Hq1 _ Hq3 _ Hq2 _]; cbn in Hq1, Hq2, Hq3;
           (split; [|split; [|split; [|split; [reflexivity|]]]]);
           [ eapply internal_trans; [apply internal_once, (mut_updateToken true)|];
             eapply internal_trans; [apply internal_once, (mut_updateToken false)|];
             eapply internal_trans; [apply internal_cancel|];
             eapply internal_trans; [apply internal_once, mut_canceller|];
             eapply internal_trans; [apply internal_once, (mut_lastEmitted Null)|];
             apply internal_once, mut_emit
           | intros j c Hj; cbn; now rewrite Hq2
           | cbn; exact Hq3
           | exists 0; cbn; now rewrite Hq1 ].
      split; [apply internal_once, mut_updateToken|].
      split; [intros j c Hj; exact Hj|].
      split; [reflexivity|]. split; reflexivity.
Qed.

End CallsGivenTrigger.

(** *** [trigger], and with it every method, for every script *)

Lemma trigger_spec script : triggerSpec script.
Proof.
  induction script as [|r rest IH]; intros evt w.
  - assert (Hq : trigger [] evt w = (set_triggered (triggered w ++ [evt]) w, [])).
    { simpl. now destruct (negb (hasListeners w)). }
    rewrite Hq. cbn [fst]. split4.
    + apply internal_once, mut_triggered.
    + intros j c Hj. exact Hj.
    + now exists [].
    + assert (Hn : reactionCommitter w [] = None).
      { simpl. now destruct (negb (hasListeners w)). }
      rewrite Hn. split; [reflexivity|]. split; [reflexivity|]. auto.
  - set (w0 := set_triggered (triggered w ++ [evt]) w).
    assert (Hquiet :
      internal w w0 /\ keepsClosures w w0 /\
      (exists more, triggered w0 = triggered w ++ evt :: more) /\ abstains w w0).
    { split4.
      - apply internal_once, mut_triggered.
      - intros j c Hj. exact Hj.
      - now exists [].
      - split; [reflexivity|]. split; [reflexivity|]. auto. }
    assert (Hcall : forall c,
      internal w (fst (enter rest c w0)) /\
      keepsClosures w (fst (enter rest c w0)) /\
      (exists more, triggered (fst (enter rest c w0)) = triggered w ++ evt :: more) /\
      outcomeOf w (fst (enter rest c w0)) (committerOf w (reactionCommitter w rest) c)).
    { intros c.
      destruct (enter_of_trigger rest IH c w0) as (Hi & Hkeep & Ho).
      split4.
      - eapply internal_trans; [apply internal_once, mut_triggered | exact Hi].
      - intros j c' Hj. now apply Hkeep.
      - destruct (internal_triggered _ _ Hi) as [more Hmore].
        exists more. rewrite Hmore. cbn. now rewrite <- app_assoc.
      - unfold committer in Ho.
        assert (Hs : sameSurroundings w w0) by apply mutation_surroundings, mut_triggered.
        rewrite (reactionCommitter_ext _ _ _ Hs eq_refl) in Ho.
        rewrite (committerOf_ext _ _ _ _ Hs eq_refl) in Ho.
        exact Ho. }
    cbn -[committerOf]. fold w0.
    destruct (hasListeners w); cbn -[committerOf]; [|exact Hquiet].
    destruct r as [|p|p].
    + exact Hquiet.
    + apply (Hcall (cStart p)).
    + apply (Hcall (cUpdateTrack p)).
Qed.

Lemma enter_spec script : enterSpec script.
Proof. apply enter_of_trigger, trigger_spec. Qed.

(** A recompute of any closure is a sequence of elementary writes. *)
Lemma internal_updateReferenceIfNeeded script k w :
  internal w (fst (updateReferenceIfNeeded script k w)).
Proof.
  unfold updateReferenceIfNeeded.
  destruct (closures w !! k) as [c|] eqn:Hk.
  - rewrite (recompute_eq _ _ _ _ _ Hk).
    destruct (fst (candidates w (trackInfo c))) as [|r cands] eqn:Hc.
    + destruct (isLocked w (trackInfo c)).
      * apply trigger_spec.
      * eapply internal_trans; [apply internal_once, mut_isSupported|].
        apply trigger_spec.
    + destruct (changed _ _); cbn [fst]; [|apply internal_refl].
      apply internal_once. unfold sortedChoice. apply mut_publish.
      rewrite Hc. discriminate.
  - unfold updateReferenceIfNeeded_with. rewrite Hk. apply internal_refl.
Qed.

(** *** Every run is a sequence of elementary writes and disturbances *)

Lemma evolution_refl w : evolution w w.
Proof. apply rtc_refl. Qed.

Lemma evolution_trans w1 w2 w3 : evolution w1 w2 -> evolution w2 w3 -> evolution w1 w3.
Proof. apply rtc_trans. Qed.

Lemma evolution_internal w w' : internal w w' -> evolution w w'.
Proof.
  induction 1 as [|w1 w2 w3 Hm _ IH]; [apply rtc_refl|].
  eapply rtc_l; [left; exact Hm | exact IH].
Qed.

Lemma evolution_disturbance w w' : disturbance w w' -> evolution w w'.
Proof. intros H. apply rtc_once. now right. Qed.

Lemma evolution_callListeners ks o :
  evolution (fst o) (fst (callListeners ks o)).
Proof.
  revert o. induction ks as [|k ks IH]; intros o; simpl.
  - apply evolution_refl.
  - eapply evolution_trans; [|apply IH].
    apply evolution_internal, internal_updateReferenceIfNeeded.
Qed.

Lemma evolution_callSubscribers l ks o :
  evolution (fst o) (fst (callSubscribers l ks o)).
Proof.
  revert o. induction ks as [|k ks IH]; intros o; simpl.
  - apply evolution_refl.
  - eapply evolution_trans; [|apply IH].
    destruct (existsb _ _); [|apply evolution_refl].
    apply evolution_internal, internal_updateReferenceIfNeeded.
Qed.

Lemma evolution_dispose w : evolution w (dispose w).
Proof.
  unfold dispose.
  eapply evolution_trans; [apply evolution_disturbance, (dis_hasListeners false)|].
  eapply evolution_trans; [apply evolution_internal, internal_cancel|].
  apply evolution_disturbance, dis_finish.
Qed.

Lemma evolution_step op o : evolution (fst o) (fst (step op o)).
Proof.
  destruct o as [w script]. destruct op; cbn [step fst].
  - apply evolution_internal, (enter_spec script (cStart _) w).
  - apply evolution_internal, (enter_spec script (cUpdateTrack _) w).
  - apply evolution_dispose.
  - apply evolution_disturbance, dis_hasListeners.
  - apply (evolution_callListeners _ (w, script)).
  - unfold lockedRepresentations_setValue.
    destruct (isFinished (lockedRefs w l)); [apply evolution_refl|].
    eapply evolution_trans; [apply evolution_disturbance, (dis_locked l v)|].
    apply (evolution_callSubscribers l _ (_, script)).
  - apply evolution_disturbance, dis_isPlayable.
  - apply evolution_disturbance, dis_adaptations.
Qed.

Lemma evolution_run ops o : evolution (fst o) (fst (run ops o)).
Proof.
  revert o. induction ops as [|op ops IH]; intros o; simpl.
  - apply evolution_refl.
  - eapply evolution_trans; [apply evolution_step | apply IH].
Qed.

(** *** Recomputes of a closure already there *)

(** Without candidates: one event, and the closure is left as it was,
    whatever the listeners do. *)
Lemma recompute_empty script k w c :
  closures w !! k = Some c ->
  fst (candidates w (trackInfo c)) = [] ->
  updateReferenceIfNeeded script k w
    = trigger script (emptyEvent w (trackInfo c)) (emptyWorld w (trackInfo c)) /\
  closures (fst (updateReferenceIfNeeded script k w)) !! k = Some c /\
  exists more,
    triggered (fst (updateReferenceIfNeeded script k w))
      = triggered w ++ emptyEvent w (trackInfo c) :: more.
Proof.
  intros Hk Hc.
  assert (Heq : updateReferenceIfNeeded script k w
                = trigger script (emptyEvent w (trackInfo c)) (emptyWorld w (trackInfo c))).
  { unfold updateReferenceIfNeeded. rewrite (recompute_eq _ _ _ _ _ Hk), Hc.
    unfold emptyEvent, emptyWorld. now destruct (isLocked w (trackInfo c)). }
  rewrite Heq. split; [reflexivity|].
  destruct (trigger_spec script (emptyEvent w (trackInfo c))
              (emptyWorld w (trackInfo c))) as (_ & Hkeep & Hmore & _).
  split.
  - apply Hkeep. unfold emptyWorld. now destruct (isLocked w (trackInfo c)).
  - destruct Hmore as [more Hmore]. exists more. rewrite Hmore.
    unfold emptyWorld. now destruct (isLocked w (trackInfo c)).
Qed.

(** With passive listeners the event is the only one. *)
Lemma trigger_passive evt w :
  trigger [] evt w = (set_triggered (triggered w ++ [evt]) w, []).
Proof. simpl. now destruct (negb (hasListeners w)). Qed.

Lemma someIdDiffers_spec old sorted :
  length sorted = length old ->
  someIdDiffers old sorted = true <->
  exists i ro rs, old !! i = Some ro /\ sorted !! i = Some rs /\ id ro <> id rs.
Proof.
  revert sorted. induction old as [|o old IH]; intros [|s sorted] Hlen;
    simpl in Hlen; try discriminate.
  - simpl. split; [discriminate|]. intros (i & ro & rs & H & _). discriminate.
  - simpl. destruct (String.eqb_spec (id o) (id s)) as [Heq|Hne].
    + rewrite IH by congruence. split.
      * intros (i & ro & rs & H1 & H2 & H3). now exists (S i), ro, rs.
      * intros (i & ro & rs & H1 & H2 & H3). destruct i as [|i].
        -- simpl in H1, H2. congruence.
        -- now exists i, ro, rs.
    + split; [|reflexivity]. intros _. now exists 0, o, s.
Qed.

(** The test of the code is the one the words describe. *)
Lemma changed_spec oldRef sorted :
  changed oldRef sorted = true <-> differs (representations oldRef) sorted.
Proof.
  unfold changed, differs.
  destruct (Nat.eqb_spec (length sorted) (length (representations oldRef)))
    as [Heq|Hne]; simpl.
  - rewrite (someIdDiffers_spec _ _ Heq). split; [now right|].
    intros [Hl|H]; [contradiction|exact H].
  - split; [now left|reflexivity].
Qed.

Lemma differs_ids old sorted :
  differs old sorted <-> map id sorted <> map id old.
Proof.
  unfold differs. split.
  - intros [Hlen|(i & ro & rs & H1 & H2 & H3)] Heq.
    + apply Hlen. apply (f_equal (@length _)) in Heq.
      now rewrite !length_map in Heq.
    + apply H3. apply (f_equal (fun l => l !! i)) in Heq.
      rewrite !list_lookup_fmap, H1, H2 in Heq. simpl in Heq. congruence.
  - intros Hne.
    destruct (Nat.eq_dec (length sorted) (length old)) as [Hlen|Hlen]; [|now left].
    right. revert sorted Hne Hlen.
    induction old as [|o old IH]; intros [|s sorted] Hne Hlen;
      simpl in Hlen; try discriminate.
    + now contradiction Hne.
    + destruct (string_dec (id o) (id s)) as [Heq|Hdiff].
      * destruct (IH sorted) as (i & ro & rs & H1 & H2 & H3).
        -- intros Hm. apply Hne. simpl. congruence.
        -- congruence.
        -- now exists (S i), ro, rs.
      * now exists 0, o, s.
Qed.

(** With candidates: the sorted candidates are written if they differ from
    the value held, and nothing at all happens otherwise. *)
Lemma recompute_candidates script k w c :
  closures w !! k = Some c ->
  fst (candidates w (trackInfo c)) <> [] ->
  updateReferenceIfNeeded script k w =
    if changed (getValue (reference c))
         (sort compareBitrate (fst (candidates w (trackInfo c))))
    then (reference_setValue k (sortedChoice w (trackInfo c)) w, script)
    else (w, script).
Proof.
  intros Hk Hc. unfold updateReferenceIfNeeded.
  rewrite (recompute_eq _ _ _ _ _ Hk).
  now destruct (fst (candidates w (trackInfo c))).
Qed.

(** *** Invariants of every run *)

Lemma wellFormed_sorted cands mode :
  cands <> [] ->
  wellFormedChoice {| representations := sort compareBitrate cands;
                      representationsSwitchingMode := mode |}.
Proof.
  intros Hc. split; simpl.
  - intros Hs. now apply sort_nil_inv in Hs.
  - apply sort_sorted.
Qed.

Lemma mutation_wellFormed w w' :
  mutation w w' -> wellFormedHistories w -> wellFormedHistories w'.
Proof.
  intros Hm Hw. destruct Hm; try exact Hw.
  - (* a closure is allocated *)
    intros j c Hj. cbn in Hj.
    apply lookup_app_Some in Hj as [Hj|[_ Hj]]; [now apply (Hw j)|].
    destruct (j - length (closures w)); simpl in Hj; [|discriminate].
    injection Hj as <-. constructor.
  - (* a reference is written *)
    intros j c Hj. unfold reference_setValue in Hj.
    destruct (closures w !! k) as [ck|] eqn:Hk; [|now apply (Hw j)].
    cbn in Hj. destruct (Nat.eq_dec k j) as [->|Hne].
    + rewrite list_lookup_insert_eq in Hj by now apply lookup_lt_Some in Hk.
      injection Hj as <-. cbn. unfold setValue.
      destruct (isFinished (reference ck)); [now apply (Hw j)|]. cbn.
      apply Forall_app. split; [now apply (Hw j)|].
      constructor; [|constructor]. now apply wellFormed_sorted.
    + rewrite list_lookup_insert_ne in Hj by exact Hne. now apply (Hw j).
Qed.

Lemma disturbance_wellFormed w w' :
  disturbance w w' -> wellFormedHistories w -> wellFormedHistories w'.
Proof. intros Hd Hw. now destruct Hd. Qed.

Lemma evolution_wellFormed w w' :
  evolution w w' -> wellFormedHistories w -> wellFormedHistories w'.
Proof.
  induction 1 as [|w1 w2 w3 [Hm|Hd] _ IH]; intros Hw; [exact Hw| |].
  - apply IH. now apply (mutation_wellFormed w1).
  - apply IH. now apply (disturbance_wellFormed w1).
Qed.

Lemma evolution_sealed w w' :
  evolution w w' ->
  isFinished (_adaptationRef w) = true ->
  sealed (_adaptationRef w) (_adaptationRef w').
Proof.
  induction 1 as [w|w1 w2 w3 Hstep _ IH]; intros Hfin.
  - now split.
  - assert (Hs : sealed (_adaptationRef w1) (_adaptationRef w2)).
    { destruct Hstep as [Hm|Hd].
      - destruct Hm; try (now split).
        + unfold reference_setValue. destruct (closures w !! k); now split.
        + cbn. unfold setValue. rewrite Hfin. now split.
      - destruct Hd; now split. }
    destruct Hs as (H1 & H2 & H3). destruct (IH H1) as (H4 & H5 & H6).
    split; [exact H4|]. split; congruence.
Qed.

(** An Adaptation marked as not supported stays so through the class's
    own writes. *)
Lemma internal_unsupported w w' a :
  internal w w' ->
  isSupported (adaptations w a) = false ->
  isSupported (adaptations w' a) = false.
Proof.
  induction 1 as [|w1 w2 w3 Hm _ IH]; intros Ha; [exact Ha|].
  apply IH. destruct Hm; try exact Ha.
  - unfold reference_setValue. now destruct (closures w !! k).
  - cbn. unfold update. now destruct (Nat.eqb_spec a a0).
Qed.

(** *** Re-entrant calls *)

Lemma trigger_call c rest evt w :
  hasListeners w = true ->
  trigger (reactionOf c :: rest) evt w
    = enter rest c (set_triggered (triggered w ++ [evt]) w).
Proof. intros Hl. destruct c; simpl; now rewrite Hl. Qed.

Lemma committer_setting w script c info :
  callSetting c = Some info ->
  exists last,
    committer w script c = Some last /\
    (fst (candidates w info) <> [] \/ reactionCommitter w script = None -> last = c).
Proof.
  intros Hc. unfold committer, committerOf.
  destruct c as [p|p]; simpl in Hc; subst p;
    destruct (fst (candidates w info)) as [|r cands];
    destruct (reactionCommitter w script) as [c'|];
    eexists; (split; [reflexivity|]); intros [H|H]; congruence.
Qed.

(** Re-entrancy when each event is answered by one call for a track
    setting.  An outer call [outer] with track setting [A] whose sub-reference
    construction triggers an event, and a listener that answers it with the
    call [inner] with track setting [B] (and whose further answers, should
    the construction for [B] trigger events in turn, are [rest]): when both
    calls have returned, exactly one value has been sent through
    [_adaptationRef], by the innermost committing call [last] of the chain,
    which is [inner] when the chain stops there; [_adaptationRef] holds that
    value; when [last] has a track setting, the sub-reference sent was built
    after that of [A] and holds [last]'s setting; [_lastEmitted] is [last]'s
    snapshot and the token is reset.  Nothing is sent for [A]. *)
Theorem reentrant_last_writer_wins rest outer A inner B w :
  callSetting outer = Some A ->
  callSetting inner = Some B ->
  fst (candidates w A) = [] ->
  hasListeners w = true ->
  isFinished (_adaptationRef w) = false ->
  let w' := fst (enter (reactionOf inner :: rest) outer w) in
  exists last k,
    committer w rest inner = Some last /\
    (fst (candidates w B) <> [] \/ reactionCommitter w rest = None -> last = inner) /\
    history (_adaptationRef w') = history (_adaptationRef w) ++ [published last k] /\
    getValue (_adaptationRef w') = published last k /\
    _lastEmitted w' = snapshot last /\
    _updateToken w' = false /\
    (forall info, callSetting last = Some info ->
       length (closures w) < k /\
       exists cl, closures w' !! k = Some cl /\ trackInfo cl = info).
Proof.
  intros HA HB Hempty Hlisten Hfin w'. subst w'.
  rewrite (enter_eq _ _ _ _ HA).
  destruct (prepared_fields outer A w) as (Hcls & Hlen & Htok & Href & Hlast & _).
  pose proof (internal_surroundings _ _ (internal_prepared outer A w)) as Hsur.
  rewrite Hlen.
  set (w1 := prepared outer A w) in *.
  set (c0 := {| trackInfo := A;
                reference := newSharedReference
                  {| representations := [];
                     representationsSwitchingMode := "lazy" |} |}) in *.
  assert (Hk : closures w1 !! length (closures w) = Some c0).
  { rewrite Hcls. now apply list_lookup_middle. }
  assert (Hc1 : fst (candidates w1 (trackInfo c0)) = []).
  { cbn [trackInfo c0]. now rewrite (sameSurroundings_candidates _ _ _ Hsur). }
  destruct (recompute_empty (reactionOf inner :: rest) _ _ _ Hk Hc1) as (Heq & _).
  unfold updateReferenceIfNeeded in Heq. rewrite Heq. clear Heq.
  set (w1' := emptyWorld w1 (trackInfo c0)).
  assert (Hw1' : sameSurroundings w1 w1' /\ closures w1' = closures w1 /\
                 _adaptationRef w1' = _adaptationRef w1 /\
                 _lastEmitted w1' = _lastEmitted w1).
  { unfold w1', emptyWorld. destruct (isLocked w1 (trackInfo c0)).
    - split; [apply sameSurroundings_refl|]. now repeat split.
    - split; [apply mutation_surroundings, mut_isSupported|]. now repeat split. }
  destruct Hw1' as (Hsur' & Hcls' & Href' & Hlast').
  rewrite trigger_call
    by (rewrite (same_hasListeners _ _ Hsur'), (same_hasListeners _ _ Hsur); exact Hlisten).
  set (w0 := set_triggered _ w1').
  assert (Hsur0 : sameSurroundings w w0).
  { eapply sameSurroundings_trans; [exact Hsur|].
    eapply sameSurroundings_trans; [exact Hsur'|].
    apply mutation_surroundings, mut_triggered. }
  destruct (enter_spec rest inner w0) as (_ & _ & Ho).
  assert (Hcom : committer w0 rest inner = committer w rest inner).
  { unfold committer.
    rewrite (reactionCommitter_ext w w0), (committerOf_ext w w0); try assumption;
      try reflexivity; cbn; congruence. }
  rewrite Hcom in Ho.
  destruct (committer_setting w rest inner B HB) as (last & Hlast_eq & Hinner).
  rewrite Hlast_eq in Ho. destruct Ho as (Ht & Hl & k & Hk1 & Hk2).
  exists last, k.
  unfold concluded. rewrite Ht. cbn [negb].
  assert (Hrefw : _adaptationRef w0 = _adaptationRef w) by (cbn; congruence).
  rewrite Hk1, Hrefw. unfold setValue, getValue. rewrite Hfin. cbn [history value].
  split; [exact Hlast_eq|]. split; [exact Hinner|].
  split; [reflexivity|]. split; [reflexivity|].
  split; [exact Hl|]. split; [exact Ht|].
  intros info Hinfo. rewrite Hinfo in Hk2. destruct Hk2 as [Hle Hcl].
  split; [|exact Hcl].
  assert (Hlen0 : length (closures w0) = S (length (closures w))).
  { cbn. rewrite Hcls', Hcls, length_app. simpl. lia. }
  lia.
Qed.

Lemma reentrant_last_writer_wins_witness :
  exists last k,
    history (_adaptationRef
               (fst (enter [callUpdateTrack (Some (Sample.setting 0 0))]
                       (cUpdateTrack (Some (Sample.setting 2 0))) Sample.fresh)))
      = [published last k] /\
    last = cUpdateTrack (Some (Sample.setting 0 0)).
Proof.
  destruct (reentrant_last_writer_wins []
              (cUpdateTrack (Some (Sample.setting 2 0))) (Sample.setting 2 0)
              (cUpdateTrack (Some (Sample.setting 0 0))) (Sample.setting 0 0)
              Sample.fresh eq_refl eq_refl eq_refl eq_refl eq_refl)
    as (last & k & _ & Hinner & Hhist & _).
  exists last, k. split; [exact Hhist|].
  apply Hinner. left. vm_compute. discriminate.
Defined.

(** *** A stale commit *)

(** C1. The chain of re-entrant calls breaks when the last call a listener
    makes is [updateTrack(null)] on a [null] snapshot: that call returns at
    lines 128-130 with the token still set (line 126), so the outer call
    passes its guard (line 107 or 144) and commits its own setting, after
    the inner calls have returned.  First part: an outer call with a setting
    [A] that has no candidates, on a [null] snapshot, whose listener answers
    with [updateTrack(null)], sends the choice of [A], which
    [_adaptationRef] then holds, and leaves [_lastEmitted] describing [A].
    Second part: on a new dispatcher, [updateTrack(A)] whose listener calls
    [updateTrack(B)], [updateTrack(null)] and [updateTrack(null)] makes
    [_adaptationRef] receive the choice of [B], then [null], then the stale
    choice of [A]. *)
Theorem stale_commit_after_null_update :
  (forall rest outer A w,
     callSetting outer = Some A ->
     fst (candidates w A) = [] ->
     hasListeners w = true ->
     _lastEmitted w = Null ->
     isFinished (_adaptationRef w) = false ->
     history (_adaptationRef (fst (enter (callUpdateTrack None :: rest) outer w)))
     = history (_adaptationRef w) ++ [published outer (length (closures w))] /\
     getValue (_adaptationRef (fst (enter (callUpdateTrack None :: rest) outer w)))
     = published outer (length (closures w)) /\
     _lastEmitted (fst (enter (callUpdateTrack None :: rest) outer w))
     = snapshot outer) /\
  history
    (_adaptationRef
       (fst (updateTrack_with
               (triggerCalls [cUpdateTrack (Some (Sample.setting 0 0));
                              cUpdateTrack None; cUpdateTrack None])
               [] (Some (Sample.setting 2 0)) Sample.fresh)))
  = [published (cUpdateTrack (Some (Sample.setting 0 0))) 1;
     Null;
     published (cUpdateTrack (Some (Sample.setting 2 0))) 0].
Proof.
  split; [|reflexivity].
  intros rest outer A w HA Hempty Hlisten Hnull Hfin.
  rewrite (enter_eq _ _ _ _ HA).
  destruct (prepared_fields outer A w) as (Hcls & Hlen & Htok & Href & Hlast & _).
  pose proof (internal_surroundings _ _ (internal_prepared outer A w)) as Hsur.
  rewrite Hlen.
  set (w1 := prepared outer A w) in *.
  set (c0 := {| trackInfo := A;
                reference := newSharedReference
                  {| representations := [];
                     representationsSwitchingMode := "lazy" |} |}) in *.
  assert (Hk : closures w1 !! length (closures w) = Some c0).
  { rewrite Hcls. now apply list_lookup_middle. }
  assert (Hc1 : fst (candidates w1 (trackInfo c0)) = []).
  { cbn [trackInfo c0]. now rewrite (sameSurroundings_candidates _ _ _ Hsur). }
  destruct (recompute_empty (callUpdateTrack None :: rest) _ _ _ Hk Hc1) as (Heq & _).
  unfold updateReferenceIfNeeded in Heq. rewrite Heq. clear Heq.
  set (w1' := emptyWorld w1 (trackInfo c0)).
  assert (Hw1' : hasListeners w1' = hasListeners w1 /\
                 _updateToken w1' = _updateToken w1 /\
                 _adaptationRef w1' = _adaptationRef w1 /\
                 _lastEmitted w1' = _lastEmitted w1).
  { unfold w1', emptyWorld. now destruct (isLocked w1 (trackInfo c0)). }
  destruct Hw1' as (Hlis' & Htok' & Href' & Hlast').
  assert (Hlis1 : hasListeners w1 = true).
  { rewrite (same_hasListeners _ _ Hsur). exact Hlisten. }
  cbn [trigger]. cbn [hasListeners set_triggered]. rewrite Hlis', Hlis1.
  cbn [negb updateTrack_with]. cbn [_lastEmitted set_updateToken set_triggered].
  rewrite Hlast', Hlast, Hnull.
  unfold concluded. cbn [fst snd _updateToken set_updateToken negb].
  unfold adaptationRef_setValue, setValue, getValue. cbn.
  rewrite Href', Href, Hfin. cbn. now repeat split.
Qed.

Lemma stale_commit_after_null_update_witness :
  history
    (_adaptationRef
       (fst (enter [callUpdateTrack None] (cUpdateTrack (Some (Sample.setting 2 0)))
               (fst (start [] None Sample.fresh)))))
  = history (_adaptationRef (fst (start [] None Sample.fresh)))
    ++ [published (cUpdateTrack (Some (Sample.setting 2 0)))
          (length (closures (fst (start [] None Sample.fresh))))].
Proof.
  destruct stale_commit_after_null_update as [H _].
  destruct (H [] (cUpdateTrack (Some (Sample.setting 2 0))) (Sample.setting 2 0)
              (fst (start [] None Sample.fresh))
              eq_refl eq_refl eq_refl eq_refl eq_refl) as [H1 _].
  exact H1.
Defined.

(** *** [updateTrack(null)] *)

(** C7. When [_lastEmitted] is already [null], [updateTrack(null)] sends
    nothing and leaves everything as it was, but for the update token, which
    it leaves set; the token found by a track-updating method is never read
    (every such method sets it first), so the calls that follow behave as if
    nothing had happened.  After any [updateTrack(null)], [_lastEmitted] is
    [null]: two calls in a row, the first of which finds another snapshot
    than [null] on a reference that is not finished, send [null] exactly
    once. *)
Theorem updateTrack_null_idempotent script w :
  (_lastEmitted w = Null ->
   updateTrack script None w = (set_updateToken true w, script)) /\
  (forall c b, enter script c (set_updateToken b w) = enter script c w) /\
  _lastEmitted (fst (updateTrack script None w)) = Null /\
  snd (updateTrack script None w) = script /\
  (_lastEmitted w <> Null ->
   isFinished (_adaptationRef w) = false ->
   let w1 := fst (updateTrack script None w) in
   let w2 := fst (updateTrack script None w1) in
   history (_adaptationRef w1) = history (_adaptationRef w) ++ [Null] /\
   history (_adaptationRef w2) = history (_adaptationRef w) ++ [Null] /\
   getValue (_adaptationRef w2) = Null).
Proof.
  assert (Hnoop : forall w0, _lastEmitted w0 = Null ->
            updateTrack script None w0 = (set_updateToken true w0, script)).
  { intros w0 H0. unfold updateTrack, updateTrack_with.
    cbn [_lastEmitted set_updateToken]. now rewrite H0. }
  assert (Hlast : _lastEmitted (fst (updateTrack script None w)) = Null).
  { unfold updateTrack, updateTrack_with. cbn [_lastEmitted set_updateToken].
    destruct (_lastEmitted w) eqn:Hl; [reflexivity|exact Hl|reflexivity]. }
  split; [apply Hnoop|].
  split; [intros [p|p] b; reflexivity|].
  split; [exact Hlast|].
  split.
  { unfold updateTrack, updateTrack_with. cbn [_lastEmitted set_updateToken].
    now destruct (_lastEmitted w). }
  intros Hne Hfin w1 w2.
  assert (H1 : history (_adaptationRef w1) = history (_adaptationRef w) ++ [Null] /\
               getValue (_adaptationRef w1) = Null).
  { subst w1. unfold updateTrack, updateTrack_with.
    cbn [_lastEmitted set_updateToken].
    pose proof (quiet_cancel (set_updateToken false (set_updateToken true w)))
      as [_ _ _ Hq _ _ _ _ _].
    cbn in Hq.
    destruct (_lastEmitted w); [|contradiction|]; cbn;
      rewrite Hq; unfold setValue; rewrite Hfin; now cbn. }
  destruct H1 as [H1 H1'].
  split; [exact H1|].
  subst w2. rewrite (Hnoop w1 Hlast). cbn. split; assumption.
Qed.

Lemma updateTrack_null_idempotent_witness :
  updateTrack [] None (fst (start [] None Sample.fresh))
  = (set_updateToken true (fst (start [] None Sample.fresh)), []) /\
  history (_adaptationRef
             (fst (updateTrack [] None
                     (fst (updateTrack [] None
                             (fst (start [] (Some (Sample.setting 0 0)) Sample.fresh)))))))
  = history (_adaptationRef (fst (start [] (Some (Sample.setting 0 0)) Sample.fresh)))
    ++ [Null].
Proof.
  split.
  - destruct (updateTrack_null_idempotent [] (fst (start [] None Sample.fresh)))
      as (H & _).
    apply H. reflexivity.
  - destruct (updateTrack_null_idempotent []
                (fst (start [] (Some (Sample.setting 0 0)) Sample.fresh)))
      as (_ & _ & _ & _ & H).
    apply H; [vm_compute; discriminate | reflexivity].
Defined.

(** *** What the sub-references receive *)

Lemma run_wellFormed playable adapts locks adaptationRef ops script :
  wellFormedHistories
    (fst (run ops (newTrackDispatcher playable adapts locks adaptationRef, script))).
Proof.
  eapply evolution_wellFormed.
  - apply (evolution_run ops (_, script)).
  - intros k c Hk. cbn in Hk. discriminate.
Qed.

(** C2. No sub-reference is ever given, by [setValue], a value whose list of
    Representations is empty: in every world reached from a new dispatcher
    by calls to its methods, Manifest events, updates of the locks and
    changes around it, no value received by a sub-reference is empty.  And a
    recompute that finds no candidate leaves the closure, hence the value of
    its reference, as it was, and triggers an event. *)
Theorem empty_choice_never_published :
  (forall playable adapts locks adaptationRef ops script k c,
     closures (fst (run ops (newTrackDispatcher playable adapts locks
                               adaptationRef, script))) !! k = Some c ->
     Forall (fun v => representations v <> []) (history (reference c))) /\
  (forall script k w c,
     closures w !! k = Some c ->
     fst (candidates w (trackInfo c)) = [] ->
     closures (fst (updateReferenceIfNeeded script k w)) !! k = Some c /\
     exists more,
       triggered (fst (updateReferenceIfNeeded script k w))
       = triggered w ++ emptyEvent w (trackInfo c) :: more).
Proof.
  split.
  - intros playable adapts locks adaptationRef ops script k c Hk.
    pose proof (run_wellFormed playable adapts locks adaptationRef
                  ops script k c Hk) as Hw.
    eapply List.Forall_impl; [|exact Hw]. now intros v [Hv _].
  - intros script k w c Hk Hc.
    now destruct (recompute_empty script k w c Hk Hc) as (_ & H1 & H2).
Qed.

Lemma empty_choice_never_published_witness :
  Forall (fun v => representations v <> [])
    [{| representations := [Sample.R1; Sample.R3; Sample.R5];
        representationsSwitchingMode := "lazy" |}].
Proof.
  destruct empty_choice_never_published as [H _].
  exact (H Sample.allPlayable Sample.adapts Sample.unlocked
           (newSharedReference Undefined)
           [opAddEventListener; opStart (Some (Sample.setting 0 0))] [] 0 _ eq_refl).
Defined.

(** C4. Every list of Representations given to a sub-reference is in
    ascending order of bitrate: this holds of every value received in every
    world reached from a new dispatcher.  The value a recompute writes, when
    it writes one, is the stable sort of its candidates: sorted, with the
    same Representations, those of equal bitrate in their original order.
    Candidates of bitrates 5, 1, 3 are written as 1, 3, 5. *)
Theorem published_sorted_by_bitrate :
  (forall playable adapts locks adaptationRef ops script k c,
     closures (fst (run ops (newTrackDispatcher playable adapts locks
                               adaptationRef, script))) !! k = Some c ->
     Forall (fun v => ascendingBitrate (representations v)) (history (reference c))) /\
  (forall script k w c,
     closures w !! k = Some c ->
     (exists c',
        closures (fst (updateReferenceIfNeeded script k w)) !! k = Some c' /\
        (history (reference c') = history (reference c) \/
         history (reference c')
         = history (reference c) ++ [sortedChoice w (trackInfo c)])) /\
     ascendingBitrate (representations (sortedChoice w (trackInfo c))) /\
     Permutation (fst (candidates w (trackInfo c)))
       (representations (sortedChoice w (trackInfo c))) /\
     (forall b,
        withBitrate b (representations (sortedChoice w (trackInfo c)))
        = withBitrate b (fst (candidates w (trackInfo c))))) /\
  sort compareBitrate [Sample.R5; Sample.R1; Sample.R3]
  = [Sample.R1; Sample.R3; Sample.R5] /\
  (exists c,
     closures (fst (start [] (Some (Sample.setting 0 0)) Sample.fresh)) !! 0 = Some c /\
     history (reference c)
     = [{| representations := [Sample.R1; Sample.R3; Sample.R5];
           representationsSwitchingMode := "lazy" |}]).
Proof.
  split; [|split; [|split]].
  - intros playable adapts locks adaptationRef ops script k c Hk.
    pose proof (run_wellFormed playable adapts locks adaptationRef
                  ops script k c Hk) as Hw.
    eapply List.Forall_impl; [|exact Hw]. now intros v [_ Hv].
  - intros script k w c Hk. split; [|split; [|split]].
    + destruct (fst (candidates w (trackInfo c))) as [|r cands] eqn:Hc.
      * destruct (recompute_empty script k w c Hk Hc) as (_ & H1 & _).
        exists c. split; [exact H1 | now left].
      * rewrite (recompute_candidates script k w c Hk) by (rewrite Hc; discriminate).
        destruct (changed _ _); cbn [fst].
        -- rewrite (reference_setValue_closures _ _ _ _ Hk).
           eexists. split.
           ++ apply list_lookup_insert_eq. now apply lookup_lt_Some in Hk.
           ++ cbn. unfold setValue. destruct (isFinished (reference c)); cbn; auto.
        -- exists c. split; [exact Hk | now left].
    + apply sort_sorted.
    + apply sort_perm.
    + intros b. apply sort_stable.
  - reflexivity.
  - eexists. split; reflexivity.
Qed.

Lemma published_sorted_by_bitrate_witness :
  Forall (fun v => ascendingBitrate (representations v))
    [{| representations := [Sample.R1; Sample.R3; Sample.R5];
        representationsSwitchingMode := "lazy" |}].
Proof.
  destruct published_sorted_by_bitrate as [H _].
  exact (H Sample.allPlayable Sample.adapts Sample.unlocked
           (newSharedReference Undefined)
           [opAddEventListener; opStart (Some (Sample.setting 0 0))] [] 0 _ eq_refl).
Defined.

(** C3. A recompute with candidates writes them, sorted, if and only if
    they differ from the list the reference holds in length or in the id at
    some position: if they do the reference receives and holds the new
    choice (first part), if they do not the recompute changes nothing at all
    (second part).  After it the reference holds the id sequence of the
    sorted candidates, so that a later recompute of the same closure that
    yields the same id sequence writes nothing: two in a row send at most
    one value. *)
Theorem publish_iff_ids_differ script k w c :
  closures w !! k = Some c ->
  fst (candidates w (trackInfo c)) <> [] ->
  isFinished (reference c) = false ->
  let sorted := representations (sortedChoice w (trackInfo c)) in
  let w' := fst (updateReferenceIfNeeded script k w) in
  (differs (representations (getValue (reference c))) sorted ->
   closures w' !! k
   = Some {| trackInfo := trackInfo c;
             reference :=
               {| value := sortedChoice w (trackInfo c);
                  isFinished := false;
                  cbs := cbs (reference c);
                  history := history (reference c)
                               ++ [sortedChoice w (trackInfo c)] |} |}) /\
  (~ differs (representations (getValue (reference c))) sorted -> w' = w) /\
  (forall script2 w2 c',
     closures w' !! k = Some c' ->
     closures w2 !! k = Some c' ->
     fst (candidates w2 (trackInfo c')) <> [] ->
     map id (representations (sortedChoice w2 (trackInfo c'))) = map id sorted ->
     fst (updateReferenceIfNeeded script2 k w2) = w2).
Proof.
  intros Hk Hc Hfin sorted w'.
  assert (Hw' : w' = if changed (getValue (reference c)) sorted
                     then reference_setValue k (sortedChoice w (trackInfo c)) w
                     else w).
  { subst w'. rewrite (recompute_candidates script k w c Hk Hc).
    fold sorted. now destruct (changed _ _). }
  assert (Hwritten :
    closures (reference_setValue k (sortedChoice w (trackInfo c)) w) !! k
    = Some {| trackInfo := trackInfo c;
              reference :=
                {| value := sortedChoice w (trackInfo c);
                   isFinished := false;
                   cbs := cbs (reference c);
                   history := history (reference c)
                                ++ [sortedChoice w (trackInfo c)] |} |}).
  { rewrite (reference_setValue_closures _ _ _ _ Hk).
    rewrite list_lookup_insert_eq by now apply lookup_lt_Some in Hk.
    unfold setValue. now rewrite Hfin. }
  split; [|split].
  - intros Hd. apply changed_spec in Hd. rewrite Hw', Hd. exact Hwritten.
  - intros Hd. rewrite Hw'.
    destruct (changed _ _) eqn:Hch; [|reflexivity].
    apply changed_spec in Hch. contradiction.
  - intros script2 w2 c' Hk' Hk2 Hc2 Hids.
    rewrite (recompute_candidates script2 k w2 c' Hk2 Hc2).
    destruct (changed (getValue (reference c')) _) eqn:Hch; [|reflexivity].
    exfalso. apply changed_spec, differs_ids in Hch. apply Hch.
    change (sort compareBitrate (fst (candidates w2 (trackInfo c'))))
      with (representations (sortedChoice w2 (trackInfo c'))).
    rewrite Hids. clear Hch.
    rewrite Hw' in Hk'.
    destruct (changed (getValue (reference c)) sorted) eqn:Hch.
    + rewrite Hwritten in Hk'. injection Hk' as <-. reflexivity.
    + rewrite Hk in Hk'. injection Hk' as <-.
      destruct (List.list_eq_dec string_dec (map id sorted)
                  (map id (representations (getValue (reference c)))))
        as [Heq|Hne]; [exact Heq|].
      apply differs_ids, changed_spec in Hne. congruence.
Qed.

Lemma publish_iff_ids_differ_witness :
  fst (updateReferenceIfNeeded [] 0
         (fst (start [] (Some (Sample.setting 0 0)) Sample.fresh)))
  = fst (start [] (Some (Sample.setting 0 0)) Sample.fresh).
Proof.
  destruct (publish_iff_ids_differ [] 0
              (fst (start [] (Some (Sample.setting 0 0)) Sample.fresh)) _
              eq_refl) as (_ & H & _).
  - vm_compute. discriminate.
  - reflexivity.
  - apply H. intros Hd. apply differs_ids in Hd. apply Hd. reflexivity.
Defined.

(** C6. A recompute that finds a lock none of whose Representations is
    playable does nothing but trigger [noPlayableLockedRepresentation]: the
    event is recorded, the closure (the reference, its value, what it has
    received) is as it was when the recompute returns, and the recompute
    does return a world. *)
Theorem locked_without_playable script k w c settings :
  closures w !! k = Some c ->
  getValue (lockedRefs w (lockedRepresentations (trackInfo c))) = Some settings ->
  List.filter (isPlayable w) (representations settings) = [] ->
  updateReferenceIfNeeded script k w
  = trigger script noPlayableLockedRepresentation w /\
  (exists more,
     triggered (fst (updateReferenceIfNeeded script k w))
     = triggered w ++ noPlayableLockedRepresentation :: more) /\
  (script = [] ->
   triggered (fst (updateReferenceIfNeeded script k w))
   = triggered w ++ [noPlayableLockedRepresentation]) /\
  closures (fst (updateReferenceIfNeeded script k w)) !! k = Some c.
Proof.
  intros Hk Hlock Hnone.
  assert (Hc : fst (candidates w (trackInfo c)) = []).
  { unfold candidates. now rewrite Hlock. }
  assert (Hl : isLocked w (trackInfo c) = true).
  { unfold isLocked. now rewrite Hlock. }
  destruct (recompute_empty script k w c Hk Hc) as (Heq & Hkeep & Hmore).
  unfold emptyEvent, emptyWorld in *. rewrite Hl in *.
  split; [exact Heq|]. split; [exact Hmore|]. split; [|exact Hkeep].
  intros ->. rewrite Heq, trigger_passive. reflexivity.
Qed.

Lemma locked_without_playable_witness :
  triggered
    (fst (updateReferenceIfNeeded [] 0
            (set_isPlayable Sample.nonePlayable
               (fst (start [] (Some (Sample.setting 1 1)) Sample.freshLocked)))))
  = [noPlayableLockedRepresentation].
Proof.
  destruct (locked_without_playable [] 0
              (set_isPlayable Sample.nonePlayable
                 (fst (start [] (Some (Sample.setting 1 1)) Sample.freshLocked)))
              _ Sample.lockR1 eq_refl eq_refl eq_refl) as (_ & _ & H & _).
  exact (H eq_refl).
Defined.

(** C5, as the code has it.  A recompute that finds no lock and no playable
    Representation in the Adaptation sets [isSupported] to [false], triggers
    [noPlayableRepresentation] and nothing else, and leaves the closure as
    it was; the Adaptation is still marked when the listeners have run, and
    with passive listeners the event is recorded exactly once.  A recompute
    that finds a lock without playable Representation takes the path of
    [noPlayableLockedRepresentation] only. *)
Theorem unlocked_without_playable script k w c :
  closures w !! k = Some c ->
  fst (candidates w (trackInfo c)) = [] ->
  (getValue (lockedRefs w (lockedRepresentations (trackInfo c))) = None ->
   updateReferenceIfNeeded script k w
   = trigger script noPlayableRepresentation
       (set_isSupported (adaptation (trackInfo c)) false w) /\
   isSupported (adaptations (fst (updateReferenceIfNeeded script k w))
                  (adaptation (trackInfo c))) = false /\
   (exists more,
      triggered (fst (updateReferenceIfNeeded script k w))
      = triggered w ++ noPlayableRepresentation :: more) /\
   (script = [] ->
    triggered (fst (updateReferenceIfNeeded script k w))
    = triggered w ++ [noPlayableRepresentation]) /\
   closures (fst (updateReferenceIfNeeded script k w)) !! k = Some c) /\
  (getValue (lockedRefs w (lockedRepresentations (trackInfo c))) <> None ->
   updateReferenceIfNeeded script k w
   = trigger script noPlayableLockedRepresentation w).
Proof.
  intros Hk Hc.
  destruct (recompute_empty script k w c Hk Hc) as (Heq & Hkeep & Hmore).
  unfold emptyEvent, emptyWorld, isLocked in *.
  split.
  - intros Hlock. rewrite Hlock in *.
    split; [exact Heq|]. split; [|split; [exact Hmore|split; [|exact Hkeep]]].
    + rewrite Heq.
      apply (internal_unsupported
               (set_isSupported (adaptation (trackInfo c)) false w)).
      * apply trigger_spec.
      * cbn. unfold update. now rewrite Nat.eqb_refl.
    + intros ->. rewrite Heq, trigger_passive. reflexivity.
  - intros Hlock.
    destruct (getValue (lockedRefs w (lockedRepresentations (trackInfo c))));
      [exact Heq | contradiction].
Qed.

Lemma unlocked_without_playable_witness :
  isSupported
    (adaptations
       (fst (updateReferenceIfNeeded [] 0
               (set_isPlayable Sample.nonePlayable
                  (fst (start [] (Some (Sample.setting 1 0)) Sample.fresh)))))
       1) = false.
Proof.
  destruct (unlocked_without_playable [] 0
              (set_isPlayable Sample.nonePlayable
                 (fst (start [] (Some (Sample.setting 1 0)) Sample.fresh)))
              _ eq_refl eq_refl) as (H & _).
  destruct (H eq_refl) as (_ & Hs & _). exact Hs.
Defined.

(** C5, as stated, fails when the candidates come from a lock: the
    dispatcher is started on the Adaptation holding [R1] alone, locked to
    [R1]; [R1] then stops being playable and the Manifest sends
    [decipherabilityUpdate].  The recompute finds no candidate, yet the
    Adaptation is still marked as supported and the only event triggered is
    [noPlayableLockedRepresentation]. *)
Lemma lock_branch_counterexample :
  let w := fst (run [opStart (Some (Sample.setting 1 1));
                     opSetPlayable Sample.nonePlayable]
                  (Sample.freshLocked, [])) in
  let w' := fst (run [opManifestEvent decipherabilityUpdate] (w, [])) in
  (exists c, closures w !! 0 = Some c /\
             trackInfo c = Sample.setting 1 1 /\
             fst (candidates w (trackInfo c)) = []) /\
  manifestListeners w decipherabilityUpdate = [0] /\
  isSupported (adaptations w 1) = true /\
  triggered w = [] /\
  isSupported (adaptations w' 1) = true /\
  triggered w' = [noPlayableLockedRepresentation].
Proof.
  cbv zeta. split; [|split; [|split; [|split; [|split]]]]; try reflexivity.
  eexists. split; [reflexivity|]. split; reflexivity.
Qed.

(** *** A sub-reference built without candidates *)

(** C10. A call with a track setting for which the recompute finds no
    candidate, and whose listeners commit nothing in answer to the event
    (none attached, or passive ones), sends its choice through
    [_adaptationRef] all the same; the sub-reference sent is the closure
    just allocated, still as [new SharedReference] made it: its value is the
    empty list in "lazy" mode, and it has received nothing. *)
Theorem empty_reference_committed script c info w :
  callSetting c = Some info ->
  fst (candidates w info) = [] ->
  reactionCommitter w script = None ->
  isFinished (_adaptationRef w) = false ->
  let w' := fst (enter script c w) in
  let k := length (closures w) in
  getValue (_adaptationRef w') = published c k /\
  history (_adaptationRef w') = history (_adaptationRef w) ++ [published c k] /\
  exists cl,
    closures w' !! k = Some cl /\
    trackInfo cl = info /\
    getValue (reference cl)
    = {| representations := []; representationsSwitchingMode := "lazy" |} /\
    history (reference cl) = [].
Proof.
  intros Hset Hempty Hpassive Hfin w' k. subst w' k.
  rewrite (enter_eq _ _ _ _ Hset).
  destruct (prepared_fields c info w) as (Hcls & Hlen & Htok & Href & Hlast & _).
  pose proof (internal_surroundings _ _ (internal_prepared c info w)) as Hsur.
  rewrite Hlen.
  set (w1 := prepared c info w) in *.
  set (c0 := {| trackInfo := info;
                reference := newSharedReference
                  {| representations := [];
                     representationsSwitchingMode := "lazy" |} |}) in *.
  assert (Hk : closures w1 !! length (closures w) = Some c0).
  { rewrite Hcls. now apply list_lookup_middle. }
  assert (Hc1 : fst (candidates w1 (trackInfo c0)) = []).
  { cbn [trackInfo c0]. now rewrite (sameSurroundings_candidates _ _ _ Hsur). }
  destruct (recompute_empty script _ _ _ Hk Hc1) as (Heq & Hkeep & _).
  unfold updateReferenceIfNeeded in Heq, Hkeep.
  set (o := updateReferenceIfNeeded_with _ _ _ _) in *.
  set (w1' := emptyWorld w1 (trackInfo c0)) in *.
  assert (Hw1' : sameSurroundings w1 w1' /\ _updateToken w1' = _updateToken w1 /\
                 _adaptationRef w1' = _adaptationRef w1 /\
                 _lastEmitted w1' = _lastEmitted w1).
  { unfold w1', emptyWorld. destruct (isLocked w1 (trackInfo c0)).
    - split; [apply sameSurroundings_refl|]. now repeat split.
    - split; [apply mutation_surroundings, mut_isSupported|]. now repeat split. }
  destruct Hw1' as (Hsur' & Htok' & Href' & Hlast').
  destruct (trigger_spec script (emptyEvent w1 (trackInfo c0)) w1')
    as (_ & _ & _ & Ho).
  rewrite <- Heq in Ho.
  rewrite (reactionCommitter_ext w w1') in Ho.
  - rewrite Hpassive in Ho. destruct Ho as (Ha1 & Ha2 & Ha3).
    unfold concluded. rewrite Ha3 by congruence. cbn.
    rewrite Ha1, Href', Href. unfold setValue, getValue. rewrite Hfin. cbn.
    split; [reflexivity|]. split; [reflexivity|].
    exists c0. now repeat split.
  - eapply sameSurroundings_trans; eassumption.
  - congruence.
Qed.

Lemma empty_reference_committed_witness :
  getValue (_adaptationRef (fst (start [] (Some (Sample.setting 2 0)) Sample.fresh)))
  = published (cStart (Some (Sample.setting 2 0))) 0.
Proof.
  destruct (empty_reference_committed [] (cStart (Some (Sample.setting 2 0)))
              (Sample.setting 2 0) Sample.fresh eq_refl eq_refl eq_refl eq_refl)
    as (H & _).
  exact H.
Defined.

(** *** [dispose] *)

Lemma cleanups_canceller cs w :
  _canceller (fold_left (fun w' c => runCleanup c w') cs w) = _canceller w.
Proof.
  revert w. induction cs as [|c cs IH]; intros w; simpl; [reflexivity|].
  rewrite IH. now destruct c.
Qed.

Lemma runCleanup_detached c k w :
  (forall evt, ~ In k (manifestListeners w evt)) ->
  forall evt, ~ In k (manifestListeners (runCleanup c w) evt).
Proof.
  intros Hw evt Hin. apply (Hw evt).
  destruct c as [k'|l k']; simpl in Hin; [|exact Hin].
  destruct evt; simpl in Hin.
  - apply List.filter_In in Hin. tauto.
  - apply List.filter_In in Hin. tauto.
Qed.

Lemma runCleanup_detaches k w evt :
  ~ In k (manifestListeners (runCleanup (removeListeners k) w) evt).
Proof.
  intros Hin. destruct evt; simpl in Hin;
    apply List.filter_In in Hin as [_ Hin];
    now rewrite Nat.eqb_refl in Hin.
Qed.

Lemma runCleanup_unsubscribed c l k w :
  ~ In k (cbs (lockedRefs w l)) ->
  ~ In k (cbs (lockedRefs (runCleanup c w) l)).
Proof.
  intros Hw Hin. apply Hw.
  destruct c as [k'|l' k']; simpl in Hin; [exact Hin|].
  unfold update in Hin. destruct (Nat.eqb_spec l l') as [->|_]; [|exact Hin].
  simpl in Hin. apply List.filter_In in Hin. tauto.
Qed.

Lemma runCleanup_unsubscribes l k w :
  ~ In k (cbs (lockedRefs (runCleanup (clearSubscription l k) w) l)).
Proof.
  simpl. unfold update. rewrite Nat.eqb_refl. simpl.
  intros Hin. apply List.filter_In in Hin as [_ Hin].
  now rewrite Nat.eqb_refl in Hin.
Qed.

Lemma cleanups_detach cs k w :
  In (removeListeners k) cs \/ (forall evt, ~ In k (manifestListeners w evt)) ->
  forall evt,
    ~ In k (manifestListeners (fold_left (fun w' c => runCleanup c w') cs w) evt).
Proof.
  revert w. induction cs as [|c cs IH]; intros w [Hin|Hw]; simpl.
  - destruct Hin.
  - exact Hw.
  - destruct Hin as [->|Hin].
    + apply IH. right. intros evt. apply runCleanup_detaches.
    + apply IH. now left.
  - apply IH. right. now apply runCleanup_detached.
Qed.

Lemma cleanups_unsubscribe cs l k w :
  In (clearSubscription l k) cs \/ ~ In k (cbs (lockedRefs w l)) ->
  ~ In k (cbs (lockedRefs (fold_left (fun w' c => runCleanup c w') cs w) l)).
Proof.
  revert w. induction cs as [|c cs IH]; intros w [Hin|Hw]; simpl.
  - destruct Hin.
  - exact Hw.
  - destruct Hin as [->|Hin].
    + apply IH. right. apply runCleanup_unsubscribes.
    + apply IH. now left.
  - apply IH. right. now apply runCleanup_unsubscribed.
Qed.

(** C9. [dispose] cancels the canceller: it is cancelled afterwards, and if
    it was not before, its registry is empty and each clean-up registered
    has had its effect (no closure with a registered [removeListeners] is a
    listener of the Manifest's events any more, no subscription registered
    for removal is left on its locked-Representations reference).  The
    listeners of the dispatcher's own events are detached and
    [_adaptationRef] is finished, without subscribers; it holds the value it
    held, [setValue] on it does nothing, and whatever is done next (calls to
    the methods included) it keeps this value and receives nothing more. *)
Theorem dispose_final w :
  let w' := dispose w in
  isCancelled (_canceller w') = true /\
  (isCancelled (_canceller w) = false ->
   registered (_canceller w') = [] /\
   (forall k evt, In (removeListeners k) (registered (_canceller w)) ->
                  ~ In k (manifestListeners w' evt)) /\
   (forall l k, In (clearSubscription l k) (registered (_canceller w)) ->
                ~ In k (cbs (lockedRefs w' l)))) /\
  hasListeners w' = false /\
  isFinished (_adaptationRef w') = true /\
  cbs (_adaptationRef w') = [] /\
  getValue (_adaptationRef w') = getValue (_adaptationRef w) /\
  history (_adaptationRef w') = history (_adaptationRef w) /\
  (forall v, setValue v (_adaptationRef w') = _adaptationRef w') /\
  (forall ops script,
     sealed (_adaptationRef w') (_adaptationRef (fst (run ops (w', script))))).
Proof.
  intros w'. subst w'. unfold dispose.
  set (w0 := set_hasListeners false w).
  pose proof (quiet_cancel w0) as [_ _ _ Hq1 _ _ Hq2 _ _].
  cbn in Hq1, Hq2. cbn [_canceller set_adaptationRef hasListeners _adaptationRef
                        manifestListeners lockedRefs].
  split; [|split; [|split; [exact Hq2|]]].
  - unfold cancel. destruct (isCancelled (_canceller w0)) eqn:Hc; [exact Hc|].
    now rewrite cleanups_canceller.
  - intros Hlive. unfold cancel. change (_canceller w0) with (_canceller w).
    rewrite Hlive. split; [now rewrite cleanups_canceller|]. split.
    + intros k evt Hin. apply cleanups_detach. now left.
    + intros l k Hin. apply cleanups_unsubscribe. now left.
  - rewrite Hq1. unfold finish, getValue, setValue. cbn.
    do 4 (split; [reflexivity|]). split; [reflexivity|].
    intros ops script.
    apply (evolution_sealed
             (set_adaptationRef
                {| value := value (_adaptationRef w); isFinished := true;
                   cbs := []; history := history (_adaptationRef w) |}
                (cancel w0))).
    + apply (evolution_run ops (_, script)).
    + reflexivity.
Qed.

Lemma dispose_final_witness :
  registered
    (_canceller (dispose (fst (start [] (Some (Sample.setting 0 0)) Sample.fresh))))
  = [] /\
  ~ In 0 (manifestListeners
            (dispose (fst (start [] (Some (Sample.setting 0 0)) Sample.fresh)))
            manifestUpdate).
Proof.
  destruct (dispose_final (fst (start [] (Some (Sample.setting 0 0)) Sample.fresh)))
    as (_ & H & _).
  destruct (H eq_refl) as (Hr & Hd & _).
  split; [exact Hr|]. apply Hd. left. reflexivity.
Defined.

(** *** Locking and unlocking, with passive listeners *)

Lemma sameSurroundings_recomputed w w' info v :
  sameSurroundings w w' -> recomputed w' info v = recomputed w info v.
Proof.
  intros Hs. unfold recomputed, sortedChoice.
  now rewrite (sameSurroundings_candidates _ _ _ Hs).
Qed.

(** A recompute with passive listeners touches neither the shared objects
    read by recomputes nor the other closures. *)
Lemma recompute_passive k w :
  snd (updateReferenceIfNeeded [] k w) = [] /\
  lockedRefs (fst (updateReferenceIfNeeded [] k w)) = lockedRefs w /\
  sameSurroundings w (fst (updateReferenceIfNeeded [] k w)) /\
  (forall j, j <> k ->
     closures (fst (updateReferenceIfNeeded [] k w)) !! j = closures w !! j).
Proof.
  pose proof (internal_surroundings _ _ (internal_updateReferenceIfNeeded [] k w))
    as Hs.
  revert Hs. unfold updateReferenceIfNeeded.
  assert (Hquiet : forall o : Outcome,
            snd o = [] -> lockedRefs (fst o) = lockedRefs w ->
            (forall j, j <> k -> closures (fst o) !! j = closures w !! j) ->
            sameSurroundings w (fst o) ->
            snd o = [] /\ lockedRefs (fst o) = lockedRefs w /\
            sameSurroundings w (fst o) /\
            (forall j, j <> k -> closures (fst o) !! j = closures w !! j)).
  { intros o H1 H2 H3 H4. split; [exact H1|]. split; [exact H2|]. now split. }
  destruct (closures w !! k) as [c|] eqn:Hk.
  - rewrite (recompute_eq _ _ _ _ _ Hk).
    destruct (fst (candidates w (trackInfo c))).
    + destruct (isLocked w (trackInfo c)); rewrite trigger_passive;
        now apply Hquiet.
    + destruct (changed _ _); [|now apply Hquiet].
      apply Hquiet; [reflexivity| |].
      * cbn [fst]. unfold reference_setValue. now rewrite Hk.
      * intros j Hj. cbn [fst]. rewrite (reference_setValue_closures _ _ _ _ Hk).
        apply list_lookup_insert_ne. congruence.
  - unfold updateReferenceIfNeeded_with. rewrite Hk. now apply Hquiet.
Qed.

(** The closure recomputed holds the recomputed value. *)
Lemma recompute_value k w c :
  closures w !! k = Some c ->
  isFinished (reference c) = false ->
  exists c',
    closures (fst (updateReferenceIfNeeded [] k w)) !! k = Some c' /\
    trackInfo c' = trackInfo c /\
    isFinished (reference c') = false /\
    getValue (reference c') = recomputed w (trackInfo c) (getValue (reference c)).
Proof.
  intros Hk Hfin. unfold updateReferenceIfNeeded, recomputed.
  rewrite (recompute_eq _ _ _ _ _ Hk).
  destruct (fst (candidates w (trackInfo c))) as [|r cands].
  - exists c. destruct (isLocked w (trackInfo c)); rewrite trigger_passive;
      now repeat split.
  - destruct (changed _ _); cbn [fst].
    + rewrite (reference_setValue_closures _ _ _ _ Hk).
      eexists. split.
      * apply list_lookup_insert_eq. now apply lookup_lt_Some in Hk.
      * cbn. unfold setValue. rewrite Hfin. now repeat split.
    + exists c. now repeat split.
Qed.

Lemma differs_sym l1 l2 : differs l1 l2 -> differs l2 l1.
Proof. rewrite !differs_ids. congruence. Qed.

Lemma not_differs_refl l : ~ differs l l.
Proof. rewrite differs_ids. congruence. Qed.

Lemma recomputed_idempotent w info v :
  recomputed w info (recomputed w info v) = recomputed w info v.
Proof.
  unfold recomputed.
  destruct (fst (candidates w info)) as [|r cands] eqn:Hc; [reflexivity|].
  destruct (changed v _) eqn:Hch; [|now rewrite Hch].
  destruct (changed (sortedChoice w info) _) eqn:Hch2; [|reflexivity].
  apply changed_spec in Hch2. unfold sortedChoice in Hch2. cbn in Hch2.
  rewrite Hc in Hch2. now apply not_differs_refl in Hch2.
Qed.

(** The callbacks of a locked-Representations reference run one after the
    other; closure [k], if it is among them, ends up holding the recomputed
    value. *)
Lemma callSubscribers_passive l k info v0 wE ks :
  forall w c,
    sameSurroundings wE w ->
    lockedRefs w = lockedRefs wE ->
    closures w !! k = Some c ->
    trackInfo c = info ->
    isFinished (reference c) = false ->
    getValue (reference c) = v0 \/ getValue (reference c) = recomputed wE info v0 ->
    snd (callSubscribers l ks (w, [])) = [] /\
    sameSurroundings wE (fst (callSubscribers l ks (w, []))) /\
    lockedRefs (fst (callSubscribers l ks (w, []))) = lockedRefs wE /\
    exists c',
      closures (fst (callSubscribers l ks (w, []))) !! k = Some c' /\
      trackInfo c' = info /\
      isFinished (reference c') = false /\
      (getValue (reference c') = v0 \/
       getValue (reference c') = recomputed wE info v0) /\
      (getValue (reference c) = recomputed wE info v0 \/
       (In k ks /\ In k (cbs (lockedRefs wE l))) ->
       getValue (reference c') = recomputed wE info v0).
Proof.
  induction ks as [|k' ks IH]; intros w c Hs Hl Hk Hinfo Hfin Hv.
  - cbn. split; [reflexivity|]. split; [exact Hs|]. split; [exact Hl|].
    exists c. split; [exact Hk|]. split; [exact Hinfo|]. split; [exact Hfin|].
    split; [exact Hv|]. intros [H|[[] _]]. exact H.
  - cbn [callSubscribers fold_left fst snd].
    change (fold_left _ ks ?o) with (callSubscribers l ks o).
    destruct (existsb (Nat.eqb k') (cbs (lockedRefs w l))) eqn:Hlive.
    + destruct (recompute_passive k' w) as (Hsnd & Hlocked & Hsur & Hother).
      rewrite (surjective_pairing (updateReferenceIfNeeded [] k' w)), Hsnd.
      set (w1 := fst (updateReferenceIfNeeded [] k' w)) in *.
      assert (Hs1 : sameSurroundings wE w1)
        by (eapply sameSurroundings_trans; eassumption).
      assert (Hl1 : lockedRefs w1 = lockedRefs wE) by congruence.
      destruct (Nat.eq_dec k' k) as [->|Hne].
      * destruct (recompute_value k w c Hk Hfin) as (c1 & Hk1 & Hi1 & Hf1 & Hv1).
        fold w1 in Hk1.
        rewrite Hinfo, (sameSurroundings_recomputed _ _ _ _ Hs) in Hv1.
        assert (Hv1' : getValue (reference c1) = recomputed wE info v0).
        { rewrite Hv1. destruct Hv as [->| ->];
            [reflexivity | apply recomputed_idempotent]. }
        destruct (IH w1 c1 Hs1 Hl1 Hk1 (eq_trans Hi1 Hinfo) Hf1 (or_intror Hv1'))
          as (H1 & H2 & H3 & c' & H4 & H5 & H6 & H7 & H8).
        split; [exact H1|]. split; [exact H2|]. split; [exact H3|].
        exists c'. split; [exact H4|]. split; [exact H5|]. split; [exact H6|].
        split; [exact H7|]. intros _. apply H8. now left.
      * assert (Hk1 : closures w1 !! k = Some c).
        { unfold w1. rewrite Hother by congruence. exact Hk. }
        destruct (IH w1 c Hs1 Hl1 Hk1 Hinfo Hfin Hv)
          as (H1 & H2 & H3 & c' & H4 & H5 & H6 & H7 & H8).
        split; [exact H1|]. split; [exact H2|]. split; [exact H3|].
        exists c'. split; [exact H4|]. split; [exact H5|]. split; [exact H6|].
        split; [exact H7|]. intros [H|[[Heq|Hin] Hcbs]].
        -- apply H8. now left.
        -- contradiction.
        -- apply H8. right. now split.
    + destruct (IH w c Hs Hl Hk Hinfo Hfin Hv)
        as (H1 & H2 & H3 & c' & H4 & H5 & H6 & H7 & H8).
      split; [exact H1|]. split; [exact H2|]. split; [exact H3|].
      exists c'. split; [exact H4|]. split; [exact H5|]. split; [exact H6|].
      split; [exact H7|]. intros [H|[[Heq|Hin] Hcbs]].
      * apply H8. now left.
      * subst k'. exfalso.
        assert (Ht : existsb (Nat.eqb k) (cbs (lockedRefs w l)) = true).
        { apply existsb_exists. exists k. rewrite Hl. split; [exact Hcbs|].
          apply Nat.eqb_refl. }
        congruence.
      * apply H8. right. now split.
Qed.

(** One update of a locked-Representations reference, seen from a closure
    subscribed to it. *)
Lemma lock_update_passive l v k c w :
  closures w !! k = Some c ->
  isFinished (reference c) = false ->
  isFinished (lockedRefs w l) = false ->
  In k (cbs (lockedRefs w l)) ->
  let wE := set_lockedRefs (update (lockedRefs w) l (setValue v (lockedRefs w l))) w in
  let w' := fst (lockedRepresentations_setValue [] l v w) in
  sameSurroundings wE w' /\
  isFinished (lockedRefs w' l) = false /\
  In k (cbs (lockedRefs w' l)) /\
  exists c',
    closures w' !! k = Some c' /\
    trackInfo c' = trackInfo c /\
    isFinished (reference c') = false /\
    getValue (reference c') = recomputed wE (trackInfo c) (getValue (reference c)).
Proof.
  intros Hk Hfin Hlfin Hin wE w'. subst w'.
  unfold lockedRepresentations_setValue. rewrite Hlfin. fold wE.
  assert (HlE : lockedRefs wE l = setValue v (lockedRefs w l)).
  { cbn. unfold update. now rewrite Nat.eqb_refl. }
  assert (HcbsE : cbs (lockedRefs wE l) = cbs (lockedRefs w l)).
  { rewrite HlE. unfold setValue. now rewrite Hlfin. }
  destruct (callSubscribers_passive l k (trackInfo c) (getValue (reference c)) wE
              (cbs (lockedRefs wE l)) wE c (sameSurroundings_refl wE) eq_refl
              Hk eq_refl Hfin (or_introl eq_refl))
    as (_ & Hs & Hl & c' & H1 & H2 & H3 & _ & H5).
  split; [exact Hs|].
  split; [rewrite Hl, HlE; unfold setValue; now rewrite Hlfin|].
  split; [rewrite Hl, HlE; unfold setValue; now rewrite Hlfin|].
  exists c'. split; [exact H1|]. split; [exact H2|]. split; [exact H3|].
  apply H5. right. rewrite HcbsE. now split.
Qed.

(** C8, as the code has it.  An unlocking recompute on an Adaptation that
    has playable Representations leaves the reference with the id sequence
    of all of them sorted by bitrate; it replaces the value held by that
    sorted list in "lazy" mode only if the id sequence held was another one,
    and otherwise keeps the value held, switching mode included.  So, with
    passive listeners and nothing else changing in between, a closure whose
    reference holds the unlocked choice holds it again after its lock has
    been set to any list of Representations and then to [null]. *)
Theorem lock_round_trip_from_unlocked :
  (forall script k w c,
     closures w !! k = Some c ->
     getValue (lockedRefs w (lockedRepresentations (trackInfo c))) = None ->
     getPlayableRepresentations w (adaptation (trackInfo c)) <> [] ->
     isFinished (reference c) = false ->
     exists c',
       closures (fst (updateReferenceIfNeeded script k w)) !! k = Some c' /\
       map id (representations (getValue (reference c')))
       = map id (representations (unlockedChoice w (adaptation (trackInfo c)))) /\
       (differs (representations (getValue (reference c)))
          (representations (unlockedChoice w (adaptation (trackInfo c)))) ->
        getValue (reference c') = unlockedChoice w (adaptation (trackInfo c))) /\
       (~ differs (representations (getValue (reference c)))
            (representations (unlockedChoice w (adaptation (trackInfo c)))) ->
        getValue (reference c') = getValue (reference c))) /\
  (forall k c lock w,
     closures w !! k = Some c ->
     isFinished (reference c) = false ->
     isFinished (lockedRefs w (lockedRepresentations (trackInfo c))) = false ->
     In k (cbs (lockedRefs w (lockedRepresentations (trackInfo c)))) ->
     getPlayableRepresentations w (adaptation (trackInfo c)) <> [] ->
     getValue (reference c) = unlockedChoice w (adaptation (trackInfo c)) ->
     exists c',
       closures
         (fst (run [opSetLocked (lockedRepresentations (trackInfo c)) (Some lock);
                    opSetLocked (lockedRepresentations (trackInfo c)) None]
                 (w, []))) !! k = Some c' /\
       getValue (reference c') = unlockedChoice w (adaptation (trackInfo c))).
Proof.
  split.
  - intros script k w c Hk Hlock Hplay Hfin.
    assert (Hcands : candidates w (trackInfo c)
                     = (getPlayableRepresentations w (adaptation (trackInfo c)),
                        "lazy"%string)).
    { unfold candidates. now rewrite Hlock. }
    assert (Hchoice : sortedChoice w (trackInfo c)
                      = unlockedChoice w (adaptation (trackInfo c))).
    { unfold sortedChoice, unlockedChoice. now rewrite Hcands. }
    rewrite (recompute_candidates script k w c Hk) by now rewrite Hcands.
    rewrite Hcands. cbn [fst].
    change (sort compareBitrate
              (getPlayableRepresentations w (adaptation (trackInfo c))))
      with (representations (unlockedChoice w (adaptation (trackInfo c)))).
    destruct (changed _ _) eqn:Hch; cbn [fst].
    + rewrite (reference_setValue_closures _ _ _ _ Hk), Hchoice.
      eexists. split.
      * apply list_lookup_insert_eq. now apply lookup_lt_Some in Hk.
      * cbn. unfold setValue, getValue. rewrite Hfin. cbn.
        split; [reflexivity|]. split; [reflexivity|].
        intros Hn. apply changed_spec in Hch. contradiction.
    + exists c. split; [exact Hk|].
      assert (Hn : ~ differs (representations (getValue (reference c)))
                     (representations (unlockedChoice w (adaptation (trackInfo c))))).
      { intros Hd. apply changed_spec in Hd. congruence. }
      split; [|split; [contradiction|reflexivity]].
      destruct (List.list_eq_dec string_dec
                  (map id (representations (getValue (reference c))))
                  (map id (representations
                             (unlockedChoice w (adaptation (trackInfo c))))))
        as [Heq|Hne]; [exact Heq|].
      exfalso. apply Hn, differs_ids. congruence.
  - intros k c lock w Hk Hfin Hlfin Hin Hplay Hheld.
    set (l := lockedRepresentations (trackInfo c)) in *.
    set (a := adaptation (trackInfo c)) in *.
    cbn [run fold_left step].
    destruct (lock_update_passive l (Some lock) k c w Hk Hfin Hlfin Hin)
      as (Hs1 & Hlfin1 & Hin1 & c1 & Hk1 & Hi1 & Hf1 & Hv1).
    set (wE1 := set_lockedRefs _ w) in *.
    assert (Hsnd1 : snd (lockedRepresentations_setValue [] l (Some lock) w) = []).
    { unfold lockedRepresentations_setValue. rewrite Hlfin.
      now destruct (callSubscribers_passive l k (trackInfo c)
                      (getValue (reference c)) wE1
                      (cbs (lockedRefs wE1 l)) wE1 c (sameSurroundings_refl wE1)
                      eq_refl Hk eq_refl Hfin (or_introl eq_refl)) as (H & _). }
    rewrite (surjective_pairing (lockedRepresentations_setValue [] l (Some lock) w)),
      Hsnd1.
    set (w1 := fst (lockedRepresentations_setValue [] l (Some lock) w)) in *.
    destruct (lock_update_passive l None k c1 w1 Hk1 Hf1 Hlfin1 Hin1)
      as (_ & _ & _ & c2 & Hk2 & _ & _ & Hv2).
    set (wE2 := set_lockedRefs _ w1) in *.
    exists c2. split; [exact Hk2|].
    rewrite Hv2, Hi1, Hv1, Hheld.
    (* the candidates of both recomputes *)
    assert (Hplay1 : getPlayableRepresentations wE2 a = getPlayableRepresentations w a).
    { unfold getPlayableRepresentations, wE2. cbn [isPlayable adaptations set_lockedRefs].
      rewrite (same_isPlayable _ _ Hs1), (same_representations _ _ Hs1).
      reflexivity. }
    assert (Hc2 : candidates wE2 (trackInfo c)
                  = (getPlayableRepresentations w a, "lazy"%string)).
    { unfold candidates. fold l.
      assert (Hl2 : getValue (lockedRefs wE2 l) = None).
      { unfold wE2. cbn [lockedRefs set_lockedRefs].
        unfold update. rewrite Nat.eqb_refl. unfold setValue, getValue.
        now rewrite Hlfin1. }
      rewrite Hl2. fold a. now rewrite Hplay1. }
    assert (Hunlock : forall v,
              recomputed wE2 (trackInfo c) v
              = if changed v (representations (unlockedChoice w a))
                then unlockedChoice w a else v).
    { intros v. unfold recomputed, sortedChoice. rewrite Hc2. cbn [fst snd].
      destruct (getPlayableRepresentations w a) eqn:Hp; [contradiction|].
      unfold unlockedChoice. now rewrite Hp. }
    rewrite Hunlock. unfold recomputed.
    destruct (fst (candidates wE1 (trackInfo c))) as [|r cands1] eqn:Hcands1.
    + destruct (changed _ _) eqn:Hch; [reflexivity|reflexivity].
    + destruct (changed (unlockedChoice w a) _) eqn:Hch1.
      * apply changed_spec in Hch1. apply differs_sym in Hch1.
        assert (Hch2 : changed (sortedChoice wE1 (trackInfo c))
                         (representations (unlockedChoice w a)) = true).
        { apply changed_spec. unfold sortedChoice. cbn [representations] in *.
          now rewrite Hcands1. }
        now rewrite Hch2.
      * now destruct (changed (unlockedChoice w a)
                        (representations (unlockedChoice w a))).
Qed.

Lemma lock_round_trip_from_unlocked_witness :
  exists c',
    closures
      (fst (run [opSetLocked 0 (Some Sample.lockR1); opSetLocked 0 None]
              (fst (start [] (Some (Sample.setting 0 0)) Sample.fresh), [])))
      !! 0 = Some c' /\
    getValue (reference c')
    = {| representations := [Sample.R1; Sample.R3; Sample.R5];
         representationsSwitchingMode := "lazy" |}.
Proof.
  destruct lock_round_trip_from_unlocked as [_ H].
  apply (H 0 _ Sample.lockR1
           (fst (start [] (Some (Sample.setting 0 0)) Sample.fresh)) eq_refl).
  - reflexivity.
  - reflexivity.
  - left. reflexivity.
  - vm_compute. discriminate.
  - reflexivity.
Defined.

(** C8, as stated, fails in two ways.  First run: the Adaptation holds [R1]
    alone and the dispatcher is started while its Representations are locked
    to [R1] in "direct" mode; once the lock is set to [null], the
    sub-reference still holds the "direct" mode.  Second run: the dispatcher
    is started unlocked on the Adaptation holding [R5], [R1], [R3], the
    Representations are locked to [R1] in "direct" mode, then [R3] and [R5]
    stop being playable and the Manifest says so; once the lock is set to
    [null], the sub-reference still holds the "direct" mode.  In both, the
    playable Representations of the Adaptation are [R1] when the lock is
    removed. *)
Lemma lock_round_trip_counterexample :
  (let w := fst (run [opStart (Some (Sample.setting 1 1)); opSetLocked 1 None]
                   (Sample.freshLocked, [])) in
   getPlayableRepresentations w 1 = [Sample.R1] /\
   getValue (lockedRefs w 1) = None /\
   exists c,
     closures w !! 0 = Some c /\
     trackInfo c = Sample.setting 1 1 /\
     getValue (reference c)
     = {| representations := [Sample.R1];
          representationsSwitchingMode := "direct" |} /\
     getValue (reference c) <> unlockedChoice w 1) /\
  (let w := fst (run [opStart (Some (Sample.setting 0 0));
                      opSetLocked 0 (Some Sample.lockR1);
                      opSetPlayable Sample.onlyR1;
                      opManifestEvent decipherabilityUpdate;
                      opSetLocked 0 None]
                   (Sample.fresh, [])) in
   getPlayableRepresentations w 0 = [Sample.R1] /\
   getValue (lockedRefs w 0) = None /\
   exists c,
     closures w !! 0 = Some c /\
     trackInfo c = Sample.setting 0 0 /\
     getValue (reference c)
     = {| representations := [Sample.R1];
          representationsSwitchingMode := "direct" |} /\
     getValue (reference c) <> unlockedChoice w 0).
Proof.
  split; cbv zeta.
  - split; [reflexivity|]. split; [reflexivity|].
    eexists. split; [reflexivity|]. split; [reflexivity|]. split; [reflexivity|].
    vm_compute. discriminate.
  - split; [reflexivity|]. split; [reflexivity|].
    eexists. split; [reflexivity|]. split; [reflexivity|]. split; [reflexivity|].
    vm_compute. discriminate.
Qed.

(** ** Further properties of the class *)

(** *** Properties kept by every method *)

Lemma prepared_allocated c info w :
  prepared c info w = allocated info (entered c w).
Proof. reflexivity. Qed.

Section Preservation.

Variable P : World -> Prop.

Hypothesis P_token : forall b w, P w -> P (set_updateToken b w).
Hypothesis P_replaced : forall w, P w -> P (replaced w).
Hypothesis P_allocated : forall info w, P w -> P (allocated info w).
Hypothesis P_triggered :
  forall evt w, P w -> P (set_triggered (triggered w ++ [evt]) w).
Hypothesis P_isSupported : forall a w, P w -> P (set_isSupported a false w).
Hypothesis P_publish :
  forall k cands mode w,
    cands <> [] -> P w ->
    P (reference_setValue k
         {| representations := sort compareBitrate cands;
            representationsSwitchingMode := mode |} w).
Hypothesis P_committed :
  forall c k w,
    P w ->
    (forall info, callSetting c = Some info ->
       exists cl, closures w !! k = Some cl /\ trackInfo cl = info) ->
    P (committed c k w).

Lemma preserved_recompute script k w :
  (forall evt w', P w' -> P (fst (trigger script evt w'))) ->
  P w -> P (fst (updateReferenceIfNeeded script k w)).
Proof.
  intros Htrig Hw. unfold updateReferenceIfNeeded.
  destruct (closures w !! k) as [c|] eqn:Hk.
  - rewrite (recompute_eq _ _ _ _ _ Hk).
    destruct (fst (candidates w (trackInfo c))) as [|r cands] eqn:Hc.
    + destruct (isLocked w (trackInfo c)); apply Htrig; [exact Hw|].
      now apply P_isSupported.
    + destruct (changed _ _); cbn [fst]; [|exact Hw].
      unfold sortedChoice. apply P_publish; [|exact Hw].
      rewrite Hc. discriminate.
  - unfold updateReferenceIfNeeded_with. now rewrite Hk.
Qed.

Lemma preserved_entered c w : P w -> P (entered c w).
Proof.
  intros Hw. unfold entered. destruct c.
  - now apply P_token.
  - apply (P_replaced (set_updateToken true w)). now apply P_token.
Qed.

Lemma preserved_enter script :
  (forall evt w', P w' -> P (fst (trigger script evt w'))) ->
  forall c w, P w -> P (fst (enter script c w)).
Proof.
  intros Htrig c w Hw.
  destruct (callSetting c) as [info|] eqn:Hset.
  - rewrite (enter_eq _ _ _ _ Hset), prepared_allocated.
    destruct (prepared_fields c info w) as (Hcls & Hlen & _).
    rewrite prepared_allocated in Hcls. rewrite Hlen.
    assert (H1 : P (allocated info (entered c w)))
      by now apply P_allocated, preserved_entered.
    pose proof (preserved_recompute script (length (closures w)) _ Htrig H1) as H2.
    destruct (recompute_fresh script (trigger_spec script) _ _ _ Hcls)
      as (_ & _ & (cl & Hcl & Hinfo) & _).
    unfold updateReferenceIfNeeded in H2.
    set (o := updateReferenceIfNeeded_with _ _ _ _) in *.
    unfold concluded. destruct (negb (_updateToken (fst o))); [exact H2|].
    cbn [fst]. apply (P_committed c (length (closures w)) (fst o) H2).
    intros info' Hinfo'. exists cl. split; [exact Hcl|]. cbn in Hinfo. congruence.
  - destruct c as [p|p]; simpl in Hset; subst p;
      unfold enter, start, start_with, updateTrack, updateTrack_with.
    + cbn [fst]. apply (P_committed (cStart None) 0 (set_updateToken true w)).
      * now apply P_token.
      * discriminate.
    + cbn [_lastEmitted set_updateToken].
      assert (Hcommit :
        P (adaptationRef_setValue Null
             (set_lastEmitted Null
                (set_canceller newTaskCanceller
                   (cancel (set_updateToken false (set_updateToken true w))))))).
      { pose proof (P_committed (cUpdateTrack None) 0
                      (replaced (set_updateToken false (set_updateToken true w)))) as H.
        unfold committed, replaced in H. cbn [published snapshot callSetting] in H.
        pose proof (quiet_cancel (set_updateToken false (set_updateToken true w)))
          as [_ _ _ _ _ Hq _ _ _].
        cbn in Hq.
        set (Y := set_canceller newTaskCanceller _) in *.
        assert (HY : set_updateToken false (set_lastEmitted Null Y)
                     = set_lastEmitted Null Y).
        { unfold set_updateToken, set_lastEmitted, Y. cbn. now rewrite Hq. }
        rewrite HY in H. apply H.
        - apply (P_replaced (set_updateToken false (set_updateToken true w))).
          now do 2 apply P_token.
        - discriminate. }
      destruct (_lastEmitted w); cbn [fst]; [exact Hcommit| |exact Hcommit].
      now apply P_token.
Qed.

Lemma preserved_trigger script evt w :
  P w -> P (fst (trigger script evt w)).
Proof.
  revert evt w. induction script as [|r rest IH]; intros evt w Hw.
  - rewrite trigger_passive. now apply P_triggered.
  - pose proof (P_triggered evt w Hw) as H0.
    cbn [trigger]. destruct (negb (hasListeners _)); [exact H0|].
    destruct r as [|p|p]; [exact H0| |].
    + apply (preserved_enter rest IH (cStart p)). exact H0.
    + apply (preserved_enter rest IH (cUpdateTrack p)). exact H0.
Qed.

(** What the rest of the player does, and [dispose]. *)
Hypothesis P_dispose : forall w, P w -> P (dispose w).
Hypothesis P_listen : forall w, P w -> P (set_hasListeners true w).
Hypothesis P_locked :
  forall l v w, P w ->
    P (set_lockedRefs (update (lockedRefs w) l (setValue v (lockedRefs w l))) w).
Hypothesis P_isPlayable : forall f w, P w -> P (set_isPlayable f w).
Hypothesis P_representations :
  forall a reps w, P w ->
    P (set_adaptations
         (update (adaptations w) a
            {| adaptationRepresentations := reps;
               isSupported := isSupported (adaptations w a) |}) w).

Lemma preserved_callListeners ks o :
  P (fst o) -> P (fst (callListeners ks o)).
Proof.
  revert o. induction ks as [|k ks IH]; intros o Ho; simpl; [exact Ho|].
  apply IH. apply preserved_recompute; [intros; now apply preserved_trigger | exact Ho].
Qed.

Lemma preserved_callSubscribers l ks o :
  P (fst o) -> P (fst (callSubscribers l ks o)).
Proof.
  revert o. induction ks as [|k ks IH]; intros o Ho; simpl; [exact Ho|].
  apply IH. destruct (existsb _ _); [|exact Ho].
  apply preserved_recompute; [intros; now apply preserved_trigger | exact Ho].
Qed.

Lemma preserved_step op o : P (fst o) -> P (fst (step op o)).
Proof.
  destruct o as [w script]. cbn [fst]. intros Hw.
  destruct op; cbn [step fst].
  - apply (preserved_enter script (preserved_trigger script) (cStart _) w Hw).
  - apply (preserved_enter script (preserved_trigger script) (cUpdateTrack _) w Hw).
  - now apply P_dispose.
  - now apply P_listen.
  - now apply (preserved_callListeners _ (w, script)).
  - unfold lockedRepresentations_setValue.
    destruct (isFinished (lockedRefs w l)); [exact Hw|].
    apply (preserved_callSubscribers l _ (_, script)). cbn [fst].
    now apply P_locked.
  - now apply P_isPlayable.
  - now apply P_representations.
Qed.

Lemma preserved_run ops o : P (fst o) -> P (fst (run ops o)).
Proof.
  revert o. induction ops as [|op ops IH]; intros o Ho; simpl; [exact Ho|].
  apply IH. now apply preserved_step.
Qed.

End Preservation.

Lemma quiet_replaced w : quiet w (replaced w).
Proof.
  unfold replaced.
  eapply quiet_trans; [apply quiet_cancel | apply quiet_set_canceller].
Qed.

Lemma quiet_allocated info w :
  quiet
    (set_closures
       (closures w ++
          [{| trackInfo := info;
              reference := newSharedReference
                {| representations := [];
                   representationsSwitchingMode := "lazy" |} |}]) w)
    (allocated info w).
Proof.
  unfold allocated.
  eapply quiet_trans; [|apply quiet_onUpdate].
  eapply quiet_trans; [|apply quiet_register].
  eapply quiet_trans; [|apply quiet_addEventListener].
  apply quiet_addEventListener.
Qed.

(** *** The snapshot and the value sent *)

Lemma snapshotAgrees_same w w' :
  _adaptationRef w' = _adaptationRef w ->
  _lastEmitted w' = _lastEmitted w ->
  snapshotAgrees w -> snapshotAgrees w'.
Proof. unfold snapshotAgrees. intros -> ->. auto. Qed.

Lemma snapshotAgrees_quiet w w' :
  quiet w w' -> snapshotAgrees w -> snapshotAgrees w'.
Proof. intros [_ _ _ H1 H2 _ _ _ _]. now apply snapshotAgrees_same. Qed.

Lemma snapshotAgrees_committed c k w : snapshotAgrees (committed c k w).
Proof.
  unfold snapshotAgrees, committed, adaptationRef_setValue, setValue, getValue.
  cbn. destruct (isFinished (_adaptationRef w)) eqn:Hfin; cbn.
  - intros Hf. congruence.
  - intros _. unfold snapshot, published.
    destruct c as [[info|]|[info|]]; cbn; try reflexivity;
      (split; [reflexivity|]); eexists; now repeat split.
Qed.

Lemma snapshotAgrees_finished w :
  isFinished (_adaptationRef w) = true -> snapshotAgrees w.
Proof. unfold snapshotAgrees. intros H1 H2. congruence. Qed.

(** X1. In every world reached from a new dispatcher, as long as
    [_adaptationRef] is not finished, [_lastEmitted] describes the value it
    holds: [null] for [null], and for a snapshot a choice with the same
    Adaptation and the same switching mode; the locked Representations of a
    snapshot are always [null]. *)
Theorem snapshot_describes_value playable adapts locks adaptationRef ops script :
  snapshotAgrees
    (fst (run ops (newTrackDispatcher playable adapts locks adaptationRef, script))).
Proof.
  apply (preserved_run snapshotAgrees).
  - intros b w0. now apply snapshotAgrees_same.
  - intros w0. apply snapshotAgrees_quiet, quiet_replaced.
  - intros info w0 H. apply (snapshotAgrees_quiet _ _ (quiet_allocated info w0)).
    revert H. now apply snapshotAgrees_same.
  - intros evt w0. now apply snapshotAgrees_same.
  - intros a w0. now apply snapshotAgrees_same.
  - intros k cands mode w0 _.
    destruct (reference_setValue_fields k
                {| representations := sort compareBitrate cands;
                   representationsSwitchingMode := mode |} w0) as (H1 & H2 & _).
    now apply snapshotAgrees_same.
  - intros c k w0 _ _. apply snapshotAgrees_committed.
  - intros w0 _. now apply snapshotAgrees_finished.
  - intros w0. now apply snapshotAgrees_same.
  - intros l v w0. now apply snapshotAgrees_same.
  - intros f w0. now apply snapshotAgrees_same.
  - intros a reps w0. now apply snapshotAgrees_same.
  - intros _. exact I.
Qed.

(** *** The sub-reference of a choice *)

Lemma choiceBacked_extended w w' v :
  (forall k c, closures w !! k = Some c ->
     exists c', closures w' !! k = Some c' /\ trackInfo c' = trackInfo c) ->
  choiceBacked w v -> choiceBacked w' v.
Proof.
  intros Hext. destruct v as [| |c]; try (intros _; exact I).
  intros (cl & Hcl & Ha & Hs).
  destruct (Hext _ _ Hcl) as (cl' & Hcl' & Hinfo).
  exists cl'. rewrite Hinfo. now repeat split.
Qed.

Lemma choicesBacked_extended w w' :
  _adaptationRef w' = _adaptationRef w ->
  (forall k c, closures w !! k = Some c ->
     exists c', closures w' !! k = Some c' /\ trackInfo c' = trackInfo c) ->
  choicesBacked w -> choicesBacked w'.
Proof.
  unfold choicesBacked. intros -> Hext H.
  eapply List.Forall_impl; [|exact H].
  intros v. now apply choiceBacked_extended.
Qed.

Lemma choicesBacked_same w w' :
  _adaptationRef w' = _adaptationRef w ->
  closures w' = closures w ->
  choicesBacked w -> choicesBacked w'.
Proof.
  intros Hr Hc. apply choicesBacked_extended; [exact Hr|].
  intros k c Hk. exists c. now rewrite Hc.
Qed.

Lemma choicesBacked_quiet w w' :
  quiet w w' -> choicesBacked w -> choicesBacked w'.
Proof. intros [_ _ _ H1 _ _ _ H2 _]. now apply choicesBacked_same. Qed.

Lemma reference_setValue_extends k v w :
  forall j c, closures w !! j = Some c ->
    exists c', closures (reference_setValue k v w) !! j = Some c' /\
               trackInfo c' = trackInfo c.
Proof.
  intros j c Hj. unfold reference_setValue.
  destruct (closures w !! k) as [ck|] eqn:Hk; [|now exists c].
  cbn. destruct (Nat.eq_dec k j) as [->|Hne].
  - rewrite list_lookup_insert_eq by now apply lookup_lt_Some in Hj.
    eexists. split; [reflexivity|]. cbn. congruence.
  - rewrite list_lookup_insert_ne by exact Hne. now exists c.
Qed.

(** X2. Every choice sent through an [_adaptationRef] that had received
    nothing before the dispatcher was built names a sub-reference that
    exists, allocated for a track setting with the Adaptation and the
    switching mode of the choice: this holds of everything received, in
    every world reached from the new dispatcher. *)
Theorem choices_name_their_closure playable adapts locks adaptationRef ops script :
  history adaptationRef = [] ->
  choicesBacked
    (fst (run ops (newTrackDispatcher playable adapts locks adaptationRef, script))).
Proof.
  intros Hinit.
  apply (preserved_run choicesBacked).
  - intros b w0. now apply choicesBacked_same.
  - intros w0. apply choicesBacked_quiet, quiet_replaced.
  - intros info w0 H. apply (choicesBacked_quiet _ _ (quiet_allocated info w0)).
    revert H. apply choicesBacked_extended; [reflexivity|].
    intros k c Hk. exists c. split; [|reflexivity].
    cbn. now apply lookup_app_l_Some.
  - intros evt w0. now apply choicesBacked_same.
  - intros a w0. now apply choicesBacked_same.
  - intros k cands mode w0 _. apply choicesBacked_extended.
    + apply reference_setValue_fields.
    + apply reference_setValue_extends.
  - intros c k w0 H Hcl. unfold choicesBacked, committed, adaptationRef_setValue.
    cbn. unfold setValue. destruct (isFinished (_adaptationRef w0)); [exact H|].
    cbn. apply Forall_app. split; [exact H|].
    constructor; [|constructor].
    unfold published. destruct c as [[info|]|[info|]]; try exact I;
      destruct (Hcl info eq_refl) as (cl & Hk & Hinfo); exists cl; cbn;
      rewrite Hinfo; now repeat split.
  - intros w0 H. unfold dispose. unfold choicesBacked in *. cbn.
    pose proof (quiet_cancel (set_hasListeners false w0)) as [_ _ _ H1 _ _ _ H2 _].
    cbn in H1, H2. rewrite H1.
    eapply List.Forall_impl; [|exact H].
    intros v. apply choiceBacked_extended.
    intros k c Hk. exists c. cbn. now rewrite H2.
  - intros w0. now apply choicesBacked_same.
  - intros l v w0. now apply choicesBacked_same.
  - intros f w0. now apply choicesBacked_same.
  - intros a reps w0. now apply choicesBacked_same.
  - unfold choicesBacked. cbn. rewrite Hinit. constructor.
Qed.

Lemma choices_name_their_closure_witness :
  choicesBacked
    (fst (run [opAddEventListener; opStart (Some (Sample.setting 2 0));
               opUpdateTrack (Some (Sample.setting 0 0)); opUpdateTrack None]
            (newTrackDispatcher Sample.allPlayable Sample.adapts Sample.unlocked
               (newSharedReference Undefined), []))).
Proof.
  apply (choices_name_their_closure Sample.allPlayable Sample.adapts
           Sample.unlocked (newSharedReference Undefined)).
  reflexivity.
Defined.

(** *** The closures, once allocated *)

Lemma closuresExtended_refl w : closuresExtended w w.
Proof. intros k c Hk. exists c. now repeat split. Qed.

Lemma closuresExtended_trans w1 w2 w3 :
  closuresExtended w1 w2 -> closuresExtended w2 w3 -> closuresExtended w1 w3.
Proof.
  intros H12 H23 k c Hk.
  destruct (H12 k c Hk) as (c2 & Hk2 & Hi2 & Hh2).
  destruct (H23 k c2 Hk2) as (c3 & Hk3 & Hi3 & Hh3).
  exists c3. split; [exact Hk3|]. split; [congruence|].
  now transitivity (history (reference c2)).
Qed.

Lemma closuresExtended_same w w' :
  closures w' = closures w -> closuresExtended w w'.
Proof. intros H k c Hk. exists c. rewrite H. now repeat split. Qed.

Lemma mutation_closures w w' :
  mutation w w' ->
  closuresExtended w w' /\ (referencesLive w -> referencesLive w').
Proof.
  destruct 1; try (split; [now apply closuresExtended_same | exact (fun H => H)]).
  - (* a closure is allocated *)
    split.
    + intros k c Hk. exists c. cbn. split; [now apply lookup_app_l_Some|].
      now split.
    + intros Hlive k c Hk. cbn in Hk.
      apply lookup_app_Some in Hk as [Hk|[_ Hk]]; [now apply (Hlive k)|].
      destruct (k - length (closures w)); simpl in Hk; [|discriminate].
      now injection Hk as <-.
  - (* a reference is written *)
    unfold reference_setValue.
    destruct (closures w !! k) as [ck|] eqn:Hk;
      [|split; [apply closuresExtended_refl | exact (fun H => H)]].
    split.
    + intros j c Hj. cbn [closures set_closures].
      destruct (Nat.eq_dec k j) as [->|Hne].
      * rewrite list_lookup_insert_eq by now apply lookup_lt_Some in Hj.
        eexists. split; [reflexivity|]. cbn.
        assert (ck = c) by congruence. subst ck. split; [reflexivity|].
        unfold setValue. destruct (isFinished (reference c)); cbn;
          [reflexivity | now apply prefix_app_r].
      * rewrite list_lookup_insert_ne by exact Hne. exists c. now repeat split.
    + intros Hlive j c Hj. cbn [closures set_closures] in Hj.
      destruct (Nat.eq_dec k j) as [->|Hne].
      * rewrite list_lookup_insert_eq in Hj by now apply lookup_lt_Some in Hk.
        injection Hj as <-. cbn. unfold setValue.
        pose proof (Hlive j ck Hk) as Hf. now rewrite Hf.
      * rewrite list_lookup_insert_ne in Hj by exact Hne. now apply (Hlive j).
Qed.

Lemma disturbance_closures w w' :
  disturbance w w' ->
  closuresExtended w w' /\ (referencesLive w -> referencesLive w').
Proof.
  destruct 1; (split; [now apply closuresExtended_same | exact (fun H => H)]).
Qed.

Lemma evolution_closures w w' :
  evolution w w' ->
  closuresExtended w w' /\ (referencesLive w -> referencesLive w').
Proof.
  induction 1 as [w|w1 w2 w3 Hstep _ [IH1 IH2]].
  - split; [apply closuresExtended_refl | exact (fun H => H)].
  - assert (H12 : closuresExtended w1 w2 /\ (referencesLive w1 -> referencesLive w2)).
    { destruct Hstep as [Hm|Hd];
        [now apply mutation_closures | now apply disturbance_closures]. }
    destruct H12 as [H1 H2]. split.
    + now apply (closuresExtended_trans w1 w2 w3).
    + auto.
Qed.

(** X3. Whatever is done to the dispatcher and around it, a closure once
    allocated stays at its index with the track setting it captured, and
    what its reference has received is only added to; and the dispatcher
    never finishes a sub-reference: if none is finished before a run, none
    is after it. *)
Theorem closures_are_kept ops o :
  closuresExtended (fst o) (fst (run ops o)) /\
  (referencesLive (fst o) -> referencesLive (fst (run ops o))).
Proof. apply evolution_closures, evolution_run. Qed.

Lemma closures_are_kept_witness :
  referencesLive
    (fst (run [opStart (Some (Sample.setting 0 0)); opSetLocked 0 (Some Sample.lockR1);
               opUpdateTrack (Some (Sample.setting 1 0)); opDispose]
            (Sample.fresh, []))).
Proof.
  destruct (closures_are_kept
              [opStart (Some (Sample.setting 0 0)); opSetLocked 0 (Some Sample.lockR1);
               opUpdateTrack (Some (Sample.setting 1 0)); opDispose]
              (Sample.fresh, [])) as [_ H].
  apply H. intros k c Hk. cbn in Hk. discriminate.
Defined.

(** *** [isSupported] *)

Lemma isSupported_same a w w' :
  adaptations w' = adaptations w ->
  isSupported (adaptations w a) = false -> isSupported (adaptations w' a) = false.
Proof. now intros ->. Qed.

(** X4. The dispatcher sets [isSupported] to [false] and never back: an
    Adaptation that is marked as not supported stays so through every run
    of calls to the methods (re-entrant ones included), Manifest events,
    lock updates, changes of playability and replacements of the
    Adaptation's Representations, even when its Representations have become
    playable again. *)
Theorem isSupported_never_restored a ops o :
  isSupported (adaptations (fst o) a) = false ->
  isSupported (adaptations (fst (run ops o)) a) = false.
Proof.
  apply (preserved_run (fun w => isSupported (adaptations w a) = false)).
  - intros b w. now apply isSupported_same.
  - intros w. apply isSupported_same. apply (quiet_adaptations _ _ (quiet_replaced w)).
  - intros info w. apply isSupported_same.
    apply (quiet_adaptations _ _ (quiet_allocated info w)).
  - intros evt w. now apply isSupported_same.
  - intros a' w H. cbn. unfold update. now destruct (Nat.eqb_spec a a').
  - intros k cands mode w _. apply isSupported_same.
    apply reference_setValue_fields.
  - intros c k w H _. revert H. now apply isSupported_same.
  - intros w. apply isSupported_same. unfold dispose. cbn.
    apply (quiet_adaptations _ _ (quiet_cancel (set_hasListeners false w))).
  - intros w. now apply isSupported_same.
  - intros l v w. now apply isSupported_same.
  - intros f w. now apply isSupported_same.
  - intros a' reps w H. cbn. unfold update. now destruct (Nat.eqb_spec a a'); subst.
Qed.

Lemma isSupported_never_restored_witness :
  isSupported
    (adaptations
       (fst (run [opSetPlayable Sample.allPlayable;
                  opManifestEvent decipherabilityUpdate;
                  opUpdateTrack (Some (Sample.setting 1 0))]
               (fst (run [opStart (Some (Sample.setting 1 0));
                          opSetPlayable Sample.nonePlayable;
                          opManifestEvent decipherabilityUpdate]
                       (Sample.fresh, [])), [])))
       1) = false.
Proof.
  apply (isSupported_never_restored 1
           [opSetPlayable Sample.allPlayable;
            opManifestEvent decipherabilityUpdate;
            opUpdateTrack (Some (Sample.setting 1 0))]
           (fst (run [opStart (Some (Sample.setting 1 0));
                      opSetPlayable Sample.nonePlayable;
                      opManifestEvent decipherabilityUpdate]
                   (Sample.fresh, [])), [])).
  reflexivity.
Defined.

(** *** The registries of listeners and subscriptions *)

Lemma nil_of_no_member {A} (l : list A) : (forall x, ~ In x l) -> l = [].
Proof.
  destruct l as [|a l]; [reflexivity|]. intros H. destruct (H a). now left.
Qed.

Lemma manifestListeners_added k w evt :
  manifestListeners
    (addEventListener manifestUpdate k (addEventListener decipherabilityUpdate k w))
    evt
  = manifestListeners w evt ++ [k].
Proof. now destruct evt. Qed.

Lemma manifestListeners_removed k w evt :
  manifestListeners (runCleanup (removeListeners k) w) evt
  = List.filter (fun c => negb (Nat.eqb c k)) (manifestListeners w evt).
Proof. now destruct evt. Qed.

Lemma filter_other_In k k' (l : list nat) :
  In k' (List.filter (fun c => negb (Nat.eqb c k)) l) <-> In k' l /\ k' <> k.
Proof.
  rewrite List.filter_In. split; intros [H1 H2]; (split; [exact H1|]).
  - intros ->. now rewrite Nat.eqb_refl in H2.
  - now destruct (Nat.eqb_spec k' k).
Qed.

Lemma cbs_update_other {T} (f : nat -> SharedReference T) l r l' :
  l' <> l -> cbs (update f l r l') = cbs (f l').
Proof. intros H. unfold update. now destruct (Nat.eqb_spec l' l). Qed.

Lemma cbs_update_same {T} (f : nat -> SharedReference T) l r :
  cbs (update f l r l) = cbs r.
Proof. unfold update. now rewrite Nat.eqb_refl. Qed.

Lemma cleanups_shrink cs w :
  (forall evt k,
     In k (manifestListeners (fold_left (fun w' c => runCleanup c w') cs w) evt) ->
     In k (manifestListeners w evt)) /\
  (forall l k,
     In k (cbs (lockedRefs (fold_left (fun w' c => runCleanup c w') cs w) l)) ->
     In k (cbs (lockedRefs w l))).
Proof.
  revert w. induction cs as [|c cs IH]; intros w; simpl; [now split|].
  destruct (IH (runCleanup c w)) as [IH1 IH2]. split.
  - intros evt k Hin. apply IH1 in Hin.
    destruct c as [k'|l' k']; [|exact Hin].
    rewrite manifestListeners_removed in Hin. now apply filter_other_In in Hin.
  - intros l k Hin. apply IH2 in Hin.
    destruct c as [k'|l' k']; [exact Hin|].
    cbn in Hin. destruct (Nat.eq_dec l l') as [->|Hne].
    + rewrite cbs_update_same in Hin. cbn in Hin. now apply filter_other_In in Hin.
    + now rewrite cbs_update_other in Hin.
Qed.

Lemma cancel_shrinks w :
  (forall evt k, In k (manifestListeners (cancel w) evt) ->
                 In k (manifestListeners w evt)) /\
  (forall l k, In k (cbs (lockedRefs (cancel w) l)) -> In k (cbs (lockedRefs w l))).
Proof.
  unfold cancel. destruct (isCancelled (_canceller w)); [now split|].
  apply (cleanups_shrink (registered (_canceller w))
           (set_canceller {| isCancelled := true; registered := [] |} w)).
Qed.

(** Cancelling a canceller on which every removal is registered leaves no
    listener and no subscription. *)
Lemma cancel_empties w :
  registryConsistent w ->
  (forall evt, manifestListeners (cancel w) evt = []) /\
  (forall l, cbs (lockedRefs (cancel w) l) = []).
Proof.
  intros [Hm Hs]. unfold cancel.
  destruct (isCancelled (_canceller w)) eqn:Hc.
  - split.
    + intros evt. apply nil_of_no_member. intros k Hin.
      destruct (Hm evt k Hin). congruence.
    + intros l. apply nil_of_no_member. intros k Hin.
      destruct (Hs l k Hin). congruence.
  - set (w0 := set_canceller {| isCancelled := true; registered := [] |} w).
    split.
    + intros evt. apply nil_of_no_member. intros k.
      apply (cleanups_detach (registered (_canceller w)) k w0).
      destruct (in_dec Nat.eq_dec k (manifestListeners w decipherabilityUpdate))
        as [H1|H1]; [left; now apply (Hm decipherabilityUpdate)|].
      destruct (in_dec Nat.eq_dec k (manifestListeners w manifestUpdate))
        as [H2|H2]; [left; now apply (Hm manifestUpdate)|].
      right. now intros [].
    + intros l. apply nil_of_no_member. intros k.
      apply (cleanups_unsubscribe (registered (_canceller w)) l k w0).
      destruct (in_dec Nat.eq_dec k (cbs (lockedRefs w l))) as [H1|H1];
        [left; now apply (Hs l) | now right].
Qed.

Lemma registryConsistent_same w w' :
  manifestListeners w' = manifestListeners w ->
  (forall l, cbs (lockedRefs w' l) = cbs (lockedRefs w l)) ->
  _canceller w' = _canceller w ->
  registryConsistent w -> registryConsistent w'.
Proof.
  intros Hm Hs Hc [H1 H2]. unfold registryConsistent.
  rewrite Hm, Hc. split; [exact H1|].
  intros l k. rewrite Hs. apply H2.
Qed.

Lemma registryConsistent_empty w :
  (forall evt, manifestListeners w evt = []) ->
  (forall l, cbs (lockedRefs w l) = []) ->
  registryConsistent w.
Proof.
  intros Hm Hs. split.
  - intros evt k. rewrite Hm. intros [].
  - intros l k. rewrite Hs. intros [].
Qed.

Lemma registryConsistent_replaced w :
  registryConsistent w -> registryConsistent (replaced w).
Proof.
  intros H. destruct (cancel_empties w H) as [Hm Hs].
  now apply registryConsistent_empty.
Qed.

Lemma registryConsistent_listener k w :
  registryConsistent w ->
  registryConsistent
    (register (removeListeners k)
       (addEventListener manifestUpdate k
          (addEventListener decipherabilityUpdate k w))).
Proof.
  intros [Hm Hs].
  set (w3 := addEventListener manifestUpdate k
               (addEventListener decipherabilityUpdate k w)).
  unfold register. change (_canceller w3) with (_canceller w).
  destruct (isCancelled (_canceller w)) eqn:Hc.
  - split.
    + intros evt k'. rewrite manifestListeners_removed. unfold w3.
      rewrite manifestListeners_added, filter_other_In, in_app_iff.
      intros [[Hin|[->|[]]] Hne]; [|contradiction].
      destruct (Hm evt k' Hin). congruence.
    + intros l k' Hin. destruct (Hs l k' Hin). congruence.
  - split.
    + intros evt k'. cbn [manifestListeners set_canceller _canceller isCancelled
                            registered].
      unfold w3. rewrite manifestListeners_added, !in_app_iff.
      intros [Hin|[->|[]]]; (split; [reflexivity|]).
      * left. now apply (Hm evt).
      * right. now left.
    + intros l k' Hin. cbn in Hin |- *. split; [reflexivity|].
      rewrite in_app_iff. left. now apply (Hs l).
Qed.

Lemma registryConsistent_subscription l k w :
  registryConsistent w ->
  registryConsistent (lockedRepresentations_onUpdate l k w).
Proof.
  intros [Hm Hs]. unfold lockedRepresentations_onUpdate.
  destruct (isFinished (lockedRefs w l)) eqn:Hfin; [now split|].
  set (w1 := set_lockedRefs _ w).
  assert (Hcbs : forall l' k', In k' (cbs (lockedRefs w1 l')) ->
                   In k' (cbs (lockedRefs w l')) \/ (l' = l /\ k' = k)).
  { intros l' k'. unfold w1. cbn. destruct (Nat.eq_dec l' l) as [->|Hne].
    - rewrite cbs_update_same. unfold onUpdate. rewrite Hfin. cbn.
      rewrite in_app_iff. intros [H|[->|[]]]; auto.
    - rewrite cbs_update_other by exact Hne. auto. }
  unfold register. change (_canceller w1) with (_canceller w).
  destruct (isCancelled (_canceller w)) eqn:Hc.
  - split.
    + intros evt k' Hin. destruct (Hm evt k' Hin). congruence.
    + intros l' k' Hin. exfalso.
      assert (Hin1 : In k' (cbs (lockedRefs w1 l')) /\ (l' = l -> k' <> k)).
      { cbn in Hin. destruct (Nat.eq_dec l' l) as [->|Hne].
        - rewrite cbs_update_same in Hin. cbn in Hin.
          apply filter_other_In in Hin. tauto.
        - rewrite cbs_update_other in Hin by exact Hne. tauto. }
      destruct Hin1 as [Hin1 Hne].
      destruct (Hcbs l' k' Hin1) as [H|[-> ->]].
      * destruct (Hs l' k' H). congruence.
      * now apply Hne.
  - split.
    + intros evt k' Hin. cbn in Hin |- *. split; [reflexivity|].
      rewrite in_app_iff. left. now apply (Hm evt).
    + intros l' k' Hin. cbn [_canceller set_canceller isCancelled registered].
      split; [reflexivity|]. rewrite in_app_iff.
      destruct (Hcbs l' k' Hin) as [H|[-> ->]].
      * left. now apply (Hs l').
      * right. now left.
Qed.

Lemma registryConsistent_allocated info w :
  registryConsistent w -> registryConsistent (allocated info w).
Proof.
  intros H. unfold allocated.
  apply registryConsistent_subscription, registryConsistent_listener.
  revert H. now apply registryConsistent_same.
Qed.

Lemma registryConsistent_dispose w :
  registryConsistent w -> registryConsistent (dispose w).
Proof.
  intros H. unfold dispose.
  destruct (cancel_empties (set_hasListeners false w)) as [Hm Hs].
  { revert H. now apply registryConsistent_same. }
  now apply registryConsistent_empty.
Qed.

Lemma registryConsistent_run playable adapts locks adaptationRef ops script :
  (forall l, cbs (locks l) = []) ->
  registryConsistent
    (fst (run ops (newTrackDispatcher playable adapts locks adaptationRef, script))).
Proof.
  intros Hlocks.
  apply (preserved_run registryConsistent).
  - intros b w. now apply registryConsistent_same.
  - apply registryConsistent_replaced.
  - apply registryConsistent_allocated.
  - intros evt w. now apply registryConsistent_same.
  - intros a w. now apply registryConsistent_same.
  - intros k cands mode w _. unfold reference_setValue.
    destruct (closures w !! k); [|exact (fun H => H)].
    now apply registryConsistent_same.
  - intros c k w H _. revert H. now apply registryConsistent_same.
  - apply registryConsistent_dispose.
  - intros w. now apply registryConsistent_same.
  - intros l v w. apply registryConsistent_same; try reflexivity.
    intros l'. cbn. destruct (Nat.eq_dec l' l) as [->|Hne].
    + rewrite cbs_update_same. unfold setValue.
      now destruct (isFinished (lockedRefs w l)).
    + now rewrite cbs_update_other.
  - intros f w. now apply registryConsistent_same.
  - intros a reps w. now apply registryConsistent_same.
  - now apply registryConsistent_empty.
Qed.

(** X5. [dispose] leaves nothing attached: in every world reached from a
    new dispatcher whose locked-Representations references had no
    subscriber, once [dispose] has returned no closure listens to an event
    of the Manifest and no closure is subscribed to a locked-Representations
    reference, whatever calls (re-entrant ones, repeated [start]s) came
    before. *)
Theorem dispose_detaches_everything playable adapts locks adaptationRef ops script :
  (forall l, cbs (locks l) = []) ->
  (forall evt,
     manifestListeners
       (dispose (fst (run ops (newTrackDispatcher playable adapts locks
                                 adaptationRef, script)))) evt = []) /\
  (forall l,
     cbs (lockedRefs
            (dispose (fst (run ops (newTrackDispatcher playable adapts locks
                                      adaptationRef, script)))) l) = []).
Proof.
  intros Hlocks.
  pose proof (registryConsistent_run playable adapts locks adaptationRef ops script
                Hlocks) as Hw.
  set (w := fst (run ops _)) in *.
  destruct (cancel_empties (set_hasListeners false w)) as [Hm Hs].
  { revert Hw. now apply registryConsistent_same. }
  now split.
Qed.

Lemma dispose_detaches_everything_witness :
  manifestListeners
    (dispose
       (fst (run [opAddEventListener; opStart (Some (Sample.setting 0 0));
                  opStart (Some (Sample.setting 1 0))]
               (newTrackDispatcher Sample.allPlayable Sample.adapts Sample.unlocked
                  (newSharedReference Undefined), []))))
    manifestUpdate = [].
Proof.
  destruct (dispose_detaches_everything Sample.allPlayable Sample.adapts
              Sample.unlocked (newSharedReference Undefined)
              [opAddEventListener; opStart (Some (Sample.setting 0 0));
               opStart (Some (Sample.setting 1 0))] []) as [H _].
  - reflexivity.
  - apply H.
Defined.

(** *** What [updateTrack] detaches *)

Lemma detachedBelow_same n w w' :
  closures w' = closures w ->
  manifestListeners w' = manifestListeners w ->
  lockedRefs w' = lockedRefs w ->
  detachedBelow n w -> detachedBelow n w'.
Proof. unfold detachedBelow. now intros -> -> ->. Qed.

Lemma detachedBelow_replaced n w :
  detachedBelow n w -> detachedBelow n (replaced w).
Proof.
  intros (Hn & Hm & Hs). destruct (cancel_shrinks w) as [Cm Cs].
  pose proof (quiet_closures _ _ (quiet_replaced w)) as Hc.
  unfold replaced in *. split; [|split].
  - now rewrite Hc.
  - intros evt k Hin. apply (Hm evt). now apply Cm.
  - intros l k Hin. apply (Hs l). now apply Cs.
Qed.

Lemma register_shrinks c w :
  (forall evt k, In k (manifestListeners (register c w) evt) ->
                 In k (manifestListeners w evt)) /\
  (forall l k, In k (cbs (lockedRefs (register c w) l)) ->
               In k (cbs (lockedRefs w l))).
Proof.
  unfold register. destruct (isCancelled (_canceller w)); [|now split].
  apply (cleanups_shrink [c] w).
Qed.

Lemma onUpdate_lists l k w :
  (forall evt k', In k' (manifestListeners (lockedRepresentations_onUpdate l k w) evt) ->
                  In k' (manifestListeners w evt)) /\
  (forall l' k', In k' (cbs (lockedRefs (lockedRepresentations_onUpdate l k w) l')) ->
                 In k' (cbs (lockedRefs w l')) \/ k' = k).
Proof.
  unfold lockedRepresentations_onUpdate.
  destruct (isFinished (lockedRefs w l)) eqn:Hfin; [split; auto|].
  set (w1 := set_lockedRefs _ w).
  destruct (register_shrinks (clearSubscription l k) w1) as [Rm Rs].
  split.
  - intros evt k' Hin. now apply Rm in Hin.
  - intros l' k' Hin. apply Rs in Hin. unfold w1 in Hin. cbn in Hin.
    destruct (Nat.eq_dec l' l) as [->|Hne].
    + rewrite cbs_update_same in Hin. unfold onUpdate in Hin.
      rewrite Hfin in Hin. cbn in Hin.
      apply in_app_iff in Hin as [H|[->|[]]]; auto.
    + rewrite cbs_update_other in Hin by exact Hne. auto.
Qed.

Lemma allocated_lists info w :
  (forall evt k, In k (manifestListeners (allocated info w) evt) ->
                 In k (manifestListeners w evt) \/ k = length (closures w)) /\
  (forall l k, In k (cbs (lockedRefs (allocated info w) l)) ->
               In k (cbs (lockedRefs w l)) \/ k = length (closures w)).
Proof.
  unfold allocated.
  set (k0 := length (closures w)).
  set (w1 := set_closures _ w).
  set (w3 := addEventListener manifestUpdate k0
               (addEventListener decipherabilityUpdate k0 w1)).
  destruct (register_shrinks (removeListeners k0) w3) as [Rm Rs].
  destruct (onUpdate_lists (lockedRepresentations info) k0
              (register (removeListeners k0) w3)) as [Om Os].
  split.
  - intros evt k Hin. apply Om, Rm in Hin. unfold w3 in Hin.
    rewrite manifestListeners_added in Hin.
    apply in_app_iff in Hin as [H|[->|[]]]; auto.
  - intros l k Hin. apply Os in Hin as [Hin| ->]; [|now right].
    apply Rs in Hin. now left.
Qed.

Lemma detachedBelow_allocated n info w :
  detachedBelow n w -> detachedBelow n (allocated info w).
Proof.
  intros (Hn & Hm & Hs).
  pose proof (quiet_closures _ _ (quiet_allocated info w)) as Hc. cbn in Hc.
  destruct (allocated_lists info w) as [Am As].
  split; [|split].
  - rewrite Hc, length_app. lia.
  - intros evt k Hin. apply Am in Hin as [H| ->]; [now apply (Hm evt) | exact Hn].
  - intros l k Hin. apply As in Hin as [H| ->]; [now apply (Hs l) | exact Hn].
Qed.

Lemma detachedBelow_publish n k v w :
  detachedBelow n w -> detachedBelow n (reference_setValue k v w).
Proof.
  intros (Hn & Hm & Hs). unfold reference_setValue.
  destruct (closures w !! k); [|now split].
  split; [|now split]. cbn. now rewrite length_insert.
Qed.

(** The methods keep every closure older than the [n]-th detached. *)
Lemma detachedBelow_recompute n script k w :
  detachedBelow n w -> detachedBelow n (fst (updateReferenceIfNeeded script k w)).
Proof.
  apply (preserved_recompute (detachedBelow n)).
  - intros a w0. now apply detachedBelow_same.
  - intros k0 cands mode w0 _. apply detachedBelow_publish.
  - intros evt w0. apply (preserved_trigger (detachedBelow n)).
    + intros b w1. now apply detachedBelow_same.
    + apply detachedBelow_replaced.
    + apply detachedBelow_allocated.
    + intros evt' w1. now apply detachedBelow_same.
    + intros a w1. now apply detachedBelow_same.
    + intros k0 cands mode w1 _. apply detachedBelow_publish.
    + intros c k0 w1 H _. revert H. now apply detachedBelow_same.
Qed.

Section FromTheFirstRecompute.

Variable P : World -> Prop.

Hypothesis P_token : forall b w, P w -> P (set_updateToken b w).
Hypothesis P_replaced : forall w, P w -> P (replaced w).
Hypothesis P_allocated : forall info w, P w -> P (allocated info w).
Hypothesis P_triggered :
  forall evt w, P w -> P (set_triggered (triggered w ++ [evt]) w).
Hypothesis P_isSupported : forall a w, P w -> P (set_isSupported a false w).
Hypothesis P_publish :
  forall k cands mode w,
    cands <> [] -> P w ->
    P (reference_setValue k
         {| representations := sort compareBitrate cands;
            representationsSwitchingMode := mode |} w).
Hypothesis P_committed :
  forall c k w,
    P w ->
    (forall info, callSetting c = Some info ->
       exists cl, closures w !! k = Some cl /\ trackInfo cl = info) ->
    P (committed c k w).

(** A property that holds once the call has been entered, and that the
    writes of the class keep, holds when the call returns. *)
Lemma preserved_from_entered script c info w :
  callSetting c = Some info ->
  P (entered c w) -> P (fst (enter script c w)).
Proof.
  intros Hset He.
  rewrite (enter_eq _ _ _ _ Hset), prepared_allocated.
  destruct (prepared_fields c info w) as (Hcls & Hlen & _).
  rewrite prepared_allocated in Hcls. rewrite Hlen.
  assert (H1 : P (allocated info (entered c w))) by now apply P_allocated.
  assert (Htrig : forall evt w', P w' -> P (fst (trigger script evt w'))).
  { intros evt w'. now apply preserved_trigger. }
  pose proof (preserved_recompute P P_isSupported P_publish script
                (length (closures w)) _ Htrig H1) as H2.
  destruct (recompute_fresh script (trigger_spec script) _ _ _ Hcls)
    as (_ & _ & (cl & Hcl & Hinfo) & _).
  unfold updateReferenceIfNeeded in H2.
  set (o := updateReferenceIfNeeded_with _ _ _ _) in *.
  unfold concluded. destruct (negb (_updateToken (fst o))); [exact H2|].
  cbn [fst]. apply (P_committed c (length (closures w)) (fst o) H2).
  intros info' Hinfo'. exists cl. split; [exact Hcl|]. cbn in Hinfo. congruence.
Qed.

End FromTheFirstRecompute.

Lemma detachedBelow_from_entered n script c info w :
  callSetting c = Some info ->
  detachedBelow n (entered c w) -> detachedBelow n (fst (enter script c w)).
Proof.
  apply (preserved_from_entered (detachedBelow n)).
  - intros b w1. now apply detachedBelow_same.
  - apply detachedBelow_replaced.
  - apply detachedBelow_allocated.
  - intros evt' w1. now apply detachedBelow_same.
  - intros a w1. now apply detachedBelow_same.
  - intros k0 cands mode w1 _. apply detachedBelow_publish.
  - intros c0 k0 w1 H _. revert H. now apply detachedBelow_same.
Qed.

Lemma replaced_detached w0 n :
  registryConsistent w0 -> n <= length (closures w0) ->
  detachedBelow n (replaced w0).
Proof.
  intros H0 Hn. destruct (cancel_empties w0 H0) as [Hm Hs].
  pose proof (quiet_closures _ _ (quiet_replaced w0)) as Hc.
  unfold replaced in *. split; [|split].
  - now rewrite Hc.
  - intros evt k. cbn. rewrite Hm. intros [].
  - intros l k. cbn. rewrite Hs. intros [].
Qed.

Lemma updateTrack_detaches script newTrackInfo w :
  registryConsistent w ->
  newTrackInfo <> None \/ _lastEmitted w <> Null ->
  detachedBelow (length (closures w))
    (fst (enter script (cUpdateTrack newTrackInfo) w)).
Proof.
  intros Hw Hcase.
  assert (Hcons : forall b, registryConsistent (set_updateToken b (set_updateToken true w))).
  { intros b. revert Hw. now apply registryConsistent_same. }
  destruct newTrackInfo as [info|].
  - apply (detachedBelow_from_entered (length (closures w)) script
             (cUpdateTrack (Some info)) info w eq_refl).
    apply (replaced_detached (set_updateToken true w)); [|reflexivity].
    revert Hw. now apply registryConsistent_same.
  - destruct Hcase as [Hc|Hc]; [contradiction|].
    unfold enter, updateTrack, updateTrack_with. cbn [_lastEmitted set_updateToken].
    pose proof (replaced_detached (set_updateToken false (set_updateToken true w))
                  (length (closures w)) (Hcons false) (le_n _)) as Hd.
    destruct (_lastEmitted w); [|contradiction|]; cbn [fst];
      exact (detachedBelow_same _ _ _ eq_refl eq_refl eq_refl Hd).
Qed.

Lemma enter_updateTrack script p w :
  enter script (cUpdateTrack p) w = updateTrack script p w.
Proof. reflexivity. Qed.

Lemma enter_start script p w :
  enter script (cStart p) w = start script p w.
Proof. reflexivity. Qed.

(** X6. [updateTrack] detaches what came before: in a world reached from a
    new dispatcher whose locked-Representations references had no
    subscriber, after a call to [updateTrack] with a track setting, or with
    [null] when [_lastEmitted] is not [null], no closure allocated before
    the call listens to the Manifest or is subscribed to a
    locked-Representations reference any more, whatever the listeners of
    the dispatcher do during the call. *)
Theorem updateTrack_detaches_older playable adapts locks adaptationRef ops script0
    script newTrackInfo :
  (forall l, cbs (locks l) = []) ->
  newTrackInfo <> None \/
  _lastEmitted
    (fst (run ops (newTrackDispatcher playable adapts locks adaptationRef, script0)))
  <> Null ->
  detachedBelow
    (length
       (closures
          (fst (run ops (newTrackDispatcher playable adapts locks adaptationRef,
                         script0)))))
    (fst (updateTrack script newTrackInfo
            (fst (run ops (newTrackDispatcher playable adapts locks adaptationRef,
                           script0))))).
Proof.
  intros Hlocks Hcase. rewrite <- enter_updateTrack.
  apply updateTrack_detaches; [|exact Hcase].
  now apply registryConsistent_run.
Qed.

Lemma updateTrack_detaches_older_witness :
  detachedBelow
    (length
       (closures
          (fst (run [opAddEventListener; opStart (Some (Sample.setting 0 0));
                     opStart (Some (Sample.setting 1 0))]
                  (newTrackDispatcher Sample.allPlayable Sample.adapts
                     Sample.unlocked (newSharedReference Undefined), [])))))
    (fst (updateTrack [] (Some (Sample.setting 0 0))
            (fst (run [opAddEventListener; opStart (Some (Sample.setting 0 0));
                       opStart (Some (Sample.setting 1 0))]
                    (newTrackDispatcher Sample.allPlayable Sample.adapts
                       Sample.unlocked (newSharedReference Undefined), []))))).
Proof.
  apply (updateTrack_detaches_older Sample.allPlayable Sample.adapts
           Sample.unlocked (newSharedReference Undefined)
           [opAddEventListener; opStart (Some (Sample.setting 0 0));
            opStart (Some (Sample.setting 1 0))] [] []
           (Some (Sample.setting 0 0))).
  - reflexivity.
  - left. discriminate.
Defined.

(** *** A call that finds candidates *)

Lemma changed_from_empty mode sorted :
  sorted <> [] ->
  changed {| representations := []; representationsSwitchingMode := mode |} sorted
  = true.
Proof. intros H. unfold changed. destruct sorted; [contradiction|reflexivity]. Qed.

(** X7. A call to [start] or [updateTrack] with a track setting for which
    the first recompute finds candidates, on a reference that is not
    finished: no event is triggered and no listener runs; one closure is
    allocated, whose reference holds, and has received once, the candidates
    sorted by bitrate with the switching mode of the lock (or "lazy"); the
    choice naming that closure is sent exactly once and [_lastEmitted]
    describes it. *)
Theorem call_with_candidates script c info w :
  callSetting c = Some info ->
  fst (candidates w info) <> [] ->
  isFinished (_adaptationRef w) = false ->
  snd (enter script c w) = script /\
  triggered (fst (enter script c w)) = triggered w /\
  history (_adaptationRef (fst (enter script c w)))
  = history (_adaptationRef w) ++ [published c (length (closures w))] /\
  getValue (_adaptationRef (fst (enter script c w)))
  = published c (length (closures w)) /\
  _lastEmitted (fst (enter script c w)) = snapshot c /\
  closures (fst (enter script c w))
  = closures w ++
      [{| trackInfo := info;
          reference := {| value := sortedChoice w info;
                          isFinished := false;
                          cbs := [];
                          history := [sortedChoice w info] |} |}].
Proof.
  intros Hset Hc Hfin.
  rewrite (enter_eq _ _ _ _ Hset).
  destruct (prepared_fields c info w) as (Hcls & Hlen & Htok & Href & Hlast & Htrig).
  pose proof (internal_surroundings _ _ (internal_prepared c info w)) as Hsur.
  rewrite Hlen.
  set (w1 := prepared c info w) in *.
  set (c0 := {| trackInfo := info;
                reference := newSharedReference
                  {| representations := [];
                     representationsSwitchingMode := "lazy" |} |}) in *.
  assert (Hk : closures w1 !! length (closures w) = Some c0).
  { rewrite Hcls. now apply list_lookup_middle. }
  assert (Hcand : candidates w1 info = candidates w info)
    by now apply sameSurroundings_candidates.
  assert (Hchoice : sortedChoice w1 info = sortedChoice w info).
  { unfold sortedChoice. now rewrite Hcand. }
  rewrite (recompute_eq _ _ _ _ _ Hk). cbn [trackInfo c0 reference].
  rewrite Hcand, Hchoice.
  destruct (fst (candidates w info)) as [|r cands] eqn:Hc'; [contradiction|].
  unfold getValue, newSharedReference. cbn [value].
  rewrite changed_from_empty
    by (intros Hs; apply sort_nil_inv in Hs; discriminate).
  destruct (reference_setValue_fields (length (closures w)) (sortedChoice w info) w1)
    as (H1 & H2 & H3 & H4 & _).
  unfold concluded. cbn [fst snd]. rewrite H3, Htok. cbn [negb].
  unfold adaptationRef_setValue, setValue, getValue. cbn.
  rewrite H1, Href, Hfin, H4, Htrig. cbn.
  split; [reflexivity|]. split; [reflexivity|]. split; [reflexivity|].
  split; [reflexivity|]. split; [reflexivity|].
  rewrite (reference_setValue_closures _ _ _ _ Hk), Hcls.
  rewrite insert_app_r_alt by lia. rewrite Nat.sub_diag. reflexivity.
Qed.

Lemma call_with_candidates_witness :
  history (_adaptationRef
             (fst (enter [] (cUpdateTrack (Some (Sample.setting 0 0))) Sample.fresh)))
  = history (_adaptationRef Sample.fresh)
    ++ [published (cUpdateTrack (Some (Sample.setting 0 0)))
          (length (closures Sample.fresh))].
Proof.
  destruct (call_with_candidates [] (cUpdateTrack (Some (Sample.setting 0 0)))
              (Sample.setting 0 0) Sample.fresh eq_refl)
    as (_ & _ & H & _).
  - vm_compute. discriminate.
  - reflexivity.
  - exact H.
Defined.

(** *** What happens around the dispatcher *)

Lemma sameDispatcher_refl w : sameDispatcher w w.
Proof. unfold sameDispatcher. repeat split. Qed.

Lemma sameDispatcher_same w0 w w' :
  _adaptationRef w' = _adaptationRef w ->
  _lastEmitted w' = _lastEmitted w ->
  _updateToken w' = _updateToken w ->
  _canceller w' = _canceller w ->
  manifestListeners w' = manifestListeners w ->
  hasListeners w' = hasListeners w ->
  length (closures w') = length (closures w) ->
  (forall l, cbs (lockedRefs w' l) = cbs (lockedRefs w l)) ->
  sameDispatcher w0 w -> sameDispatcher w0 w'.
Proof.
  intros H1 H2 H3 H4 H5 H6 H7 H8 (G1 & G2 & G3 & G4 & G5 & G6 & G7 & G8).
  unfold sameDispatcher. rewrite H1, H2, H3, H4, H5, H6, H7.
  repeat (split; [assumption|]). intros l. now rewrite H8.
Qed.

Lemma sameDispatcher_publish w0 k v w :
  sameDispatcher w0 w -> sameDispatcher w0 (reference_setValue k v w).
Proof.
  apply sameDispatcher_same; unfold reference_setValue;
    destruct (closures w !! k); try reflexivity.
  cbn. now rewrite length_insert.
Qed.

Lemma trigger_silent script evt w :
  script = [] \/ hasListeners w = false ->
  trigger script evt w = (set_triggered (triggered w ++ [evt]) w, script).
Proof.
  intros [->|H]; [apply trigger_passive|].
  destruct script; simpl; now rewrite H.
Qed.

Lemma sameDispatcher_recompute w0 script k w :
  script = [] \/ hasListeners w = false ->
  sameDispatcher w0 w ->
  snd (updateReferenceIfNeeded script k w) = script /\
  sameDispatcher w0 (fst (updateReferenceIfNeeded script k w)).
Proof.
  intros Hs Hw. unfold updateReferenceIfNeeded.
  destruct (closures w !! k) as [c|] eqn:Hk.
  - rewrite (recompute_eq _ _ _ _ _ Hk).
    destruct (fst (candidates w (trackInfo c))) as [|r cands].
    + destruct (isLocked w (trackInfo c)).
      * rewrite (trigger_silent _ _ _ Hs). split; [reflexivity|].
        revert Hw. now apply sameDispatcher_same.
      * rewrite trigger_silent by exact Hs. split; [reflexivity|].
        revert Hw. now apply sameDispatcher_same.
    + destruct (changed _ _); split; try reflexivity; [|exact Hw].
      now apply sameDispatcher_publish.
  - unfold updateReferenceIfNeeded_with. rewrite Hk. now split.
Qed.

Lemma sameDispatcher_silent w0 w (script : list Reaction) :
  sameDispatcher w0 w ->
  script = [] \/ hasListeners w0 = false ->
  script = [] \/ hasListeners w = false.
Proof.
  intros (_ & _ & _ & _ & _ & H & _) [->|Hl]; [now left|right; congruence].
Qed.

Lemma sameDispatcher_callListeners w0 script ks :
  script = [] \/ hasListeners w0 = false ->
  forall w,
    sameDispatcher w0 w ->
    snd (callListeners ks (w, script)) = script /\
    sameDispatcher w0 (fst (callListeners ks (w, script))).
Proof.
  intros Hs. unfold callListeners.
  induction ks as [|k ks IH]; intros w Hw; [now split|].
  cbn [fold_left fst snd].
  destruct (sameDispatcher_recompute w0 script k w
              (sameDispatcher_silent _ _ _ Hw Hs) Hw) as [H1 H2].
  destruct (updateReferenceIfNeeded script k w) as [w1 s1].
  cbn [fst snd] in H1, H2. subst s1. now apply IH.
Qed.

Lemma sameDispatcher_callSubscribers w0 script l ks :
  script = [] \/ hasListeners w0 = false ->
  forall w,
    sameDispatcher w0 w ->
    snd (callSubscribers l ks (w, script)) = script /\
    sameDispatcher w0 (fst (callSubscribers l ks (w, script))).
Proof.
  intros Hs. unfold callSubscribers.
  induction ks as [|k ks IH]; intros w Hw; [now split|].
  cbn [fold_left fst snd].
  destruct (existsb (Nat.eqb k) (cbs (lockedRefs w l))); [|now apply IH].
  destruct (sameDispatcher_recompute w0 script k w
              (sameDispatcher_silent _ _ _ Hw Hs) Hw) as [H1 H2].
  destruct (updateReferenceIfNeeded script k w) as [w1 s1].
  cbn [fst snd] in H1, H2. subst s1. now apply IH.
Qed.

Lemma sameDispatcher_step w0 script op w :
  script = [] \/ hasListeners w0 = false ->
  fromAround op = true ->
  sameDispatcher w0 w ->
  snd (step op (w, script)) = script /\
  sameDispatcher w0 (fst (step op (w, script))).
Proof.
  intros Hs Hop Hw. destruct op; try discriminate; cbn [step].
  - now apply sameDispatcher_callListeners.
  - unfold lockedRepresentations_setValue.
    destruct (isFinished (lockedRefs w l)) eqn:Hfin; [now split|].
    apply sameDispatcher_callSubscribers; [exact Hs|].
    revert Hw. apply sameDispatcher_same; try reflexivity.
    intros l'. cbn. unfold update, setValue.
    destruct (l' =? l) eqn:He; [|reflexivity].
    apply Nat.eqb_eq in He. subst l'. now rewrite Hfin.
  - split; [reflexivity|]. revert Hw. now apply sameDispatcher_same.
  - split; [reflexivity|]. revert Hw. now apply sameDispatcher_same.
Qed.

(** X9. Manifest events, updates of a lock, and changes of playability or
    of an Adaptation's Representations never make the dispatcher send a
    track, change its snapshot, its token or its canceller, allocate a
    closure, or add or remove a registration, as long as the listeners of
    its events do not call back into it (they are passive, or there are
    none); the listeners' script is left as it was. *)
Theorem events_leave_the_dispatcher_alone ops script w :
  forallb fromAround ops = true ->
  script = [] \/ hasListeners w = false ->
  snd (run ops (w, script)) = script /\
  sameDispatcher w (fst (run ops (w, script))).
Proof.
  intros Hops Hs. unfold run.
  assert (H : forall w1, sameDispatcher w w1 ->
            snd (fold_left (fun o' op => step op o') ops (w1, script)) = script /\
            sameDispatcher w
              (fst (fold_left (fun o' op => step op o') ops (w1, script)))).
  { induction ops as [|op ops IH]; intros w1 Hw1; [now split|].
    cbn [forallb] in Hops. apply andb_true_iff in Hops as [Hop Hops].
    cbn [fold_left].
    destruct (sameDispatcher_step w script op w1 Hs Hop Hw1) as [H1 H2].
    destruct (step op (w1, script)) as [w2 s2]. cbn [fst snd] in H1, H2.
    subst s2. now apply IH. }
  apply H, sameDispatcher_refl.
Qed.

Lemma events_leave_the_dispatcher_alone_witness :
  snd (run [opManifestEvent manifestUpdate; opSetLocked 0 (Some Sample.lockR1);
            opSetPlayable Sample.nonePlayable; opManifestEvent decipherabilityUpdate]
         (fst (updateTrack [] (Some (Sample.setting 0 0)) Sample.fresh), []))
  = [] /\
  sameDispatcher (fst (updateTrack [] (Some (Sample.setting 0 0)) Sample.fresh))
    (fst (run [opManifestEvent manifestUpdate; opSetLocked 0 (Some Sample.lockR1);
               opSetPlayable Sample.nonePlayable;
               opManifestEvent decipherabilityUpdate]
            (fst (updateTrack [] (Some (Sample.setting 0 0)) Sample.fresh), []))).
Proof.
  apply events_leave_the_dispatcher_alone; [reflexivity|left; reflexivity].
Defined.

(** *** One value per call *)

(** X8. With listeners that do not call back into the dispatcher (they are
    passive, or there are none), every call commits its own choice: on a
    reference that is not finished, [updateTrack(null)] after a [null]
    snapshot leaves [_adaptationRef] and the snapshot as they are, and any
    other call to [start] or [updateTrack] makes [_adaptationRef] receive
    exactly one value, which it then holds: [null] for a [null] call, and
    for a track setting the choice naming the closure the call has just
    allocated, whether or not the recompute finds candidates; [_lastEmitted]
    describes that value. *)
Theorem one_value_per_call script c w :
  script = [] \/ hasListeners w = false ->
  isFinished (_adaptationRef w) = false ->
  (c = cUpdateTrack None /\ _lastEmitted w = Null ->
   _adaptationRef (fst (enter script c w)) = _adaptationRef w /\
   _lastEmitted (fst (enter script c w)) = Null) /\
  (~ (c = cUpdateTrack None /\ _lastEmitted w = Null) ->
   history (_adaptationRef (fst (enter script c w)))
   = history (_adaptationRef w) ++ [published c (length (closures w))] /\
   getValue (_adaptationRef (fst (enter script c w)))
   = published c (length (closures w)) /\
   _lastEmitted (fst (enter script c w)) = snapshot c).
Proof.
  intros Hs Hfin.
  assert (Hcommit : forall v e w0,
            _adaptationRef w0 = _adaptationRef w ->
            _lastEmitted w0 = e ->
            history (_adaptationRef (adaptationRef_setValue v w0))
            = history (_adaptationRef w) ++ [v] /\
            getValue (_adaptationRef (adaptationRef_setValue v w0)) = v /\
            _lastEmitted (adaptationRef_setValue v w0) = e).
  { intros v e w0 Hr He. unfold adaptationRef_setValue, setValue, getValue. cbn.
    rewrite Hr, Hfin. cbn. now repeat split. }
  destruct (callSetting c) as [info|] eqn:Hset.
  - split; [intros [-> _]; discriminate|]. intros _.
    rewrite (enter_eq _ _ _ _ Hset), prepared_allocated.
    destruct (prepared_fields c info w) as (_ & Hlen & Htok & Href & Hlast & _).
    rewrite prepared_allocated in Htok, Href, Hlast. rewrite Hlen.
    set (w1 := allocated info (entered c w)) in *.
    assert (Hs1 : script = [] \/ hasListeners w1 = false).
    { destruct Hs as [->|Hl]; [now left|right]. rewrite <- Hl. unfold w1.
      rewrite (quiet_hasListeners _ _ (quiet_allocated info (entered c w))).
      cbn [hasListeners set_closures].
      apply (quiet_hasListeners _ _ (quiet_entered c w)). }
    destruct (sameDispatcher_recompute w1 script (length (closures w)) w1
                Hs1 (sameDispatcher_refl w1))
      as (_ & H1 & H2 & H3 & _).
    unfold updateReferenceIfNeeded in H1, H2, H3.
    unfold concluded. rewrite H3, Htok. cbn [negb fst].
    apply Hcommit; [cbn; now rewrite H1|reflexivity].
  - destruct c as [[info|]|[info|]]; try discriminate.
    + split; [intros [? _]; discriminate|]. intros _.
      cbn [enter]. unfold start, start_with. cbn [fst].
      now apply Hcommit.
    + cbn [enter]. unfold updateTrack, updateTrack_with.
      cbn [_lastEmitted set_updateToken].
      destruct (_lastEmitted w) eqn:Hl.
      * split; [intros [_ ?]; discriminate|]. intros _.
        cbn [fst]. apply Hcommit; [|reflexivity].
        cbn. now rewrite (quiet_adaptationRef _ _ (quiet_cancel _)).
      * split; [now intros _|]. intros Hn. destruct Hn. now split.
      * split; [intros [_ ?]; discriminate|]. intros _.
        cbn [fst]. apply Hcommit; [|reflexivity].
        cbn. now rewrite (quiet_adaptationRef _ _ (quiet_cancel _)).
Qed.

Lemma one_value_per_call_witness :
  history (_adaptationRef
             (fst (enter [] (cStart (Some (Sample.setting 2 0))) Sample.fresh)))
  = history (_adaptationRef Sample.fresh)
    ++ [published (cStart (Some (Sample.setting 2 0)))
          (length (closures Sample.fresh))].
Proof.
  destruct (one_value_per_call [] (cStart (Some (Sample.setting 2 0)))
              Sample.fresh (or_introl eq_refl) eq_refl) as [_ H].
  destruct H as (Hv & _).
  - intros [Hc _]. discriminate.
  - exact Hv.
Defined.

(** *** What a sub-reference holds *)

Lemma referencesFaithful_same w w' :
  closures w' = closures w -> referencesFaithful w -> referencesFaithful w'.
Proof. unfold referencesFaithful. now intros ->. Qed.

Lemma faithful_setValue v r :
  representations v <> [] -> faithful r -> faithful (setValue v r).
Proof.
  intros Hv [H1 H2]. unfold faithful, setValue, getValue in *.
  destruct (isFinished r); [now split|]. cbn. split.
  - now rewrite List.last_last.
  - apply Forall_app. split; [exact H2|]. now repeat constructor.
Qed.

Lemma faithful_values r :
  faithful r ->
  (forall h v, history r = h ++ [v] -> getValue r = v) /\
  (representations (getValue r) = [] <-> history r = []).
Proof.
  intros [H1 H2]. split.
  - intros h v Hh. rewrite H1, Hh. apply List.last_last.
  - split.
    + intros He. destruct (history r) as [|v0 h0] eqn:Hh; [reflexivity|].
      exfalso.
      destruct (@List.exists_last _ (v0 :: h0)) as (h & v & Hl); [discriminate|].
      rewrite Hl in H1, H2. rewrite List.last_last in H1.
      apply Forall_app in H2 as [_ H2]. inversion H2; subst. congruence.
    + intros Hh. now rewrite H1, Hh.
Qed.

(** X10. In every state reached from a new dispatcher, the reference of a
    closure holds the last value it has received; it holds an empty list of
    Representations exactly when it has never received a value, and then it
    holds the "lazy" choice it was built with (line 168). *)
Theorem references_hold_last_value playable adapts locks adaptationRef ops script
    k c :
  closures (fst (run ops (newTrackDispatcher playable adapts locks adaptationRef,
                          script))) !! k = Some c ->
  (forall h v, history (reference c) = h ++ [v] -> getValue (reference c) = v) /\
  (representations (getValue (reference c)) = [] <-> history (reference c) = []) /\
  (history (reference c) = [] ->
   getValue (reference c)
   = {| representations := []; representationsSwitchingMode := "lazy" |}).
Proof.
  intros Hk.
  assert (H : referencesFaithful
                (fst (run ops (newTrackDispatcher playable adapts locks
                                 adaptationRef, script)))).
  { apply (preserved_run referencesFaithful).
    - intros b w0. now apply referencesFaithful_same.
    - intros w0. apply referencesFaithful_same, quiet_closures, quiet_replaced.
    - intros info w0 H.
      apply (referencesFaithful_same
               (set_closures
                  (closures w0 ++
                     [{| trackInfo := info;
                         reference := newSharedReference
                           {| representations := [];
                              representationsSwitchingMode := "lazy" |} |}]) w0)).
      + apply (quiet_closures _ _ (quiet_allocated info w0)).
      + intros j cj Hj. cbn in Hj. apply lookup_app_Some in Hj as [Hj|[_ Hj]].
        * now apply (H j).
        * apply list_lookup_singleton_Some in Hj as [_ <-].
          split; [reflexivity|constructor].
    - intros evt w0. now apply referencesFaithful_same.
    - intros a w0. now apply referencesFaithful_same.
    - intros j cands mode w0 Hc H i ci Hi. unfold reference_setValue in Hi.
      destruct (closures w0 !! j) as [cj|] eqn:Hj; [|now apply (H i)].
      cbn in Hi. destruct (decide (i = j)) as [->|Hne].
      + rewrite list_lookup_insert_eq in Hi by now apply lookup_lt_Some in Hj.
        injection Hi as <-. cbn. apply faithful_setValue; [|now apply (H j)].
        cbn. intros Hs. apply sort_nil_inv in Hs. contradiction.
      + rewrite list_lookup_insert_ne in Hi by congruence. now apply (H i).
    - intros c0 j w0 H _. revert H. now apply referencesFaithful_same.
    - intros w0. apply referencesFaithful_same. unfold dispose. cbn.
      apply (quiet_closures _ _ (quiet_cancel (set_hasListeners false w0))).
    - intros w0. now apply referencesFaithful_same.
    - intros l v w0. now apply referencesFaithful_same.
    - intros f w0. now apply referencesFaithful_same.
    - intros a reps w0. now apply referencesFaithful_same.
    - intros j cj Hj. discriminate. }
  destruct (faithful_values _ (H k c Hk)) as [H1 H2].
  split; [exact H1|]. split; [exact H2|].
  intros Hh. destruct (H k c Hk) as [Hv _]. now rewrite Hv, Hh.
Qed.

Lemma references_hold_last_value_witness :
  representations
    (getValue (reference
       {| trackInfo := Sample.setting 0 0;
          reference := newSharedReference
            {| representations := []; representationsSwitchingMode := "lazy" |} |}))
  = [] <->
  history (reference
    {| trackInfo := Sample.setting 0 0;
       reference := newSharedReference
         {| representations := []; representationsSwitchingMode := "lazy" |} |})
  = [].
Proof.
  destruct (references_hold_last_value Sample.nonePlayable Sample.adapts
              Sample.unlocked (newSharedReference Undefined)
              [opStart (Some (Sample.setting 0 0))] [] 0
              {| trackInfo := Sample.setting 0 0;
                 reference := newSharedReference
                   {| representations := [];
                      representationsSwitchingMode := "lazy" |} |} eq_refl)
    as (_ & H & _).
  exact H.
Defined.

(** *** Which closures stay registered *)

Lemma allocated_registers info w :
  isCancelled (_canceller w) = false ->
  isFinished (lockedRefs w (lockedRepresentations info)) = false ->
  (forall evt,
     manifestListeners (allocated info w) evt
     = manifestListeners w evt ++ [length (closures w)]) /\
  (forall l,
     cbs (lockedRefs (allocated info w) l)
     = if l =? lockedRepresentations info
       then cbs (lockedRefs w l) ++ [length (closures w)]
       else cbs (lockedRefs w l)) /\
  _canceller (allocated info w)
  = {| isCancelled := false;
       registered := registered (_canceller w)
                     ++ [removeListeners (length (closures w));
                         clearSubscription (lockedRepresentations info)
                           (length (closures w))] |}.
Proof.
  intros Hc Hf. unfold allocated, lockedRepresentations_onUpdate, register.
  cbn. rewrite Hc. cbn. rewrite Hf. cbn.
  split; [|split].
  - intros []; reflexivity.
  - intros l. unfold update, onUpdate. destruct (l =? lockedRepresentations info) eqn:He;
      [|reflexivity].
    apply Nat.eqb_eq in He. subst l. now rewrite Hf.
  - now rewrite <- app_assoc.
Qed.

Lemma concluded_registrations c k o :
  manifestListeners (fst (concluded c k o)) = manifestListeners (fst o) /\
  lockedRefs (fst (concluded c k o)) = lockedRefs (fst o) /\
  _canceller (fst (concluded c k o)) = _canceller (fst o).
Proof. unfold concluded. now destruct (negb (_updateToken (fst o))). Qed.

Lemma silent_call_registrations script c info w :
  callSetting c = Some info ->
  script = [] \/ hasListeners w = false ->
  manifestListeners (fst (enter script c w))
  = manifestListeners (allocated info (entered c w)) /\
  (forall l, cbs (lockedRefs (fst (enter script c w)) l)
             = cbs (lockedRefs (allocated info (entered c w)) l)) /\
  _canceller (fst (enter script c w)) = _canceller (allocated info (entered c w)).
Proof.
  intros Hset Hs. rewrite (enter_eq _ _ _ _ Hset), prepared_allocated.
  set (w1 := allocated info (entered c w)).
  assert (Hs1 : script = [] \/ hasListeners w1 = false).
  { destruct Hs as [->|Hl]; [now left|right]. rewrite <- Hl.
    unfold w1.
    rewrite (quiet_hasListeners _ _ (quiet_allocated info (entered c w))).
    cbn [hasListeners set_closures].
    apply (quiet_hasListeners _ _ (quiet_entered c w)). }
  destruct (sameDispatcher_recompute w1 script (length (closures (entered c w))) w1
              Hs1 (sameDispatcher_refl w1))
    as (_ & _ & _ & _ & H4 & H5 & _ & _ & H8).
  destruct (concluded_registrations c (length (closures (entered c w)))
              (updateReferenceIfNeeded script (length (closures (entered c w))) w1))
    as (G1 & G2 & G3).
  unfold updateReferenceIfNeeded in *.
  rewrite G1, G2, G3. split; [exact H5|]. split; [exact H8|exact H4].
Qed.

Lemma runCleanup_isFinished c w l :
  isFinished (lockedRefs (runCleanup c w) l) = isFinished (lockedRefs w l).
Proof.
  destruct c as [k|l' k]; cbn; [reflexivity|].
  unfold update. destruct (l =? l') eqn:He; [|reflexivity].
  apply Nat.eqb_eq in He. now subst l'.
Qed.

Lemma cancel_isFinished w l :
  isFinished (lockedRefs (cancel w) l) = isFinished (lockedRefs w l).
Proof.
  unfold cancel. destruct (isCancelled (_canceller w)); [reflexivity|].
  change (isFinished (lockedRefs w l))
    with (isFinished
            (lockedRefs
               (set_canceller {| isCancelled := true; registered := [] |} w) l)).
  generalize (set_canceller {| isCancelled := true; registered := [] |} w).
  induction (registered (_canceller w)) as [|c cs IH]; intros w0; [reflexivity|].
  cbn [fold_left]. rewrite IH. apply runCleanup_isFinished.
Qed.

(** X11. [start] with a track setting cancels nothing: on a canceller that
    is not cancelled, and with listeners that do not call back, every
    listener of the Manifest and every subscription present before the call
    is still there after it, the new closure is added behind them, for both
    Manifest events and on the setting's lock, and its two removals are
    added to the same canceller. *)
Theorem start_keeps_registrations script info w :
  isCancelled (_canceller w) = false ->
  isFinished (lockedRefs w (lockedRepresentations info)) = false ->
  script = [] \/ hasListeners w = false ->
  (forall evt,
     manifestListeners (fst (start script (Some info) w)) evt
     = manifestListeners w evt ++ [length (closures w)]) /\
  (forall l,
     cbs (lockedRefs (fst (start script (Some info) w)) l)
     = if l =? lockedRepresentations info
       then cbs (lockedRefs w l) ++ [length (closures w)]
       else cbs (lockedRefs w l)) /\
  _canceller (fst (start script (Some info) w))
  = {| isCancelled := false;
       registered := registered (_canceller w)
                     ++ [removeListeners (length (closures w));
                         clearSubscription (lockedRepresentations info)
                           (length (closures w))] |}.
Proof.
  intros Hc Hf Hs. rewrite <- enter_start.
  destruct (silent_call_registrations script (cStart (Some info)) info w
              eq_refl Hs) as (H1 & H2 & H3).
  destruct (allocated_registers info (entered (cStart (Some info)) w) Hc Hf)
    as (G1 & G2 & G3).
  rewrite H1, H3. split; [exact G1|]. split; [|exact G3].
  intros l. rewrite H2. apply G2.
Qed.

Lemma start_keeps_registrations_witness :
  manifestListeners
    (fst (start [] (Some (Sample.setting 1 0))
            (fst (start [] (Some (Sample.setting 0 0)) Sample.fresh))))
    manifestUpdate
  = manifestListeners (fst (start [] (Some (Sample.setting 0 0)) Sample.fresh))
      manifestUpdate
    ++ [length (closures (fst (start [] (Some (Sample.setting 0 0)) Sample.fresh)))].
Proof.
  destruct (start_keeps_registrations [] (Sample.setting 1 0)
              (fst (start [] (Some (Sample.setting 0 0)) Sample.fresh))
              eq_refl eq_refl (or_introl eq_refl)) as [H _].
  exact (H manifestUpdate).
Defined.

(** X12. After [updateTrack] with a track setting, in any state reached
    from a new dispatcher (also after [dispose]) and with listeners that do
    not call back, the closure of this call, and no other, listens to both
    Manifest events and is subscribed to the setting's lock, and the new
    canceller holds its two removals and nothing else. *)
Theorem updateTrack_registers_one playable adapts locks adaptationRef ops script0
    script info :
  (forall l, cbs (locks l) = []) ->
  isFinished
    (lockedRefs (fst (run ops (newTrackDispatcher playable adapts locks
                                 adaptationRef, script0)))
       (lockedRepresentations info)) = false ->
  script = [] \/
  hasListeners (fst (run ops (newTrackDispatcher playable adapts locks
                                adaptationRef, script0))) = false ->
  (forall evt,
     manifestListeners
       (fst (updateTrack script (Some info)
               (fst (run ops (newTrackDispatcher playable adapts locks
                                adaptationRef, script0))))) evt
     = [length (closures (fst (run ops (newTrackDispatcher playable adapts locks
                                          adaptationRef, script0))))]) /\
  (forall l,
     cbs (lockedRefs
            (fst (updateTrack script (Some info)
                    (fst (run ops (newTrackDispatcher playable adapts locks
                                     adaptationRef, script0))))) l)
     = if l =? lockedRepresentations info
       then [length (closures (fst (run ops (newTrackDispatcher playable adapts
                                               locks adaptationRef, script0))))]
       else []) /\
  _canceller
    (fst (updateTrack script (Some info)
            (fst (run ops (newTrackDispatcher playable adapts locks
                             adaptationRef, script0)))))
  = {| isCancelled := false;
       registered :=
         [removeListeners
            (length (closures (fst (run ops (newTrackDispatcher playable adapts
                                               locks adaptationRef, script0)))));
          clearSubscription (lockedRepresentations info)
            (length (closures (fst (run ops (newTrackDispatcher playable adapts
                                               locks adaptationRef, script0)))))] |}.
Proof.
  intros Hlocks.
  pose proof (registryConsistent_run playable adapts locks adaptationRef ops
                script0 Hlocks) as Hreg.
  generalize dependent (fst (run ops (newTrackDispatcher playable adapts locks
                                        adaptationRef, script0))).
  intros w Hreg Hf Hs. rewrite <- enter_updateTrack.
  destruct (silent_call_registrations script (cUpdateTrack (Some info)) info w
              eq_refl Hs) as (H1 & H2 & H3).
  set (w1 := entered (cUpdateTrack (Some info)) w) in *.
  assert (Hreg1 : registryConsistent (set_updateToken true w)).
  { revert Hreg. now apply registryConsistent_same. }
  destruct (cancel_empties _ Hreg1) as [E1 E2].
  pose proof (quiet_cancel (set_updateToken true w)) as Hq.
  assert (Hlen : length (closures w1) = length (closures w)).
  { unfold w1, entered. cbn. now rewrite (quiet_closures _ _ Hq). }
  assert (Hf1 : isFinished (lockedRefs w1 (lockedRepresentations info)) = false).
  { unfold w1, entered. cbn. now rewrite cancel_isFinished. }
  destruct (allocated_registers info w1 eq_refl Hf1) as (G1 & G2 & G3).
  rewrite H1, H3, <- Hlen. split; [|split].
  - intros evt. rewrite G1. unfold w1, entered. cbn. now rewrite E1.
  - intros l. rewrite H2, G2. unfold w1, entered. cbn. rewrite E2.
    now destruct (l =? lockedRepresentations info).
  - rewrite G3. reflexivity.
Qed.

Lemma updateTrack_registers_one_witness :
  manifestListeners
    (fst (updateTrack [] (Some (Sample.setting 1 0))
            (fst (run [opAddEventListener; opStart (Some (Sample.setting 0 0));
                       opDispose]
                    (newTrackDispatcher Sample.allPlayable Sample.adapts
                       Sample.unlocked (newSharedReference Undefined), [])))))
    manifestUpdate
  = [length (closures
               (fst (run [opAddEventListener; opStart (Some (Sample.setting 0 0));
                          opDispose]
                       (newTrackDispatcher Sample.allPlayable Sample.adapts
                          Sample.unlocked (newSharedReference Undefined), []))))].
Proof.
  destruct (updateTrack_registers_one Sample.allPlayable Sample.adapts
              Sample.unlocked (newSharedReference Undefined)
              [opAddEventListener; opStart (Some (Sample.setting 0 0)); opDispose]
              [] [] (Sample.setting 1 0) (fun _ => eq_refl) eq_refl
              (or_introl eq_refl)) as [H _].
  exact (H manifestUpdate).
Defined.
